(** * ELL (Embedded Learning Library): decision-forest refinement and the
      compressed integer list

    A shallow embedding of

    - [libraries/dataset/include/CompressedIntegerList.h]: the delta-encoded
      non-decreasing list of unsigned 64-bit integers and its forward
      iterator;
    - [libraries/nodes/tcc/ForestNode.tcc]: [ForestNode::Copy],
      [ForestNode::RefineNode] and [ForestNode::Compute], over a model of the
      node/port graph and of the [ModelTransformer].
*)

From Stdlib Require Import ZArith NArith Lia List PrimFloat.
From Stdlib.Strings Require Byte.
From stdpp Require Import base option list numbers.

Set Default Proof Using "Type*".

(** ** Exceptions raised by the library *)

Inductive Exception : Type :=
| invalid_argument
| out_of_range.

(* ===================================================================== *)
(** * CompressedIntegerList *)
(* ===================================================================== *)

Module CompressedIntegerList.

(** [typedef uint8_t uint8] and [uint64]: unsigned machine integers, held in
    [N] with the wrap-around written out. *)
Definition uint8 : Type := Byte.byte.
Definition uint64 : Type := N.

Definition UINT64_MODULUS : N := 2 ^ 64.
Definition wrap64 (n : N) : uint64 := (n mod UINT64_MODULUS)%N.

(** Modelled from the spec: the byte format of one delta.  The header only
    declares [vector<uint8> _mem]; the specification leaves the
    variable-width format open and requires only that it round-trips, so the
    format is an interface: an encoder, a decoder returning the decoded delta
    with the number of bytes it occupies, and the round-trip law. *)
Class DeltaCodec : Type := {
  encode_delta : uint64 -> list uint8;
  decode_delta : list uint8 -> uint64 * nat
}.

Class DeltaCodecLaws `{DeltaCodec} : Prop := {
  decode_encode_delta : forall (d : uint64) (rest : list uint8),
    (d < UINT64_MODULUS)%N ->
    decode_delta (encode_delta d ++ rest) = (d, length (encode_delta d));
  encode_delta_nonempty : forall d : uint64,
    (d < UINT64_MODULUS)%N -> 0 < length (encode_delta d)
}.

(** *** A concrete format: little-endian base-128 groups

    Seven payload bits per byte, the top bit set on every byte but the last:
    deltas below 128 take one byte. *)
Module Varint.

Definition byte_of_N (n : N) : uint8 :=
  match Byte.of_N n with
  | Some b => b
  | None => Byte.x00
  end.

Fixpoint encode (fuel : nat) (n : N) : list uint8 :=
  match fuel with
  | O => [byte_of_N (n mod 128)]
  | S fuel' =>
      if (n <? 128)%N then [byte_of_N n]
      else byte_of_N (128 + n mod 128) :: encode fuel' (n / 128)
  end.

Fixpoint decode (bs : list uint8) : uint64 * nat :=
  match bs with
  | [] => (0%N, 0)
  | b :: bs' =>
      let v := Byte.to_N b in
      if (v <? 128)%N then (v, 1)
      else
        let '(hi, k) := decode bs' in
        ((v - 128) + 128 * hi, S k)%N
  end.

(** Ten groups of seven bits cover 64 bits (nine continuation steps). *)
Definition encode64 (n : uint64) : list uint8 := encode 9 n.

End Varint.

#[global] Instance Varint_codec : DeltaCodec := {|
  encode_delta := Varint.encode64;
  decode_delta := Varint.decode
|}.

(** The list. *)
Record t : Type := mk {
  _mem : list uint8;
  _last : uint64;
  _size : uint64
}.

(** The iterator: [_iter] and [_end] point into the list's [_mem]; they are
    held as offsets from the start of that buffer. *)
Record Iterator : Type := mkIterator {
  _iter : nat;
  _end : nat;
  _value : uint64;
  _iter_increment : nat
}.

Section Operations.
Context `{DeltaCodec}.

(** Modelled from the spec: the member functions below are declared in
    CompressedIntegerList.h and defined in a source file that is missing;
    each follows section 4.3 (contract), section 3 (state) and section 7
    (errors) of the specification. *)

(** Modelled from the spec: the default constructor is missing; "Constructs
    an empty list", with [Max()] of an empty list being 0. *)
Definition CompressedIntegerList : t :=
  {| _mem := []; _last := 0%N; _size := 0%N |}.

(** Modelled from the spec: [Size()] is missing; the count of pushed
    values. *)
Definition Size (l : t) : uint64 := _size l.

(** Modelled from the spec: [Max()] is missing; the last pushed value, 0 for
    an empty list. *)
Definition Max (l : t) : uint64 := _last l.

(** Modelled from the spec: [Reserve] is missing; a capacity hint with no
    observable effect on the contents. *)
Definition Reserve (size : uint64) (l : t) : t := l.

(** Modelled from the spec: [Reset] is missing; clears all content and sets
    the size to zero. *)
Definition Reset (l : t) : t := CompressedIntegerList.

(** Modelled from the spec: [PushBack] is missing.  A value below the last
    pushed one is refused with an invalid-argument condition before anything
    is written; otherwise the delta from the previous value is appended in
    the variable-width format, the size advances by one and the running last
    value is updated.  The result pairs the condition raised, if any, with
    the list after the call. *)
Definition PushBack (value : uint64) (l : t) : option Exception * t :=
  if (value <? _last l)%N then (Some invalid_argument, l)
  else
    let delta := (value - _last l)%N in
    (None,
     {| _mem := _mem l ++ encode_delta delta;
        _last := value;
        _size := wrap64 (_size l + 1) |}).

(** Modelled from the spec: [Iterator::IsValid] is missing; false once the
    cursor has advanced past the last entry. *)
Definition IsValid (it : Iterator) : bool := _iter it <? _end it.

(** Decoding at the cursor: the bytes from [_iter] up to [_end]. *)
Definition load (mem : list uint8) (it : Iterator) (pos : nat) : uint64 * nat :=
  decode_delta (drop pos (take (_end it) mem)).

(** Modelled from the spec: [Iterator::Next] is missing; advancing an
    already-invalid iterator signals out-of-range, otherwise the cursor moves
    by the pending increment and, when an entry is there, its delta is decoded
    and added to the running value. *)
Definition Next (mem : list uint8) (it : Iterator) : Exception + Iterator :=
  if IsValid it then
    let pos := _iter it + _iter_increment it in
    if pos <? _end it then
      let '(delta, width) := load mem it pos in
      inr {| _iter := pos; _end := _end it;
             _value := wrap64 (_value it + delta);
             _iter_increment := width |}
    else
      inr {| _iter := pos; _end := _end it;
             _value := _value it; _iter_increment := 0 |}
  else inl out_of_range.

(** Modelled from the spec: [Iterator::Get] is missing; the decoded value at
    the current position, out-of-range on an invalid iterator. *)
Definition Get (it : Iterator) : Exception + uint64 :=
  if IsValid it then inr (_value it) else inl out_of_range.

(** Modelled from the spec: [GetIterator] is missing; a fresh cursor
    positioned at the first entry, immediately invalid if the list is
    empty. *)
Definition GetIterator (l : t) : Iterator :=
  let it0 := {| _iter := 0; _end := length (_mem l);
                _value := 0%N; _iter_increment := 0 |} in
  if 0 <? _end it0 then
    let '(delta, width) := load (_mem l) it0 0 in
    {| _iter := 0; _end := _end it0; _value := delta; _iter_increment := width |}
  else it0.

(** The client loop
    [for (auto it = l.GetIterator(); it.IsValid(); it.Next()) out.push_back(it.Get());]
    The fuel bounds the number of turns; [None] when it runs out, a raised
    condition as [Some (inl e)]. *)
Fixpoint iterate (fuel : nat) (mem : list uint8) (it : Iterator)
  : option (Exception + list uint64) :=
  if IsValid it then
    match fuel with
    | O => None
    | S fuel' =>
        match Get it with
        | inl e => Some (inl e)
        | inr v =>
            match Next mem it with
            | inl e => Some (inl e)
            | inr it' =>
                match iterate fuel' mem it' with
                | Some (inr vs) => Some (inr (v :: vs))
                | r => r
                end
            end
        end
    end
  else Some (inr []).

(** Every entry occupies at least one byte, so the buffer length bounds the
    number of turns. *)
Definition toList (l : t) : option (Exception + list uint64) :=
  iterate (length (_mem l)) (_mem l) (GetIterator l).

(** Pushing a sequence in order, stopping at the first refused value. *)
Fixpoint PushBackAll (values : list uint64) (l : t) : Exception + t :=
  match values with
  | [] => inr l
  | v :: values' =>
      match PushBack v l with
      | (Some e, _) => inl e
      | (None, l') => PushBackAll values' l'
      end
  end.

End Operations.

(** Non-decreasing sequences, each value paired with its predecessor. *)
Fixpoint nondecreasing_from (prev : N) (values : list N) : Prop :=
  match values with
  | [] => True
  | v :: values' => (prev <= v)%N /\ nondecreasing_from v values'
  end.

Definition nondecreasing (values : list N) : Prop := nondecreasing_from 0 values.

(** Values that fit 64 bits. *)
Definition in_range (values : list N) : Prop :=
  Forall (fun v => (v < UINT64_MODULUS)%N) values.

(** The deltas stored for a sequence pushed after [prev], and their bytes. *)
Fixpoint deltas (prev : N) (values : list N) : list N :=
  match values with
  | [] => []
  | v :: values' => (v - prev)%N :: deltas v values'
  end.

Definition encoded `{DeltaCodec} (prev : N) (values : list N) : list uint8 :=
  concat (encode_delta <$> deltas prev values).

(** The example of the specification: the pushes 0, 0, 3, 3, 10. *)
Definition example_values : list uint64 := [0; 0; 3; 3; 10]%N.

Definition example_list : t :=
  match PushBackAll (H := Varint_codec) example_values CompressedIntegerList with
  | inr l => l
  | inl _ => CompressedIntegerList
  end.

End CompressedIntegerList.

(* ===================================================================== *)
(** * The node/port graph, the forest predictor and ForestNode *)
(* ===================================================================== *)

Module nodes.

(** The template parameters of [ForestNode<SplitRuleType, EdgePredictorType>]
    with the arithmetic of [double].  The split rule and the edge predictor
    are used through their [Predict] only. *)
Class ForestTypes : Type := {
  double : Type;
  dzero : double;
  dadd : double -> double -> double;
  SplitRuleType : Type;
  EdgePredictorType : Type;
  splitPredict : SplitRuleType -> list double -> bool;
  edgePredict : EdgePredictorType -> list double -> double
}.

(** Exact arithmetic: addition is associative and commutative with unit
    [dzero].  It holds of the integers and of the rationals; it does not
    hold of binary64, the arithmetic of the C++ [double], where every
    addition rounds and a sum depends on the order in which it is taken (see
    [Binary64] below).  It is never assumed of the program: it only appears
    as an explicit premise where two sums taken in different orders are
    compared. *)
Class ExactArithmetic `{ForestTypes} : Prop := {
  dadd_assoc : forall a b c : double, dadd a (dadd b c) = dadd (dadd a b) c;
  dadd_comm : forall a b : double, dadd a b = dadd b a;
  dadd_zero_l : forall a : double, dadd dzero a = a
}.

(** [static_cast<int>] of a [size_t], and back: 32-bit two's complement. *)
Definition int_of_size_t (n : nat) : Z :=
  let r := (Z.of_nat n mod 2 ^ 32)%Z in
  if (r <? 2 ^ 31)%Z then r else (r - 2 ^ 32)%Z.

Definition size_t_of_int (z : Z) : nat := Z.to_nat (z mod 2 ^ 64)%Z.

Definition INT_MIN : Z := (- 2 ^ 31)%Z.

Section ForestPredictor.
Context `{ForestTypes}.

(** *** predictors::ForestPredictor, as RefineNode reads it *)

Record Edge : Type := {
  GetPredictor : EdgePredictorType;
  IsTargetInterior : bool;
  GetTargetNodeIndex : nat
}.

Record InteriorNode : Type := {
  GetSplitRule : SplitRuleType;
  GetOutgoingEdges : list Edge;
  GetFirstEdgeIndex : nat
}.

Record ForestPredictor : Type := {
  GetInteriorNodes : list InteriorNode;
  GetRootIndices : list nat;
  GetBias : double;
  NumEdges : nat
}.

Definition NumTrees (forest : ForestPredictor) : nat :=
  length (GetRootIndices forest).

Definition GetRootIndex (forest : ForestPredictor) (i : nat) : option nat :=
  GetRootIndices forest !! i.

(** One step of the walk from an interior node to a leaf: the node visited,
    the index of the edge taken and the edge. *)
Record PathStep : Type := {
  stepNode : nat;
  stepEdgeIndex : nat;
  stepEdge : Edge
}.

(** [static_cast<int>] of a [bool], used as an index. *)
Definition indexOfBool (b : bool) : nat := if b then 1 else 0.

Definition edgePosition (rule : SplitRuleType) (input : list double) : nat :=
  indexOfBool (splitPredict rule input).

(** Modelled from the spec: the walk of the in-memory predictor is missing
    (ForestPredictor is an external collaborator).  From an interior node the
    split rule picks the edge, the edge is followed, and the walk ends at the
    first leaf target.  The fuel bounds the number of steps. *)
Fixpoint VisitEdgePathToLeaf (fuel : nat) (forest : ForestPredictor)
    (input : list double) (nodeIndex : nat) : option (list PathStep) :=
  match fuel with
  | O => None
  | S fuel' =>
      node ← GetInteriorNodes forest !! nodeIndex;
      let position := edgePosition (GetSplitRule node) input in
      edge ← GetOutgoingEdges node !! position;
      let step := {| stepNode := nodeIndex;
                     stepEdgeIndex := GetFirstEdgeIndex node + position;
                     stepEdge := edge |} in
      if IsTargetInterior edge then
        rest ← VisitEdgePathToLeaf fuel' forest input (GetTargetNodeIndex edge);
        Some (step :: rest)
      else Some [step]
  end.

Definition edgeValue (input : list double) (step : PathStep) : double :=
  edgePredict (GetPredictor (stepEdge step)) input.

(** Adding the edge values of a path to an accumulator, in walk order. *)
Definition accumulate (input : list double) (acc : double) (path : list PathStep)
  : double :=
  fold_left (fun a step => dadd a (edgeValue input step)) path acc.

Definition treePath (forest : ForestPredictor) (input : list double)
    (root : nat) : option (list PathStep) :=
  VisitEdgePathToLeaf (length (GetInteriorNodes forest)) forest input root.

(** Modelled from the spec: [Predict(input, rootIndex)] is missing; the sum
    of the edge predictors along the path from that root to a leaf. *)
Definition PredictTree (forest : ForestPredictor) (input : list double)
    (rootIndex : nat) : option double :=
  path ← treePath forest input rootIndex;
  Some (accumulate input dzero path).

(** Modelled from the spec: [Predict(input)] is missing; the bias plus the
    edge predictors along the path of every tree. *)
Definition Predict (forest : ForestPredictor) (input : list double)
  : option double :=
  paths ← mapM (treePath forest input) (GetRootIndices forest);
  Some (accumulate input (GetBias forest) (concat paths)).

(** Modelled from the spec: [GetEdgeIndicatorVector(input)] is missing; one
    boolean per edge, true iff the edge lies on the path taken in its
    tree. *)
Definition GetEdgeIndicatorVector (forest : ForestPredictor)
    (input : list double) : option (list bool) :=
  paths ← mapM (treePath forest input) (GetRootIndices forest);
  Some (fold_left (fun v step => <[stepEdgeIndex step := true]> v)
                  (concat paths) (replicate (NumEdges forest) false)).

(** *** ForestNode::Compute (ForestNode.tcc, lines 150-167)

    The three published outputs: the forest output, the individual tree
    outputs and the edge indicator vector. *)
Definition Compute (forest : ForestPredictor) (input : list double)
  : option (list double * list double * list bool) :=
  out ← Predict forest input;
  treeOutputs ← mapM (fun i => root ← GetRootIndex forest i;
                               PredictTree forest input root)
                     (seq 0 (NumTrees forest));
  edgeIndicator ← GetEdgeIndicatorVector forest input;
  Some ([out], treeOutputs, edgeIndicator).

(** *** Ports and nodes of a model *)

(** PortElements: an ordered sequence of references to single elements of
    output ports, each a node of the model, one of its output ports and an
    offset in that port. *)
Record PortElement : Type := {
  referencedNode : nat;
  referencedPort : nat;
  elementIndex : nat
}.

Abbreviation PortElements := (list PortElement).

(** The element [k] of the output port [p] of the node [id]. *)
Definition el (id p k : nat) : PortElement :=
  {| referencedNode := id; referencedPort := p; elementIndex := k |}.

Inductive BinaryOperationType : Type := add.
Inductive UnaryOperationType : Type := logicalNot.

(** The node kinds RefineNode and Copy add to a model. *)
Inductive Node : Type :=
| ConstantNode (values : list double)
| BinaryOperationNode (input1 input2 : PortElements) (operation : BinaryOperationType)
| UnaryOperationNode (input : PortElements) (operation : UnaryOperationType)
| ElementSelectorNode (elements selector : PortElements)
| MultiplexorNode (elements selector : PortElements) (outputSize : nat)
| SumNode (input : PortElements)
| SplitRuleNode (input : PortElements) (rule : SplitRuleType)
| EdgePredictorNode (input : PortElements) (predictor : EdgePredictorType)
| ForestNode (input : PortElements) (forest : ForestPredictor).

(** The sizes of a node's output ports, fixed at construction.  ForestNode:
    line 24 of ForestNode.tcc.  Modelled from the spec: the constructors of
    the primitive nodes are missing; each has the single port [output]. *)
Definition outputSizes (n : Node) : list nat :=
  match n with
  | ConstantNode values => [length values]
  | BinaryOperationNode input1 _ _ => [length input1]
  | UnaryOperationNode input _ => [length input]
  | ElementSelectorNode _ _ => [1]
  | MultiplexorNode _ _ outputSize => [outputSize]
  | SumNode _ => [1]
  | SplitRuleNode _ _ => [1]
  | EdgePredictorNode _ _ => [1]
  | ForestNode _ forest => [1; NumTrees forest; NumEdges forest]
  end.

(** A node added to a model: its position in the model and the node. *)
Record NodeHandle : Type := {
  nodeId : nat;
  nodeOf : Node
}.

(** All the elements of an output port, in order. *)
Definition portElements (h : NodeHandle) (port : nat) : PortElements :=
  el (nodeId h) port <$> seq 0 (default 0 (outputSizes (nodeOf h) !! port)).

(** [node->output] of a primitive node and the three ports of a ForestNode. *)
Definition output (h : NodeHandle) : PortElements := portElements h 0.
Definition treeOutputs (h : NodeHandle) : PortElements := portElements h 1.
Definition edgeIndicatorVector (h : NodeHandle) : PortElements := portElements h 2.

(** [{port, index}]: one element of a port. *)
Definition elementOf (port : PortElements) (index : nat) : PortElements :=
  match port !! index with
  | Some el => [el]
  | None => []
  end.

(** *** Evaluation of a model *)

Inductive Value : Type :=
| VDouble (d : double)
| VBool (b : bool).

(** The values on the output ports of the nodes computed so far. *)
Abbreviation Env := (list (list (list Value))).

Definition readElement (env : Env) (el : PortElement) : option Value :=
  ports ← env !! referencedNode el;
  values ← ports !! referencedPort el;
  values !! elementIndex el.

Definition asDouble (v : Value) : option double :=
  match v with VDouble d => Some d | VBool _ => None end.

Definition asBool (v : Value) : option bool :=
  match v with VBool b => Some b | VDouble _ => None end.

Definition readDoubles (env : Env) (elements : PortElements) : option (list double) :=
  mapM (fun el => readElement env el ≫= asDouble) elements.

Definition readBools (env : Env) (elements : PortElements) : option (list bool) :=
  mapM (fun el => readElement env el ≫= asBool) elements.

(** Modelled from the spec: [Compute] of the primitive nodes is missing
    (constant, binary and unary operation, element selector, multiplexor,
    sum, and the nodes of a split rule and of an edge predictor); each is the
    pure function of its inputs that its port contract names.  The
    multiplexor routes its input to the output chosen by the selector and
    leaves [false] on the others.  A ForestNode computes by [Compute]. *)
Definition ComputeNode (env : Env) (n : Node) : option (list (list Value)) :=
  match n with
  | ConstantNode values => Some [VDouble <$> values]
  | BinaryOperationNode input1 input2 add =>
      a ← readDoubles env input1;
      b ← readDoubles env input2;
      if decide (length a = length b)
      then Some [VDouble <$> zip_with dadd a b] else None
  | UnaryOperationNode input logicalNot =>
      a ← readBools env input;
      Some [VBool <$> (negb <$> (a : list bool))]
  | ElementSelectorNode elements selector =>
      a ← readDoubles env elements;
      s ← readBools env selector;
      match s with
      | [b] => v ← (a : list double) !! indexOfBool b; Some [[VDouble v]]
      | _ => None
      end
  | MultiplexorNode elements selector outputSize =>
      a ← readBools env elements;
      s ← readBools env selector;
      match a, s with
      | [v], [b] =>
          let index := indexOfBool b in
          if decide (index < outputSize)
          then Some [VBool <$> <[index := v]> (replicate outputSize false)]
          else None
      | _, _ => None
      end
  | SumNode input =>
      a ← readDoubles env input;
      Some [[VDouble (fold_left dadd a dzero)]]
  | SplitRuleNode input rule =>
      x ← readDoubles env input;
      Some [[VBool (splitPredict rule x)]]
  | EdgePredictorNode input predictor =>
      x ← readDoubles env input;
      Some [[VDouble (edgePredict predictor x)]]
  | ForestNode input forest =>
      x ← readDoubles env input;
      match Compute forest x with
      | Some (out, trees, indicator) =>
          Some [VDouble <$> out; VDouble <$> trees; VBool <$> indicator]
      | None => None
      end
  end.

(** Computing the nodes in the order they were added, which is a topological
    order: a node's inputs reference nodes added before it. *)
Definition computeNext (env : option Env) (n : Node) : option Env :=
  e ← env; outs ← ComputeNode e n; Some (e ++ [outs]).

Definition Evaluate (model : list Node) : option Env :=
  fold_left computeNext model (Some []).

(** *** model::ModelTransformer *)

(** An output port of a node of the model under transformation: the node and
    the position of the port among its outputs. *)
Abbreviation OutputPort := (nat * nat)%type.

(** The transformer of one pass: the target model it builds, and the
    elements registered for the old output ports, in registration order. *)
Record ModelTransformer : Type := {
  model : list Node;
  elementsMap : list (OutputPort * PortElements)
}.

(** The vectors local to RefineNode, as tags of the access log. *)
Inductive Vector : Type :=
| vec_interiorNodeSplitIndicators
| vec_interiorNodeSubModels
| vec_edgeIndicatorSubModels
| vec_incomingEdgeIndices.

#[global] Instance Vector_eq_dec : EqDecision Vector.
Proof. solve_decision. Defined.

Inductive Access : Type :=
| Read (v : Vector) (index : nat)
| Write (v : Vector) (index : nat).

(** The state threaded through Copy and RefineNode: the transformer, and a
    log of the accesses made to the local vectors through [operator[]]. *)
Record State : Type := {
  transformer : ModelTransformer;
  accesses : list Access
}.

(** Computations over the state; [None] is undefined behaviour (an access
    outside a vector, a signed overflow) or a failed lookup. *)
Definition M (A : Type) : Type := State -> option (A * State).

Definition ret {A} (a : A) : M A := fun st => Some (a, st).

Definition bind {A B} (c : M A) (k : A -> M B) : M B :=
  fun st => match c st with
            | Some (a, st') => k a st'
            | None => None
            end.

Definition fail {A} : M A := fun _ => None.

Definition lift {A} (o : option A) : M A :=
  fun st => match o with Some a => Some (a, st) | None => None end.

Local Notation "x <- c1 ;; c2" := (bind c1 (fun x => c2))
  (at level 20, c1 at level 99, c2 at level 200, only parsing).
Local Notation "' pat <- c1 ;; c2" :=
  (bind c1 (fun x => match x with pat => c2 end))
  (at level 20, pat pattern, c1 at level 99, c2 at level 200, only parsing).
Local Notation "c1 ;; c2" := (bind c1 (fun _ => c2))
  (at level 100, c2 at level 200, only parsing, right associativity).

(** A [for] loop over a range, threading the variables the body updates. *)
Fixpoint foldM {A B} (body : A -> B -> M A) (a : A) (range : list B) : M A :=
  match range with
  | [] => ret a
  | b :: range' => a' <- body a b ;; foldM body a' range'
  end.

Definition log (event : Access) : M unit :=
  fun st => Some (tt, {| transformer := transformer st;
                         accesses := accesses st ++ [event] |}).

(** [v[index]] read and [v[index] = x]: undefined outside the vector. *)
Definition at_ {A} (name : Vector) (v : list A) (index : nat) : M A :=
  x <- lift (v !! index) ;; log (Read name index) ;; ret x.

Definition assign {A} (name : Vector) (v : list A) (index : nat) (x : A)
  : M (list A) :=
  if decide (index < length v)
  then log (Write name index) ;; ret (<[index := x]> v)
  else fail.

(** Modelled from the spec: [AddNode] is missing; the node is constructed
    and registered in the target model, whose node count grows by one, and a
    stable reference to it is returned. *)
Definition AddNode (n : Node) : M NodeHandle :=
  fun st =>
    let t := transformer st in
    Some ({| nodeId := length (model t); nodeOf := n |},
          {| transformer := {| model := model t ++ [n];
                               elementsMap := elementsMap t |};
             accesses := accesses st |}).

(** Modelled from the spec: [AddNodeToModelTransformer] is missing; it adds
    the node that realizes a split rule, or an edge predictor, applied to the
    given input. *)
Definition AddSplitRuleToModelTransformer (input : PortElements)
    (rule : SplitRuleType) : M NodeHandle :=
  AddNode (SplitRuleNode input rule).

Definition AddEdgePredictorToModelTransformer (input : PortElements)
    (predictor : EdgePredictorType) : M NodeHandle :=
  AddNode (EdgePredictorNode input predictor).

(** Modelled from the spec: [MapNodeOutput] is missing; it registers the new
    elements of an old output port, and the mapping is append-only. *)
Definition MapNodeOutput (old : OutputPort) (new : PortElements) : M unit :=
  fun st =>
    let t := transformer st in
    Some (tt, {| transformer := {| model := model t;
                                   elementsMap := elementsMap t ++ [(old, new)] |};
                 accesses := accesses st |}).

Definition GetCorrespondingOutputs (t : ModelTransformer) (old : OutputPort)
  : option PortElements :=
  snd <$> find (fun entry => bool_decide (fst entry = old)) (elementsMap t).

(** Modelled from the spec: [TransformPortElements] is missing; elements that
    reference old outputs are rewritten to the elements registered for them;
    every referenced port must have been mapped already. *)
Definition TransformPortElements (old : PortElements) : M PortElements :=
  fun st =>
    new ← mapM (fun el =>
                  port ← GetCorrespondingOutputs (transformer st)
                           (referencedNode el, referencedPort el);
                  (port : PortElements) !! elementIndex el) old;
    Some (new, st).

(** *** ForestNode *)

(** The ForestNode under transformation: its place in the old model, its
    input and its forest. *)
Record ForestNodeObject : Type := {
  thisNode : nat;
  _input : PortElements;
  _forest : ForestPredictor
}.

(** Its three output ports, in the order of the constructor. *)
Definition _output (this : ForestNodeObject) : OutputPort := (thisNode this, 0).
Definition _treeOutputs (this : ForestNodeObject) : OutputPort := (thisNode this, 1).
Definition _edgeIndicatorVector (this : ForestNodeObject) : OutputPort :=
  (thisNode this, 2).

(** ForestNode::Copy (lines 27-35). *)
Definition Copy (this : ForestNodeObject) : M unit :=
  newPortElements <- TransformPortElements (_input this) ;;
  newNode <- AddNode (ForestNode newPortElements (_forest this)) ;;
  MapNodeOutput (_output this) (output newNode) ;;
  MapNodeOutput (_treeOutputs this) (treeOutputs newNode) ;;
  MapNodeOutput (_edgeIndicatorVector this) (edgeIndicatorVector newNode).

(** ForestNode::RefineNode (lines 37-148). *)

(** Lines 56-69: the sub-model of one outgoing edge, appended to
    [edgeOutputs]. *)
Definition edgeSubModel (newPortElements : PortElements)
    (interiorNodeSubModels : list PortElements)
    (edgeOutputs : PortElements) (edge : Edge) : M PortElements :=
  edgePredictorNode <-
    AddEdgePredictorToModelTransformer newPortElements (GetPredictor edge) ;;
  if IsTargetInterior edge then
    elements <- at_ vec_interiorNodeSubModels interiorNodeSubModels
                    (GetTargetNodeIndex edge) ;;
    sumNode <- AddNode (BinaryOperationNode (output edgePredictorNode) elements add) ;;
    ret (edgeOutputs ++ output sumNode)
  else
    ret (edgeOutputs ++ output edgePredictorNode).

(** Lines 49-79: the body of the bottom-up loop. *)
Definition visitBottomUp (newPortElements : PortElements)
    (interiorNodes : list InteriorNode)
    (vectors : list PortElements * list PortElements) (nodeIndex : nat)
  : M (list PortElements * list PortElements) :=
  let '(interiorNodeSplitIndicators, interiorNodeSubModels) := vectors in
  node <- lift (interiorNodes !! nodeIndex) ;;
  let edges := GetOutgoingEdges node in
  edgeOutputs <- foldM (edgeSubModel newPortElements interiorNodeSubModels) [] edges ;;
  splitRuleNode <-
    AddSplitRuleToModelTransformer newPortElements (GetSplitRule node) ;;
  interiorNodeSplitIndicators <-
    assign vec_interiorNodeSplitIndicators interiorNodeSplitIndicators nodeIndex
           (output splitRuleNode) ;;
  selectorNode <- AddNode (ElementSelectorNode edgeOutputs (output splitRuleNode)) ;;
  interiorNodeSubModels <-
    assign vec_interiorNodeSubModels interiorNodeSubModels nodeIndex
           (output selectorNode) ;;
  ret (interiorNodeSplitIndicators, interiorNodeSubModels).

(** Lines 116-124: a node records itself as the parent of its interior
    children. *)
Definition recordParent (firstEdgeIndex : nat) (incomingEdgeIndices : list Z)
    (child : nat * Edge) : M (list Z) :=
  let '(edgePosition, edge) := child in
  if IsTargetInterior edge then
    let childNode := GetTargetNodeIndex edge in
    assign vec_incomingEdgeIndices incomingEdgeIndices childNode
           (int_of_size_t (firstEdgeIndex + edgePosition))
  else ret incomingEdgeIndices.

(** Lines 96-109: the indicators of the two edges of a node, from the
    output of its split rule: its negation and itself for a root, the two
    outputs of a multiplexor fed with the indicator of the incoming edge
    otherwise. *)
Definition childIndicators (isRoot : bool) (parentEdgeIndex : Z)
    (edgeIndicatorSubModels : list PortElements) (edgeSelector : PortElements)
  : M (PortElements * PortElements) :=
  if isRoot then
    notNode <- AddNode (UnaryOperationNode edgeSelector logicalNot) ;;
    ret (output notNode, edgeSelector)
  else
    parentIndicator <-
      at_ vec_edgeIndicatorSubModels edgeIndicatorSubModels
          (size_t_of_int parentEdgeIndex) ;;
    muxNode <- AddNode (MultiplexorNode parentIndicator edgeSelector 2) ;;
    ret (elementOf (output muxNode) 0, elementOf (output muxNode) 1).

(** Lines 87-125: the body of the top-down loop. *)
Definition visitTopDown (interiorNodes : list InteriorNode)
    (interiorNodeSplitIndicators : list PortElements)
    (vectors : list PortElements * list Z) (nodeIndex : nat)
  : M (list PortElements * list Z) :=
  let '(edgeIndicatorSubModels, incomingEdgeIndices) := vectors in
  parentEdgeIndex <- at_ vec_incomingEdgeIndices incomingEdgeIndices nodeIndex ;;
  let isRoot := (parentEdgeIndex =? -1)%Z in
  node <- lift (interiorNodes !! nodeIndex) ;;
  edgeSelector <-
    at_ vec_interiorNodeSplitIndicators interiorNodeSplitIndicators nodeIndex ;;
  ' (child1Out, child2Out) <-
    childIndicators isRoot parentEdgeIndex edgeIndicatorSubModels edgeSelector ;;
  let firstEdgeIndex := GetFirstEdgeIndex node in
  edgeIndicatorSubModels <-
    assign vec_edgeIndicatorSubModels edgeIndicatorSubModels firstEdgeIndex child1Out ;;
  edgeIndicatorSubModels <-
    assign vec_edgeIndicatorSubModels edgeIndicatorSubModels (firstEdgeIndex + 1)
           child2Out ;;
  let childEdges := GetOutgoingEdges node in
  incomingEdgeIndices <-
    foldM (recordParent firstEdgeIndex) incomingEdgeIndices (imap pair childEdges) ;;
  ret (edgeIndicatorSubModels, incomingEdgeIndices).

(** Lines 131-134: the sub-models of the tree roots. *)
Definition appendTree (interiorNodeSubModels : list PortElements)
    (treeSubModels : PortElements) (rootIndex : nat) : M PortElements :=
  elements <- at_ vec_interiorNodeSubModels interiorNodeSubModels rootIndex ;;
  ret (treeSubModels ++ elements).

(** Lines 44-79: the bottom-up pass.  The loop variable is an [int] that
    starts at [(int)interiorNodes.size() - 1]. *)
Definition bottomUp (newPortElements : PortElements)
    (interiorNodes : list InteriorNode)
  : M (list PortElements * list PortElements) :=
  let interiorNodeSplitIndicators := replicate (length interiorNodes) [] in
  let interiorNodeSubModels := replicate (length interiorNodes) [] in
  let start := (int_of_size_t (length interiorNodes) - 1)%Z in
  if (start <? INT_MIN)%Z then fail
  else
    foldM (visitBottomUp newPortElements interiorNodes)
          (interiorNodeSplitIndicators, interiorNodeSubModels)
          (rev (seq 0 (Z.to_nat (start + 1)))).

(** Lines 82-127: the top-down pass and the indicator vector. *)
Definition topDown (forest : ForestPredictor)
    (interiorNodeSplitIndicators : list PortElements) : M PortElements :=
  let interiorNodes := GetInteriorNodes forest in
  let edgeIndicatorSubModels := replicate (NumEdges forest) [] in
  let incomingEdgeIndices := replicate (length interiorNodes) (-1)%Z in
  ' (edgeIndicatorSubModels, _) <-
    foldM (visitTopDown interiorNodes interiorNodeSplitIndicators)
          (edgeIndicatorSubModels, incomingEdgeIndices)
          (seq 0 (length interiorNodes)) ;;
  ret (concat edgeIndicatorSubModels).

(** Lines 129-147: assembly and the mapping of the three outputs. *)
Definition assemble (this : ForestNodeObject)
    (interiorNodeSubModels : list PortElements)
    (edgeIndicatorVectorElements : PortElements) : M unit :=
  let forest := _forest this in
  treeSubModels <- foldM (appendTree interiorNodeSubModels) [] (GetRootIndices forest) ;;
  let individualTreeOutputs := treeSubModels in
  biasNode <- AddNode (ConstantNode [GetBias forest]) ;;
  let treeSubModels := treeSubModels ++ output biasNode in
  sumNode <- AddNode (SumNode treeSubModels) ;;
  MapNodeOutput (_output this) (output sumNode) ;;
  MapNodeOutput (_treeOutputs this) individualTreeOutputs ;;
  MapNodeOutput (_edgeIndicatorVector this) edgeIndicatorVectorElements.

Definition RefineNode (this : ForestNodeObject) : M unit :=
  newPortElements <- TransformPortElements (_input this) ;;
  let interiorNodes := GetInteriorNodes (_forest this) in
  ' (interiorNodeSplitIndicators, interiorNodeSubModels) <-
    bottomUp newPortElements interiorNodes ;;
  edgeIndicatorVectorElements <- topDown (_forest this) interiorNodeSplitIndicators ;;
  assemble this interiorNodeSubModels edgeIndicatorVectorElements.

(** *** Structural invariants of a forest (sections 3 and 4.2) *)

(** The edge slots of a forest: interior node, position, edge. *)
Definition slots (forest : ForestPredictor) : list (nat * nat * Edge) :=
  concat (imap (fun i node => imap (fun q e => (i, q, e)) (GetOutgoingEdges node))
               (GetInteriorNodes forest)).

Definition targets (n : nat) (slot : nat * nat * Edge) : bool :=
  IsTargetInterior slot.2 && bool_decide (GetTargetNodeIndex slot.2 = n).

(** An interior node has exactly two edges, and its interior children come
    after it. *)
Definition wf_nodeb (size i : nat) (node : InteriorNode) : bool :=
  bool_decide (length (GetOutgoingEdges node) = 2)
  && forallb (fun e => implb (IsTargetInterior e)
                         (bool_decide (i < GetTargetNodeIndex e < size)))
             (GetOutgoingEdges node).

(** Two interior nodes, each with its position, share no edge index: the two
    consecutive indices that start at the first edge index of the one lie
    apart from those of the other. *)
Definition apartb (a b : nat * InteriorNode) : bool :=
  (a.1 =? b.1)
  || (GetFirstEdgeIndex a.2 + 1 <? GetFirstEdgeIndex b.2)
  || (GetFirstEdgeIndex b.2 + 1 <? GetFirstEdgeIndex a.2).

(** A forest of binary trees stored parents first: every interior node owns
    the two consecutive edge indices that start at its first edge index,
    these indices lie below [NumEdges()], which is the number of edges, and
    differ from node to node, whatever the order in which the nodes received
    them; the roots are the interior nodes that no edge targets, every other
    interior node is the target of exactly one edge, and the edge indices fit
    an [int]. *)
Definition wf_forestb (forest : ForestPredictor) : bool :=
  let nodes := GetInteriorNodes forest in
  let size := length nodes in
  bool_decide (2 * Z.of_nat size < 2 ^ 31)%Z
  && bool_decide (NumEdges forest = 2 * size)
  && forallb id (imap (wf_nodeb size) nodes)
  && forallb (fun node => GetFirstEdgeIndex node + 1 <? NumEdges forest) nodes
  && forallb (fun a => forallb (apartb a) (imap pair nodes)) (imap pair nodes)
  && forallb (fun r => bool_decide (r < size)) (GetRootIndices forest)
  && forallb (fun n => xorb (bool_decide (n ∈ GetRootIndices forest))
                            (existsb (targets n) (slots forest)))
             (seq 0 size)
  && forallb (fun s1 =>
       forallb (fun s2 =>
         implb (IsTargetInterior s1.2 && targets (GetTargetNodeIndex s1.2) s2)
               (bool_decide (s1.1 = s2.1)))
         (slots forest))
       (slots forest).

Definition wf_forest (forest : ForestPredictor) : Prop :=
  wf_forestb forest = true.

(** Every read of a vector of sub-models is preceded by a write of the same
    entry ([incomingEdgeIndices] is constructed filled with -1). *)
Definition written (v : Vector) (index : nat) (event : Access) : bool :=
  match event with
  | Write v' index' => bool_decide (v' = v) && bool_decide (index' = index)
  | Read _ _ => false
  end.

Definition initialized (before : list Access) (event : Access) : bool :=
  match event with
  | Read vec_incomingEdgeIndices _ => true
  | Read v index => existsb (written v index) before
  | Write _ _ => true
  end.

Fixpoint reads_initialized (before events : list Access) : bool :=
  match events with
  | [] => true
  | event :: events' =>
      initialized before event && reads_initialized (before ++ [event]) events'
  end.

(** *** The shape of a model *)

Inductive NodeKind : Type :=
| KConstant
| KBinaryOperation
| KUnaryOperation
| KElementSelector
| KMultiplexor
| KSum
| KSplitRule
| KEdgePredictor
| KForest.

Definition kindOf (n : Node) : NodeKind :=
  match n with
  | ConstantNode _ => KConstant
  | BinaryOperationNode _ _ _ => KBinaryOperation
  | UnaryOperationNode _ _ => KUnaryOperation
  | ElementSelectorNode _ _ => KElementSelector
  | MultiplexorNode _ _ _ => KMultiplexor
  | SumNode _ => KSum
  | SplitRuleNode _ _ => KSplitRule
  | EdgePredictorNode _ _ => KEdgePredictor
  | ForestNode _ _ => KForest
  end.

(** Lines 52-78: what one turn of the bottom-up loop adds for an interior
    node: per edge its predictor, followed by an addition when the target is
    interior; then the split rule and the selector. *)
Definition bottomUpKinds (node : InteriorNode) : list NodeKind :=
  flat_map (fun edge => if IsTargetInterior edge
                        then [KEdgePredictor; KBinaryOperation]
                        else [KEdgePredictor])
           (GetOutgoingEdges node)
  ++ [KSplitRule; KElementSelector].

(** Lines 98-109: what one turn of the top-down loop adds: a negation for a
    root, a multiplexor otherwise. *)
Definition topDownKind (forest : ForestPredictor) (nodeIndex : nat) : NodeKind :=
  if bool_decide (nodeIndex ∈ GetRootIndices forest)
  then KUnaryOperation else KMultiplexor.

Definition refinedKinds (forest : ForestPredictor) : list NodeKind :=
  flat_map bottomUpKinds (rev (GetInteriorNodes forest))
  ++ (topDownKind forest <$> seq 0 (length (GetInteriorNodes forest)))
  ++ [KConstant; KSum].

(** The number of edges whose target is an interior node. *)
Definition interiorEdges (forest : ForestPredictor) : nat :=
  length (filter (fun edge => IsTargetInterior edge = true)
                 (flat_map GetOutgoingEdges (GetInteriorNodes forest))).

(** The elements a node reads. *)
Definition inputsOf (n : Node) : PortElements :=
  match n with
  | ConstantNode _ => []
  | BinaryOperationNode input1 input2 _ => input1 ++ input2
  | UnaryOperationNode input _ => input
  | ElementSelectorNode elements selector => elements ++ selector
  | MultiplexorNode elements selector _ => elements ++ selector
  | SumNode input => input
  | SplitRuleNode input _ => input
  | EdgePredictorNode input _ => input
  | ForestNode input _ => input
  end.

End ForestPredictor.

(** The abbreviations of the section, for the rest of the development. *)
Abbreviation PortElements := (list PortElement).
Abbreviation Env := (list (list (list Value))).
Abbreviation OutputPort := (nat * nat)%type.

End nodes.

(* ===================================================================== *)
(** * A concrete instance: SimpleForestPredictor over exact numbers *)
(* ===================================================================== *)

(** [ForestPredictor<SingleElementThresholdPredictor, ConstantPredictor>],
    with values counted in halves so that they are integers: the split rule
    compares one element of the input to a threshold, the edge predictor is a
    constant. *)
Module Simple.

Record SingleElementThresholdPredictor : Type := {
  index : nat;
  threshold : Z
}.

Definition thresholdPredict (rule : SingleElementThresholdPredictor)
    (input : list Z) : bool :=
  match input !! index rule with
  | Some x => (threshold rule <? x)%Z
  | None => false
  end.

#[global] Instance types : nodes.ForestTypes := {|
  nodes.double := Z;
  nodes.dzero := 0%Z;
  nodes.dadd := Z.add;
  nodes.SplitRuleType := SingleElementThresholdPredictor;
  nodes.EdgePredictorType := Z;
  nodes.splitPredict := thresholdPredict;
  nodes.edgePredict := fun c _ => c
|}.

Import nodes.

Definition leaf (c : Z) : Edge :=
  {| GetPredictor := c; IsTargetInterior := false; GetTargetNodeIndex := 0 |}.

Definition interior (c : Z) (target : nat) : Edge :=
  {| GetPredictor := c; IsTargetInterior := true; GetTargetNodeIndex := target |}.

Definition split (i : nat) (first : nat) (e0 e1 : Edge) : InteriorNode :=
  {| GetSplitRule := {| index := i; threshold := 0 |};
     GetOutgoingEdges := [e0; e1];
     GetFirstEdgeIndex := first |}.

(** The example of the specification: one tree, one interior node with the
    rule [input[0] > 0], edge 0 constant -1.0 to a leaf, edge 1 constant +2.0
    to a leaf, bias 0.5 (in halves: -2, 4 and 1). *)
Definition stump : ForestPredictor :=
  {| GetInteriorNodes := [split 0 0 (leaf (-2)) (leaf 4)];
     GetRootIndices := [0];
     GetBias := 1%Z;
     NumEdges := 2 |}.

(** Two trees: node 0 is a root with the interior child 2 on its edge 1,
    node 1 is a root with the interior child 3 on its edge 0. *)
Definition grove_root : InteriorNode := split 0 0 (leaf 1) (interior 2 2).
Definition grove_child : InteriorNode := split 0 4 (leaf 5) (leaf 6).

Definition grove : ForestPredictor :=
  {| GetInteriorNodes :=
       [grove_root;
        split 1 2 (interior 3 3) (leaf 4);
        grove_child;
        split 2 6 (leaf 7) (leaf 8)];
     GetRootIndices := [0; 1];
     GetBias := 100%Z;
     NumEdges := 8 |}.

(** The same two trees with their edges numbered in another order: the
    edges of node 1 come first, then those of node 3, of node 0 and of
    node 2. *)
Definition shuffled : ForestPredictor :=
  {| GetInteriorNodes :=
       [split 0 4 (leaf 1) (interior 2 2);
        split 1 0 (interior 3 3) (leaf 4);
        split 0 6 (leaf 5) (leaf 6);
        split 2 2 (leaf 7) (leaf 8)];
     GetRootIndices := [0; 1];
     GetBias := 100%Z;
     NumEdges := 8 |}.


(** A transformer in which the input of the forest node (port 0 of old node
    0) has been mapped to a constant node holding the input vector. *)
Definition start (input : list Z) : State :=
  {| transformer :=
       {| model := [ConstantNode input];
          elementsMap := [((0, 0), el 0 0 <$> seq 0 (length input))] |};
     accesses := [] |}.

Definition forestNode (forest : ForestPredictor) (size : nat) : ForestNodeObject :=
  {| thisNode := 1;
     _input := el 0 0 <$> seq 0 size;
     _forest := forest |}.

(** The forest node over [grove], on the input [2; 0; 5]: its input elements
    once transformed, and the values of the model it starts from. *)
Definition grove_input : list Z := [2; 0; 5]%Z.
Definition grove_node : ForestNodeObject := forestNode grove 3.
Definition grove_state : State := start grove_input.
Definition grove_elements : PortElements := el 0 0 <$> seq 0 3.
Definition grove_env : Env := [[[VDouble 2%Z; VDouble 0%Z; VDouble 5%Z]]].

(** The forest node over [shuffled], on the same input. *)
Definition shuffled_node : ForestNodeObject := forestNode shuffled 3.

(** The forest node over [stump], on the input [1.0] (two halves). *)
Definition stump_input : list Z := [2]%Z.
Definition stump_node : ForestNodeObject := forestNode stump 1.
Definition stump_state : State := start stump_input.

(** What the elements registered for the three outputs evaluate to after
    RefineNode. *)
Definition refinedOutputs (this : ForestNodeObject) (st : State)
  : option (list (list Value)) :=
  match RefineNode this st with
  | Some (_, st') =>
      match Evaluate (model (transformer st')) with
      | Some env =>
          mapM (fun port =>
                  match GetCorrespondingOutputs (transformer st') port with
                  | Some elements => mapM (readElement env) elements
                  | None => None
                  end)
               [_output this; _treeOutputs this; _edgeIndicatorVector this]
      | None => None
      end
  | None => None
  end.


(** A forest that is not well formed: edge 0 of its only interior node
    claims the interior node 5, which does not exist. *)
Definition dangling_root : InteriorNode := split 0 0 (interior 1 5) (leaf 2).

Definition dangling : ForestPredictor :=
  {| GetInteriorNodes := [dangling_root];
     GetRootIndices := [0];
     GetBias := 0%Z;
     NumEdges := 2 |}.

Definition dangling_node : ForestNodeObject := forestNode dangling 1.

(** A forest that is not stored parents first: edge 0 of its only interior
    node leads back to that node. *)
Definition tangled_root : InteriorNode := split 0 0 (interior 1 0) (leaf 2).

Definition tangled : ForestPredictor :=
  {| GetInteriorNodes := [tangled_root];
     GetRootIndices := [0];
     GetBias := 0%Z;
     NumEdges := 2 |}.

Definition tangled_node : ForestNodeObject := forestNode tangled 1.

Definition tangled_result : State :=
  match RefineNode tangled_node stump_state with
  | Some (_, st') => st'
  | None => stump_state
  end.

End Simple.

(** ** The arithmetic of the C++ [double]

    The instance of the template with binary64 floating-point numbers for
    [double], single-element threshold rules and constant edge predictors,
    and a chain of three interior nodes whose walk adds 0.1, 0.2 and 0.3. *)

Module Binary64.

Record SingleElementThresholdPredictor : Type := {
  index : nat;
  threshold : float
}.

Definition thresholdPredict (rule : SingleElementThresholdPredictor)
    (input : list float) : bool :=
  match input !! index rule with
  | Some x => PrimFloat.ltb (threshold rule) x
  | None => false
  end.

Definition types : nodes.ForestTypes := {|
  nodes.double := float;
  nodes.dzero := 0%float;
  nodes.dadd := PrimFloat.add;
  nodes.SplitRuleType := SingleElementThresholdPredictor;
  nodes.EdgePredictorType := float;
  nodes.splitPredict := thresholdPredict;
  nodes.edgePredict := fun c _ => c
|}.

(** The binary64 numbers nearest to 0.1, 0.2 and 0.3. *)
Definition tenth : float := 0x1.999999999999ap-4%float.
Definition fifth : float := 0x1.999999999999ap-3%float.
Definition three_tenths : float := 0x1.3333333333333p-2%float.

(** The two binary64 numbers nearest to 0.6: 0.59999999999999998 and
    0.60000000000000009. *)
Definition six_tenths_below : float := 0x1.3333333333333p-1%float.
Definition six_tenths_above : float := 0x1.3333333333334p-1%float.

Section Chain.
#[local] Existing Instance types | 0.
Import nodes.

Definition leaf (c : float) : Edge :=
  {| GetPredictor := c; IsTargetInterior := false; GetTargetNodeIndex := 0 |}.

Definition interior (c : float) (target : nat) : Edge :=
  {| GetPredictor := c; IsTargetInterior := true; GetTargetNodeIndex := target |}.

Definition split (first : nat) (e0 e1 : Edge) : InteriorNode :=
  {| GetSplitRule := {| index := 0; threshold := 0%float |};
     GetOutgoingEdges := [e0; e1];
     GetFirstEdgeIndex := first |}.

(** One tree: every node has the rule [input[0] > 0], a leaf on its edge 0
    and the next node, or at last a leaf, on its edge 1; bias 0. *)
Definition chain : ForestPredictor :=
  {| GetInteriorNodes :=
       [split 0 (leaf 0) (interior tenth 1);
        split 2 (leaf 0) (interior fifth 2);
        split 4 (leaf 0) (leaf three_tenths)];
     GetRootIndices := [0];
     GetBias := 0%float;
     NumEdges := 6 |}.

Definition chain_input : list float := [1%float].

Definition chain_elements : PortElements := [el 0 0 0].

(** A transformer in which the input of the forest node has been mapped to
    a constant node holding the input vector. *)
Definition chain_state : State :=
  {| transformer :=
       {| model := [ConstantNode chain_input];
          elementsMap := [((0, 0), chain_elements)] |};
     accesses := [] |}.

Definition chain_env : Env := [[[VDouble 1%float]]].

Definition chain_node : ForestNodeObject :=
  {| thisNode := 1; _input := chain_elements; _forest := chain |}.

(** The state RefineNode returns, and the values of the refined model. *)
Definition chain_refined : State :=
  match RefineNode chain_node chain_state with
  | Some (_, st') => st'
  | None => chain_state
  end.

Definition chain_refined_env : Env :=
  default [] (Evaluate (model (transformer chain_refined))).

End Chain.

End Binary64.

(** * Facts about the compressed integer list *)

Module CompressedIntegerListFacts.
Import CompressedIntegerList.

(** ** The base-128 format round-trips *)

Lemma byte_of_N_to_N (n : N) : (n < 256)%N -> Byte.to_N (Varint.byte_of_N n) = n.
Proof.
  intros Hn. unfold Varint.byte_of_N.
  destruct (Byte.of_N n) as [b|] eqn:Hb.
  - by apply Byte.to_of_N.
  - apply Byte.of_N_None_iff in Hb. lia.
Qed.

Lemma Varint_decode_encode (fuel : nat) (n : N) (rest : list uint8) :
  (n < 128 ^ N.of_nat (S fuel))%N ->
  Varint.decode (Varint.encode fuel n ++ rest)
  = (n, length (Varint.encode fuel n)).
Proof.
  revert n. induction fuel as [|fuel IH]; intros n Hn.
  - change (128 ^ N.of_nat 1)%N with 128%N in Hn.
    cbn [Varint.encode app Varint.decode].
    rewrite N.mod_small by done.
    rewrite byte_of_N_to_N by lia.
    apply N.ltb_lt in Hn. by rewrite Hn.
  - cbn [Varint.encode].
    destruct (n <? 128)%N eqn:Hlt.
    + cbn [app Varint.decode]. apply N.ltb_lt in Hlt.
      rewrite byte_of_N_to_N by lia.
      apply N.ltb_lt in Hlt. by rewrite Hlt.
    + apply N.ltb_ge in Hlt.
      cbn [app Varint.decode].
      assert (Hm : (n mod 128 < 128)%N) by (apply N.mod_lt; lia).
      rewrite byte_of_N_to_N by lia.
      destruct (128 + n mod 128 <? 128)%N eqn:Hge;
        [apply N.ltb_lt in Hge; revert Hge; generalize (n `mod` 128)%N; lia|].
      rewrite IH.
      * cbn [length]. f_equal. pose proof (N.Div0.div_mod n 128) as Hdm.
        revert Hdm Hm. generalize (n `mod` 128)%N (n `div` 128)%N. lia.
      * apply N.Div0.div_lt_upper_bound.
        rewrite Nat2N.inj_succ, N.pow_succ_r in Hn by lia. done.
Qed.

Lemma Varint_encode_nonempty (fuel : nat) (n : N) :
  0 < length (Varint.encode fuel n).
Proof. destruct fuel; cbn; [lia|]. destruct (n <? 128)%N; cbn; lia. Qed.

Lemma Varint_decode_encode64 (d : uint64) (rest : list uint8) :
  (d < UINT64_MODULUS)%N ->
  Varint.decode (Varint.encode64 d ++ rest) = (d, length (Varint.encode64 d)).
Proof.
  intros Hd. apply Varint_decode_encode.
  eapply N.lt_trans; [exact Hd|]. by vm_compute.
Qed.

#[global] Instance Varint_laws : DeltaCodecLaws := {|
  decode_encode_delta := Varint_decode_encode64;
  encode_delta_nonempty := fun d _ => Varint_encode_nonempty 9 d
|}.

Section Facts.
Context `{DeltaCodecLaws}.

Lemma wrap64_small (n : N) : (n < UINT64_MODULUS)%N -> wrap64 n = n.
Proof. intros Hn. unfold wrap64. by apply N.mod_small. Qed.

Lemma PushBack_accepts (v : uint64) (l : t) :
  (_last l <= v)%N ->
  PushBack v l
  = (None, {| _mem := _mem l ++ encode_delta (v - _last l)%N;
              _last := v; _size := wrap64 (_size l + 1)%N |}).
Proof.
  intros Hv. unfold PushBack.
  destruct (v <? _last l)%N eqn:Hlt; [apply N.ltb_lt in Hlt; lia|done].
Qed.

Lemma last_cons_default {A} (values : list A) (v d : A) :
  last (v :: values) d = last values v.
Proof.
  revert v d. induction values as [|a values IH]; intros v d; [done|].
  change (last (v :: a :: values) d) with (last (a :: values) d).
  by rewrite !IH.
Qed.

Lemma PushBackAll_spec (values : list uint64) (l : t) :
  nondecreasing_from (_last l) values ->
  (_size l + N.of_nat (length values) < UINT64_MODULUS)%N ->
  PushBackAll values l
  = inr {| _mem := _mem l ++ encoded (_last l) values;
           _last := last values (_last l);
           _size := (_size l + N.of_nat (length values))%N |}.
Proof.
  revert l. induction values as [|v values IH]; intros l Hnd Hsize.
  - cbn. rewrite app_nil_r, N.add_0_r. by destruct l.
  - destruct Hnd as [Hv Hnd]. cbn [PushBackAll].
    rewrite PushBack_accepts by done.
    cbn [length] in Hsize.
    rewrite IH; cbn [_last _size _mem].
    + f_equal. f_equal.
      * unfold encoded. cbn [deltas fmap list_fmap concat]. by rewrite <- app_assoc.
      * symmetry. apply last_cons_default.
      * rewrite wrap64_small by lia. cbn [length]. lia.
    + done.
    + rewrite wrap64_small by lia. lia.
Qed.

Lemma encoded_length (prev : N) (values : list N) :
  nondecreasing_from prev values -> in_range values ->
  length values <= length (encoded prev values).
Proof.
  revert prev. induction values as [|v values IH]; intros prev Hnd Hr; [cbn; lia|].
  destruct Hnd as [Hv Hnd]. pose proof (Forall_inv Hr) as Hr1; apply Forall_inv_tail in Hr.
  unfold encoded. cbn [deltas fmap list_fmap concat].
  rewrite length_app. cbn [length].
  specialize (IH v Hnd Hr). unfold encoded in IH.
  cbn beta in Hr1.
  assert (Hd : (v - prev < UINT64_MODULUS)%N) by lia.
  pose proof (encode_delta_nonempty (v - prev)%N Hd). lia.
Qed.

Lemma iterate_invalid (fuel : nat) (mem : list uint8) (it : Iterator) :
  IsValid it = false -> iterate fuel mem it = Some (inr []).
Proof. intros Hinv. destruct fuel; cbn [iterate]; by rewrite Hinv. Qed.

(** The loop, started on an entry whose delta [d] has been decoded into the
    running value [v], yields [v] and then the values that follow. *)
Lemma iterate_spec (values : list N) :
  forall (pre : list uint8) (v d : N) (fuel : nat),
    nondecreasing_from v values -> in_range values ->
    (v < UINT64_MODULUS)%N -> (d < UINT64_MODULUS)%N ->
    length values < fuel ->
    let mem := pre ++ encode_delta d ++ encoded v values in
    iterate fuel mem
      {| _iter := length pre; _end := length mem; _value := v;
         _iter_increment := length (encode_delta d) |}
    = Some (inr (v :: values)).
Proof.
  induction values as [|v' values IH]; intros pre v d fuel Hnd Hr Hv Hd Hfuel mem.
  - destruct fuel as [|fuel]; [cbn in Hfuel; lia|].
    pose proof (encode_delta_nonempty d Hd) as Hne.
    assert (Hlen : length mem = length pre + length (encode_delta d)).
    { subst mem. unfold encoded. cbn. rewrite !length_app. cbn. lia. }
    cbn [iterate]. unfold Get, Next, IsValid. cbn [_iter _end _value _iter_increment].
    rewrite Hlen.
    destruct (Nat.ltb_spec (length pre) (length pre + length (encode_delta d))); [|lia].
    destruct (Nat.ltb_spec (length pre + length (encode_delta d))
                           (length pre + length (encode_delta d))); [lia|].
    rewrite iterate_invalid; [done|].
    unfold IsValid. cbn [_iter _end]. apply Nat.ltb_irrefl.
  - destruct fuel as [|fuel]; [cbn in Hfuel; lia|].
    destruct Hnd as [Hle Hnd]. pose proof (Forall_inv Hr) as Hv'.
    apply Forall_inv_tail in Hr. cbn beta in Hv'.
    pose proof (encode_delta_nonempty d Hd) as Hne.
    assert (Hd' : (v' - v < UINT64_MODULUS)%N) by lia.
    pose proof (encode_delta_nonempty _ Hd') as Hne'.
    assert (Hmem : mem = (pre ++ encode_delta d) ++ encode_delta (v' - v)%N
                           ++ encoded v' values).
    { subst mem. unfold encoded. cbn [deltas fmap list_fmap concat].
      by rewrite <- app_assoc. }
    assert (Hlen : length pre + length (encode_delta d) < length mem).
    { rewrite Hmem, !length_app. lia. }
    cbn [iterate]. unfold Get, Next, IsValid. cbn [_iter _end _value _iter_increment].
    destruct (Nat.ltb_spec (length pre) (length mem)); [|lia].
    destruct (Nat.ltb_spec (length pre + length (encode_delta d)) (length mem)); [|lia].
    unfold load. cbn [_end].
    rewrite firstn_all.
    replace (drop (length pre + length (encode_delta d)) mem)
      with (encode_delta (v' - v)%N ++ encoded v' values).
    2:{ rewrite Hmem. rewrite <- length_app. by rewrite drop_app_length. }
    rewrite decode_encode_delta by done.
    replace (wrap64 (v + (v' - v))%N) with v' by (rewrite wrap64_small; lia).
    rewrite <- length_app.
    pose proof (IH (pre ++ encode_delta d) v' (v' - v)%N fuel Hnd Hr Hv' Hd') as IH'.
    cbn zeta in IH'. rewrite <- Hmem in IH'.
    rewrite IH' by (cbn in Hfuel; lia). done.
Qed.

Lemma toList_PushBackAll (values : list uint64) :
  nondecreasing values -> in_range values ->
  toList {| _mem := encoded 0 values;
            _last := last values 0%N;
            _size := N.of_nat (length values) |}
  = Some (inr values).
Proof.
  intros Hnd Hr. unfold toList, GetIterator. cbn [_mem _end].
  destruct values as [|v values].
  - done.
  - destruct Hnd as [_ Hnd]. pose proof Hr as Hr'.
    pose proof (Forall_inv Hr') as Hv; apply Forall_inv_tail in Hr'; cbn beta in Hv.
    pose proof (encode_delta_nonempty v Hv) as Hne.
    assert (Henc : encoded 0 (v :: values) = [] ++ encode_delta v ++ encoded v values).
    { unfold encoded. cbn [deltas fmap list_fmap concat app]. by rewrite N.sub_0_r. }
    assert (Hpos : 0 < length (encoded 0 (v :: values))).
    { rewrite Henc. cbn [app]. rewrite length_app. lia. }
    destruct (Nat.ltb_spec 0 (length (encoded 0 (v :: values)))); [|lia].
    unfold load. cbn [_end]. rewrite firstn_all, drop_0.
    assert (Hdec : decode_delta (encoded 0 (v :: values))
                   = (v, length (encode_delta v))).
    { rewrite Henc. cbn [app]. by apply decode_encode_delta. }
    rewrite Hdec.
    pose proof (iterate_spec values [] v v (length (encoded 0 (v :: values)))) as Hit.
    cbn zeta in Hit. rewrite <- Henc in Hit. cbn [length] in Hit.
    apply Hit; try done.
    assert (Hl : nondecreasing_from 0 (v :: values)) by (split; [lia|done]).
    pose proof (encoded_length 0 (v :: values) Hl Hr) as Hlen. cbn [length] in Hlen. lia.
Qed.

(** C7: pushing a non-decreasing sequence of unsigned 64-bit values into a
    fresh list succeeds, and then iterating with GetIterator/Get/Next yields
    exactly the pushed values in order, [Size()] is their number and [Max()]
    is the last of them (0 for the empty sequence). *)
Theorem PushBack_then_iterate (values : list uint64) :
  nondecreasing values -> in_range values ->
  (N.of_nat (length values) < UINT64_MODULUS)%N ->
  exists l : t,
    PushBackAll values CompressedIntegerList = inr l
    /\ toList l = Some (inr values)
    /\ Size l = N.of_nat (length values)
    /\ Max l = last values 0%N.
Proof.
  intros Hnd Hr Hlen.
  pose proof (PushBackAll_spec values CompressedIntegerList Hnd) as Hpush.
  cbn [_size _last _mem CompressedIntegerList app] in Hpush.
  rewrite N.add_0_l in Hpush. specialize (Hpush Hlen).
  eexists. split; [exact Hpush|].
  split; [by apply toList_PushBackAll|]. done.
Qed.

(** C8: a value strictly below the last pushed value, which is what [Max()]
    returns, is refused with the invalid-argument condition, and the list is
    left as it was: same [Size()], same [Max()], same iteration. *)
Theorem PushBack_smaller_rejected (l : t) (v : uint64) :
  (v < Max l)%N ->
  (PushBack v l).1 = Some invalid_argument
  /\ Size (PushBack v l).2 = Size l
  /\ Max (PushBack v l).2 = Max l
  /\ toList (PushBack v l).2 = toList l.
Proof.
  unfold Max. intros Hv. unfold PushBack.
  apply N.ltb_lt in Hv. by rewrite Hv.
Qed.

(** *** Lists reached by pushes *)

Lemma PushBackAll_nondecreasing (values : list uint64) :
  forall l l' : t,
    PushBackAll values l = inr l' -> nondecreasing_from (_last l) values.
Proof.
  induction values as [|v values IH]; intros l l' Hall; [done|].
  cbn [PushBackAll] in Hall. unfold PushBack in Hall.
  destruct (v <? _last l)%N eqn:Hlt; [done|].
  apply N.ltb_ge in Hlt. split; [done|].
  by apply (IH _ l' Hall).
Qed.

Lemma nondecreasing_from_app (prev : N) (values : list N) (v : N) :
  nondecreasing_from prev values -> (last values prev <= v)%N ->
  nondecreasing_from prev (values ++ [v]).
Proof.
  revert prev. induction values as [|a values IH]; intros prev Hnd Hv.
  - cbn in *. done.
  - destruct Hnd as [Hle Hnd]. rewrite last_cons_default in Hv.
    split; [done|]. by apply IH.
Qed.

Lemma nondecreasing_from_bound (prev : N) (values : list N) :
  nondecreasing_from prev values ->
  (prev <= last values prev)%N
  /\ Forall (fun v => (v <= last values prev)%N) values.
Proof.
  revert prev. induction values as [|a values IH]; intros prev Hnd.
  - split; [cbn; lia|constructor].
  - destruct Hnd as [Hle Hnd]. destruct (IH a Hnd) as [Ha Hall].
    rewrite last_cons_default. split; [lia|]. by constructor.
Qed.

Lemma encoded_snoc (prev : N) (values : list N) (v : N) :
  encoded prev (values ++ [v])
  = encoded prev values ++ encode_delta (v - last values prev)%N.
Proof.
  unfold encoded. revert prev. induction values as [|a values IH]; intros prev.
  - cbn. by rewrite app_nil_r.
  - rewrite last_cons_default. cbn [app deltas fmap list_fmap concat].
    by rewrite IH, app_assoc.
Qed.

Lemma last_snoc_default {A} (values : list A) (v d : A) : last (values ++ [v]) d = v.
Proof. apply last_last. Qed.

(** A list reached by pushing [values] into a new list holds them. *)
Lemma reached (values : list uint64) (l : t) :
  (N.of_nat (length values) < UINT64_MODULUS)%N ->
  PushBackAll values CompressedIntegerList = inr l ->
  nondecreasing values
  /\ l = {| _mem := encoded 0 values;
            _last := last values 0%N;
            _size := N.of_nat (length values) |}.
Proof.
  intros Hlen Hall.
  pose proof (PushBackAll_nondecreasing _ _ _ Hall) as Hnd. split; [done|].
  rewrite PushBackAll_spec in Hall; [|done|cbn; lia]. by injection Hall as <-.
Qed.

(** X11: a list reached by pushes holds exactly the values pushed: the
    iteration gives them back in order, and [Max()] bounds every one of
    them. *)
Theorem Max_bounds_every_entry (values : list uint64) (l : t) :
  in_range values ->
  (N.of_nat (length values) < UINT64_MODULUS)%N ->
  PushBackAll values CompressedIntegerList = inr l ->
  toList l = Some (inr values)
  /\ Forall (fun v => (v <= Max l)%N) values.
Proof.
  intros Hr Hlen Hall. destruct (reached values l Hlen Hall) as [Hnd ->].
  split; [by apply toList_PushBackAll|].
  apply (nondecreasing_from_bound 0 values Hnd).
Qed.

(** X12: on a list reached by pushes, [PushBack] of a value that is not
    below [Max()] raises nothing and appends it: the iteration gives the
    values pushed before followed by the new one, [Size()] grows by one and
    [Max()] becomes the new value. *)
Theorem PushBack_appends (values : list uint64) (l : t) (v : uint64) :
  in_range values ->
  (N.of_nat (length values) + 1 < UINT64_MODULUS)%N ->
  PushBackAll values CompressedIntegerList = inr l ->
  (v < UINT64_MODULUS)%N ->
  (Max l <= v)%N ->
  (PushBack v l).1 = None
  /\ toList (PushBack v l).2 = Some (inr (values ++ [v]))
  /\ Size (PushBack v l).2 = (Size l + 1)%N
  /\ Max (PushBack v l).2 = v.
Proof.
  intros Hr Hlen Hall Hv Hmax.
  destruct (reached values l ltac:(lia) Hall) as [Hnd ->].
  unfold Max in Hmax. cbn [_last] in Hmax.
  rewrite PushBack_accepts by done. cbn [fst snd _mem _last _size].
  unfold Size, Max. cbn [_mem _last _size].
  rewrite wrap64_small by done.
  split; [done|]. split; [|done].
  rewrite <- encoded_snoc.
  replace (N.of_nat (length values) + 1)%N with (N.of_nat (length (values ++ [v])))
    by (rewrite length_app; cbn; lia).
  rewrite <- (last_snoc_default values v 0%N) at 2.
  apply toList_PushBackAll.
  - by apply nondecreasing_from_app.
  - apply Forall_app. split; [done|]. by constructor.
Qed.

End Facts.

Lemma PushBack_then_iterate_witness :
  nondecreasing example_values /\ in_range example_values
  /\ (N.of_nat (length example_values) < UINT64_MODULUS)%N
  /\ exists l : t,
       PushBackAll example_values CompressedIntegerList = inr l
       /\ toList l = Some (inr example_values)
       /\ Size l = N.of_nat (length example_values)
       /\ Max l = last example_values 0%N.
Proof.
  assert (Hnd : nondecreasing example_values) by (cbn; lia).
  assert (Hr : in_range example_values) by (repeat constructor).
  assert (Hlen : (N.of_nat (length example_values) < UINT64_MODULUS)%N) by reflexivity.
  exact (conj Hnd (conj Hr (conj Hlen
           (PushBack_then_iterate (H := Varint_codec) example_values Hnd Hr Hlen)))).
Defined.

Lemma PushBack_smaller_rejected_witness :
  (9 < Max example_list)%N
  /\ (PushBack 9%N example_list).1 = Some invalid_argument
  /\ Size (PushBack 9%N example_list).2 = Size example_list
  /\ Max (PushBack 9%N example_list).2 = Max example_list
  /\ toList (PushBack 9%N example_list).2 = toList example_list.
Proof.
  assert (Hv : (9 < Max example_list)%N) by reflexivity.
  exact (conj Hv (PushBack_smaller_rejected (H := Varint_codec) example_list 9%N Hv)).
Defined.

(** The list of the example holds its five values, none above 10. *)
Lemma Max_bounds_every_entry_witness :
  in_range example_values
  /\ (N.of_nat (length example_values) < UINT64_MODULUS)%N
  /\ PushBackAll example_values CompressedIntegerList = inr example_list
  /\ toList example_list = Some (inr example_values)
  /\ Forall (fun v => (v <= Max example_list)%N) example_values.
Proof.
  assert (Hr : in_range example_values) by (repeat constructor).
  assert (Hlen : (N.of_nat (length example_values) < UINT64_MODULUS)%N) by reflexivity.
  assert (Hall : PushBackAll example_values CompressedIntegerList = inr example_list)
    by reflexivity.
  exact (conj Hr (conj Hlen (conj Hall
           (Max_bounds_every_entry (H := Varint_codec)
              example_values example_list Hr Hlen Hall)))).
Defined.

(** Pushing 12 after the five values of the example. *)
Lemma PushBack_appends_witness :
  in_range example_values
  /\ (N.of_nat (length example_values) + 1 < UINT64_MODULUS)%N
  /\ PushBackAll example_values CompressedIntegerList = inr example_list
  /\ (12 < UINT64_MODULUS)%N
  /\ (Max example_list <= 12)%N
  /\ (PushBack 12%N example_list).1 = None
  /\ toList (PushBack 12%N example_list).2 = Some (inr (example_values ++ [12%N]))
  /\ Size (PushBack 12%N example_list).2 = (Size example_list + 1)%N
  /\ Max (PushBack 12%N example_list).2 = 12%N.
Proof.
  assert (Hr : in_range example_values) by (repeat constructor).
  assert (Hlen : (N.of_nat (length example_values) + 1 < UINT64_MODULUS)%N)
    by reflexivity.
  assert (Hall : PushBackAll example_values CompressedIntegerList = inr example_list)
    by reflexivity.
  assert (Hv : (12 < UINT64_MODULUS)%N) by reflexivity.
  assert (Hmax : (Max example_list <= 12)%N) by (vm_compute; discriminate).
  exact (conj Hr (conj Hlen (conj Hall (conj Hv (conj Hmax
           (PushBack_appends (H := Varint_codec)
              example_values example_list 12%N Hr Hlen Hall Hv Hmax)))))).
Defined.

Example example_list_iterates : toList example_list = Some (inr example_values).
Proof. reflexivity. Qed.

End CompressedIntegerListFacts.

(** * Facts about the forest node *)

Module ForestNodeFacts.
Import nodes.

Section Evaluation.
Context `{ForestTypes}.

(** ** Evaluation is stable under adding nodes *)

Lemma Evaluate_snoc (m : list Node) (n : Node) :
  Evaluate (m ++ [n]) = computeNext (Evaluate m) n.
Proof. unfold Evaluate. by rewrite fold_left_app. Qed.

Lemma Evaluate_length (m : list Node) (env : Env) :
  Evaluate m = Some env -> length env = length m.
Proof.
  revert env. induction m as [|n m IH] using rev_ind; intros env.
  - cbn. by intros [= <-].
  - rewrite Evaluate_snoc. unfold computeNext.
    destruct (Evaluate m) as [e|]; [|done]. cbn.
    destruct (ComputeNode e n) as [outs|]; [|done]. cbn.
    intros [= <-]. rewrite !length_app. cbn. rewrite (IH e); done.
Qed.

Lemma readElement_prefix (env ext : Env) (el : PortElement) (v : Value) :
  readElement env el = Some v -> readElement (env ++ ext) el = Some v.
Proof.
  unfold readElement. intros Hr.
  destruct (env !! referencedNode el) as [ports|] eqn:Hp; [|done].
  by rewrite (lookup_app_l_Some _ _ _ _ Hp).
Qed.

Lemma readDoubles_prefix (env ext : Env) (elements : PortElements) (ds : list double) :
  readDoubles env elements = Some ds -> readDoubles (env ++ ext) elements = Some ds.
Proof.
  unfold readDoubles. rewrite !mapM_Some. intros Hall.
  eapply Forall2_impl; [|exact Hall]. cbn. intros el d Hd.
  destruct (readElement env el) as [v|] eqn:Hv; [|done].
  by rewrite (readElement_prefix _ _ _ _ Hv).
Qed.

Lemma readBools_prefix (env ext : Env) (elements : PortElements) (bs : list bool) :
  readBools env elements = Some bs -> readBools (env ++ ext) elements = Some bs.
Proof.
  unfold readBools. rewrite !mapM_Some. intros Hall.
  eapply Forall2_impl; [|exact Hall]. cbn. intros el d Hd.
  destruct (readElement env el) as [v|] eqn:Hv; [|done].
  by rewrite (readElement_prefix _ _ _ _ Hv).
Qed.

Lemma readDoubles_app (env : Env) (p1 p2 : PortElements) (d1 d2 : list double) :
  readDoubles env p1 = Some d1 -> readDoubles env p2 = Some d2 ->
  readDoubles env (p1 ++ p2) = Some (d1 ++ d2).
Proof.
  unfold readDoubles. rewrite !mapM_Some. apply Forall2_app.
Qed.

Lemma readBools_app (env : Env) (p1 p2 : PortElements) (d1 d2 : list bool) :
  readBools env p1 = Some d1 -> readBools env p2 = Some d2 ->
  readBools env (p1 ++ p2) = Some (d1 ++ d2).
Proof.
  unfold readBools. rewrite !mapM_Some. apply Forall2_app.
Qed.

Lemma readElement_last (env : Env) (outs : list (list Value)) (p k : nat) :
  readElement (env ++ [outs]) (el (length env) p k) = outs !! p ≫= (.!! k).
Proof.
  unfold readElement, el. cbn [referencedNode referencedPort elementIndex].
  rewrite lookup_app_r by lia. rewrite Nat.sub_diag. done.
Qed.

Lemma readDoubles_single (env : Env) (e : PortElement) (d : double) :
  readElement env e = Some (VDouble d) -> readDoubles env [e] = Some [d].
Proof. intros Hr. unfold readDoubles. cbn. by rewrite Hr. Qed.

Lemma readBools_single (env : Env) (e : PortElement) (b : bool) :
  readElement env e = Some (VBool b) -> readBools env [e] = Some [b].
Proof. intros Hr. unfold readBools. cbn. by rewrite Hr. Qed.

Lemma readDoubles_single_inv (env : Env) (e : PortElement) (d : double) :
  readDoubles env [e] = Some [d] -> readElement env e = Some (VDouble d).
Proof.
  unfold readDoubles. cbn.
  destruct (readElement env e) as [[d'|b]|]; cbn; unfold mret, option_ret; congruence.
Qed.

Lemma readBools_single_inv (env : Env) (e : PortElement) (b : bool) :
  readBools env [e] = Some [b] -> readElement env e = Some (VBool b).
Proof.
  unfold readBools. cbn.
  destruct (readElement env e) as [[d'|b']|]; cbn; unfold mret, option_ret; congruence.
Qed.

End Evaluation.
(** ** What a well-formed forest provides *)

Section WellFormed.
Context `{ForestTypes}.
Variable f : ForestPredictor.

(** The edge at position [q] of the interior node [p] is interior and leads
    to [n]. *)
Definition parent (n p q : nat) : Prop :=
  exists node e,
    GetInteriorNodes f !! p = Some node
    /\ GetOutgoingEdges node !! q = Some e
    /\ IsTargetInterior e = true
    /\ GetTargetNodeIndex e = n.

Lemma slots_In (i q : nat) (e : Edge) :
  In (i, q, e) (slots f)
  <-> exists node, GetInteriorNodes f !! i = Some node
                   /\ GetOutgoingEdges node !! q = Some e.
Proof.
  unfold slots. rewrite in_concat. split.
  - intros (l & Hl & Hin).
    apply list_elem_of_In, elem_of_lookup_imap in Hl as (i' & node & -> & Hnode).
    apply list_elem_of_In, elem_of_lookup_imap in Hin as (q' & e' & Heq & He).
    simplify_eq. eauto.
  - intros (node & Hnode & He).
    exists (imap (fun q e => (i, q, e)) (GetOutgoingEdges node)). split.
    + apply list_elem_of_In, elem_of_lookup_imap. by exists i, node.
    + apply list_elem_of_In, elem_of_lookup_imap. by exists q, e.
Qed.

Lemma targets_parent (n i q : nat) (e : Edge) :
  In (i, q, e) (slots f) -> targets n (i, q, e) = true -> parent n i q.
Proof.
  intros Hin Ht. apply slots_In in Hin as (node & Hnode & He).
  unfold targets in Ht. cbn in Ht.
  apply andb_true_iff in Ht as [Hint Htgt].
  apply bool_decide_eq_true in Htgt. exists node, e. done.
Qed.

Lemma parent_targets (n p q : nat) :
  parent n p q -> exists e, In (p, q, e) (slots f) /\ targets n (p, q, e) = true.
Proof.
  intros (node & e & Hnode & He & Hint & Htgt). exists e. split.
  - apply slots_In. eauto.
  - unfold targets. cbn. rewrite Hint. cbn. by apply bool_decide_eq_true.
Qed.

(** The first edge index of the interior node [p]. *)
Definition firstOf (p : nat) : nat :=
  match GetInteriorNodes f !! p with
  | Some node => GetFirstEdgeIndex node
  | None => 0
  end.

Lemma firstOf_lookup (p : nat) (node : InteriorNode) :
  GetInteriorNodes f !! p = Some node -> firstOf p = GetFirstEdgeIndex node.
Proof. intros Hnode. unfold firstOf. by rewrite Hnode. Qed.

Hypothesis Hwf : wf_forest f.

Lemma wf_unfold :
  (2 * Z.of_nat (length (GetInteriorNodes f)) < 2 ^ 31)%Z
  /\ NumEdges f = 2 * length (GetInteriorNodes f)
  /\ (forall i node, GetInteriorNodes f !! i = Some node ->
        wf_nodeb (length (GetInteriorNodes f)) i node = true)
  /\ (forall i node, GetInteriorNodes f !! i = Some node ->
        GetFirstEdgeIndex node + 1 < NumEdges f)
  /\ (forall i j a b, GetInteriorNodes f !! i = Some a ->
        GetInteriorNodes f !! j = Some b -> i <> j ->
        GetFirstEdgeIndex a + 1 < GetFirstEdgeIndex b
        \/ GetFirstEdgeIndex b + 1 < GetFirstEdgeIndex a)
  /\ (forall r, In r (GetRootIndices f) -> r < length (GetInteriorNodes f))
  /\ (forall n, n < length (GetInteriorNodes f) ->
        xorb (bool_decide (n ∈ GetRootIndices f))
             (existsb (targets n) (slots f)) = true)
  /\ (forall s1 s2, In s1 (slots f) -> In s2 (slots f) ->
        IsTargetInterior s1.2 = true ->
        targets (GetTargetNodeIndex s1.2) s2 = true -> s1.1 = s2.1).
Proof.
  unfold wf_forest, wf_forestb in Hwf.
  apply andb_true_iff in Hwf as [Hwf H6].
  apply andb_true_iff in Hwf as [Hwf H5].
  apply andb_true_iff in Hwf as [Hwf H4].
  apply andb_true_iff in Hwf as [Hwf Hapart].
  apply andb_true_iff in Hwf as [Hwf Hbelow].
  apply andb_true_iff in Hwf as [Hwf H3].
  apply andb_true_iff in Hwf as [H1 H2].
  apply bool_decide_eq_true in H1, H2.
  rewrite forallb_forall in H3, H4, H5, H6, Hbelow, Hapart.
  split; [done|]. split; [done|]. split; [|split; [|split; [|split; [|split]]]].
  - intros i node Hnode.
    apply (H3 (wf_nodeb (length (GetInteriorNodes f)) i node)).
    apply list_elem_of_In, elem_of_lookup_imap. by exists i, node.
  - intros i node Hnode. apply Nat.ltb_lt, Hbelow.
    apply list_elem_of_In. by eapply list_elem_of_lookup_2.
  - intros i j a b Ha Hb Hij.
    assert (Hina : In (i, a) (imap pair (GetInteriorNodes f))).
    { apply list_elem_of_In, elem_of_lookup_imap. by exists i, a. }
    assert (Hinb : In (j, b) (imap pair (GetInteriorNodes f))).
    { apply list_elem_of_In, elem_of_lookup_imap. by exists j, b. }
    specialize (Hapart _ Hina). rewrite forallb_forall in Hapart.
    specialize (Hapart _ Hinb). unfold apartb in Hapart. cbn [fst snd] in Hapart.
    apply orb_true_iff in Hapart as [Hapart|Hapart];
      [apply orb_true_iff in Hapart as [Hapart|Hapart]|].
    + apply Nat.eqb_eq in Hapart. done.
    + left. by apply Nat.ltb_lt.
    + right. by apply Nat.ltb_lt.
  - intros r Hr. specialize (H4 r Hr). by apply bool_decide_eq_true in H4.
  - intros n Hn. apply H5. apply in_seq. lia.
  - intros s1 s2 Hs1 Hs2 Hint Ht.
    specialize (H6 s1 Hs1). rewrite forallb_forall in H6. specialize (H6 s2 Hs2).
    rewrite Hint, Ht in H6. cbn in H6. by apply bool_decide_eq_true in H6.
Qed.

Lemma wf_size : (2 * Z.of_nat (length (GetInteriorNodes f)) < 2 ^ 31)%Z.
Proof. apply wf_unfold. Qed.

Lemma wf_NumEdges : NumEdges f = 2 * length (GetInteriorNodes f).
Proof. apply wf_unfold. Qed.

Lemma wf_node (i : nat) (node : InteriorNode) :
  GetInteriorNodes f !! i = Some node ->
  (exists e0 e1, GetOutgoingEdges node = [e0; e1])
  /\ GetFirstEdgeIndex node = firstOf i.
Proof.
  intros Hnode. split; [|unfold firstOf; by rewrite Hnode].
  destruct wf_unfold as (_ & _ & Hn & _). specialize (Hn i node Hnode).
  unfold wf_nodeb in Hn.
  apply andb_true_iff in Hn as [Hlen _].
  apply bool_decide_eq_true in Hlen.
  destruct (GetOutgoingEdges node) as [|e0 [|e1 [|]]]; try done. eauto.
Qed.

(** The edge indices of a node lie below the number of edges. *)
Lemma wf_first_lt (p c : nat) :
  p < length (GetInteriorNodes f) -> c < 2 ->
  firstOf p + c < 2 * length (GetInteriorNodes f).
Proof.
  intros Hp Hc. destruct (lookup_lt_is_Some_2 _ _ Hp) as [node Hnode].
  destruct wf_unfold as (_ & HE & _ & Hbelow & _).
  specialize (Hbelow p node Hnode). unfold firstOf. rewrite Hnode. lia.
Qed.

(** Different edges have different indices. *)
Lemma wf_first_inj (p p' c c' : nat) :
  p < length (GetInteriorNodes f) -> p' < length (GetInteriorNodes f) ->
  c < 2 -> c' < 2 ->
  firstOf p + c = firstOf p' + c' -> p = p' /\ c = c'.
Proof.
  intros Hp Hp' Hc Hc' Heq.
  destruct (decide (p = p')) as [->|Hne]; [split; [done|lia]|].
  destruct (lookup_lt_is_Some_2 _ _ Hp) as [a Ha].
  destruct (lookup_lt_is_Some_2 _ _ Hp') as [b Hb].
  destruct wf_unfold as (_ & _ & _ & _ & Hapart & _).
  specialize (Hapart p p' a b Ha Hb Hne).
  unfold firstOf in Heq. rewrite Ha, Hb in Heq. lia.
Qed.

Lemma wf_first_apart (p p' : nat) :
  p < length (GetInteriorNodes f) -> p' < length (GetInteriorNodes f) ->
  p <> p' ->
  firstOf p + 1 < firstOf p' \/ firstOf p' + 1 < firstOf p.
Proof.
  intros Hp Hp' Hne.
  destruct (lookup_lt_is_Some_2 _ _ Hp) as [a Ha].
  destruct (lookup_lt_is_Some_2 _ _ Hp') as [b Hb].
  destruct wf_unfold as (_ & _ & _ & _ & Hapart & _).
  specialize (Hapart p p' a b Ha Hb Hne).
  unfold firstOf. by rewrite Ha, Hb.
Qed.

(** Every index below the number of edges is the index of an edge. *)
Lemma wf_first_cover (e : nat) :
  e < 2 * length (GetInteriorNodes f) ->
  exists p c, p < length (GetInteriorNodes f) /\ c < 2 /\ e = firstOf p + c.
Proof.
  intros He.
  set (K := length (GetInteriorNodes f)) in *.
  set (l := (fun k => firstOf (k / 2) + k mod 2) <$> seq 0 (2 * K)).
  assert (Hk : forall k, k < 2 * K -> k / 2 < K /\ k mod 2 < 2).
  { intros k Hlt. split.
    - apply Nat.Div0.div_lt_upper_bound. lia.
    - apply Nat.mod_upper_bound. lia. }
  assert (Hl : forall k, k < 2 * K -> l !! k = Some (firstOf (k / 2) + k mod 2)).
  { intros k Hlt. unfold l. by rewrite list_lookup_fmap, lookup_seq_lt. }
  assert (Hlen : length l = 2 * K) by (unfold l; by rewrite length_fmap, length_seq).
  assert (Hnd : NoDup l).
  { apply NoDup_alt. intros i j y Hi Hj.
    assert (Hil : i < 2 * K) by (rewrite <- Hlen; by eapply lookup_lt_Some).
    assert (Hjl : j < 2 * K) by (rewrite <- Hlen; by eapply lookup_lt_Some).
    rewrite Hl in Hi, Hj by done. simplify_eq.
    destruct (Hk i Hil), (Hk j Hjl).
    destruct (wf_first_inj (i / 2) (j / 2) (i mod 2) (j mod 2)) as [Hd Hm];
      [done..|].
    rewrite (Nat.Div0.div_mod i 2), (Nat.Div0.div_mod j 2). by rewrite Hd, Hm. }
  assert (Hsub : l ⊆+ seq 0 (2 * K)).
  { apply NoDup_submseteq; [done|]. intros y Hy.
    apply list_elem_of_lookup in Hy as [k Hy].
    assert (Hkl : k < 2 * K) by (rewrite <- Hlen; by eapply lookup_lt_Some).
    rewrite Hl in Hy by done. apply (inj Some) in Hy. subst.
    apply elem_of_seq. destruct (Hk k Hkl) as [Hd Hm].
    pose proof (wf_first_lt (k / 2) (k mod 2) Hd Hm). unfold K in *. lia. }
  assert (Hperm : l ≡ₚ seq 0 (2 * K)).
  { apply submseteq_length_Permutation; [done|]. rewrite length_seq. lia. }
  assert (Hin : e ∈ l) by (rewrite Hperm; apply elem_of_seq; lia).
  apply list_elem_of_lookup in Hin as [k Hy].
  assert (Hkl : k < 2 * K) by (rewrite <- Hlen; by eapply lookup_lt_Some).
  rewrite Hl in Hy by done. apply (inj Some) in Hy. subst.
  destruct (Hk k Hkl). by exists (k / 2), (k mod 2).
Qed.

(** The first edge indices are the even numbers below the number of
    edges. *)
Lemma wf_first_even (m : nat) :
  m < length (GetInteriorNodes f) ->
  exists p, p < length (GetInteriorNodes f) /\ firstOf p = 2 * m.
Proof.
  induction m as [|m IH]; intros Hm.
  - destruct (wf_first_cover 0) as (p & c & Hp & Hc & Heq); [lia|].
    exists p. split; [done|]. lia.
  - destruct (wf_first_cover (2 * S m)) as (p & c & Hp & Hc & Heq); [lia|].
    destruct c as [|c]; [exists p; split; [done|lia]|].
    assert (c = 0) as -> by lia.
    destruct IH as (p' & Hp' & Hfirst'); [lia|].
    destruct (wf_first_inj p p' 0 1) as [_ ?]; [done|done|lia|lia|lia|done].
Qed.

(** The interior nodes in the ascending order of their first edge indices:
    every node once, the node at position [m] owning the edges [2 * m] and
    [2 * m + 1]. *)
Lemma wf_order :
  exists order : list nat,
    order ≡ₚ seq 0 (length (GetInteriorNodes f))
    /\ forall m p, order !! m = Some p -> firstOf p = 2 * m.
Proof.
  set (K := length (GetInteriorNodes f)).
  assert (Hupto : forall n, n <= K ->
            exists order : list nat,
              length order = n
              /\ forall m p, order !! m = Some p -> p < K /\ firstOf p = 2 * m).
  { induction n as [|n IH]; intros Hn.
    - exists []. split; [done|]. intros m p Hm. done.
    - destruct IH as (order & Hlen & Hall); [lia|].
      destruct (wf_first_even n) as (p & Hp & Hfirst); [unfold K in Hn; lia|].
      exists (order ++ [p]). split; [rewrite length_app; cbn; lia|].
      intros m q Hq. apply lookup_app_Some in Hq as [Hq|[Hge Hq]]; [by apply Hall|].
      apply list_lookup_singleton_Some in Hq as [Hm ->].
      split; [done|]. rewrite Hfirst. f_equal. lia. }
  destruct (Hupto K) as (order & Hlen & Hall); [done|].
  exists order. split; [|intros m p Hm; by apply Hall].
  apply submseteq_length_Permutation; [|rewrite length_seq; lia].
  apply NoDup_submseteq.
  - apply NoDup_alt. intros i j p Hi Hj.
    destruct (Hall i p Hi) as [_ Hfi]. destruct (Hall j p Hj) as [_ Hfj]. lia.
  - intros p Hp. apply list_elem_of_lookup in Hp as [m Hm].
    destruct (Hall m p Hm) as [Hlt _]. apply elem_of_seq. unfold K in Hlt. lia.
Qed.

Lemma wf_edge (i q : nat) (node : InteriorNode) (e : Edge) :
  GetInteriorNodes f !! i = Some node ->
  GetOutgoingEdges node !! q = Some e ->
  IsTargetInterior e = true ->
  i < GetTargetNodeIndex e < length (GetInteriorNodes f).
Proof.
  intros Hnode He Hint.
  destruct wf_unfold as (_ & _ & Hn & _). specialize (Hn i node Hnode).
  unfold wf_nodeb in Hn. apply andb_true_iff in Hn as [_ Hn].
  rewrite forallb_forall in Hn.
  assert (Hin : In e (GetOutgoingEdges node)).
  { apply list_elem_of_In. by eapply list_elem_of_lookup_2. }
  specialize (Hn e Hin). rewrite Hint in Hn. cbn in Hn.
  by apply bool_decide_eq_true in Hn.
Qed.

Lemma wf_parent_lt (n p q : nat) :
  parent n p q -> p < n < length (GetInteriorNodes f) /\ q < 2.
Proof.
  intros (node & e & Hnode & He & Hint & <-). split.
  - by eapply wf_edge.
  - destruct (wf_node p node Hnode) as [(e0 & e1 & Hedges) _].
    rewrite Hedges in He. apply lookup_lt_Some in He. cbn in He. lia.
Qed.

Lemma wf_root_lt (r : nat) :
  r ∈ GetRootIndices f -> r < length (GetInteriorNodes f).
Proof.
  intros Hr. destruct wf_unfold as (_ & _ & _ & _ & _ & Hroot & _).
  apply Hroot. by apply list_elem_of_In.
Qed.

Lemma wf_root_or_child (n : nat) :
  n < length (GetInteriorNodes f) ->
  ((n ∈ GetRootIndices f) /\ forall p q, ~ parent n p q)
  \/ ((n ∉ GetRootIndices f) /\ exists p q, parent n p q).
Proof.
  intros Hn. destruct wf_unfold as (_ & _ & _ & _ & _ & _ & Hx & _).
  specialize (Hx n Hn).
  destruct (existsb (targets n) (slots f)) eqn:Hex.
  - right. rewrite xorb_true_r in Hx. apply negb_true_iff in Hx.
    apply bool_decide_eq_false in Hx. split; [done|].
    apply existsb_exists in Hex as ([[p q] e] & Hin & Ht).
    exists p, q. by eapply targets_parent.
  - left. rewrite xorb_false_r in Hx. apply bool_decide_eq_true in Hx.
    split; [done|]. intros p q Hp.
    apply parent_targets in Hp as (e & Hin & Ht).
    assert (existsb (targets n) (slots f) = true); [|congruence].
    apply existsb_exists. eauto.
Qed.

Lemma wf_parent_unique (n p q p' q' : nat) :
  parent n p q -> parent n p' q' -> p = p' /\ q = q'.
Proof.
  intros Hp Hp'.
  destruct wf_unfold as (_ & _ & _ & _ & _ & _ & _ & Hu).
  pose proof Hp as (node & e & Hnode & He & Hint & Htgt).
  apply parent_targets in Hp' as (e' & Hin' & Ht').
  assert (Hin : In (p, q, e) (slots f)) by (apply slots_In; eauto).
  specialize (Hu (p, q, e) (p', q', e') Hin Hin' Hint).
  cbn in Hu. rewrite Htgt in Hu. specialize (Hu Ht'). by simplify_eq.
Qed.

End WellFormed.

(** ** The walk of the predictor *)

Section Paths.
Context `{ForestTypes}.
Variable f : ForestPredictor.
Variable x : list double.

Definition chosen (node : InteriorNode) : nat :=
  edgePosition (GetSplitRule node) x.

Lemma chosen_lt (node : InteriorNode) : chosen node < 2.
Proof.
  unfold chosen, edgePosition, indexOfBool.
  destruct (splitPredict _ _); lia.
Qed.

(** The interior node [p] is left through its edge [q]. *)
Definition takes (p q : nat) : Prop :=
  exists node, GetInteriorNodes f !! p = Some node /\ chosen node = q.

Definition theStep (i : nat) (node : InteriorNode) (e : Edge) : PathStep :=
  {| stepNode := i;
     stepEdgeIndex := GetFirstEdgeIndex node + chosen node;
     stepEdge := e |}.

Lemma Visit_unfold (fuel i : nat) (node : InteriorNode) (e : Edge) :
  GetInteriorNodes f !! i = Some node ->
  GetOutgoingEdges node !! chosen node = Some e ->
  VisitEdgePathToLeaf (S fuel) f x i
  = if IsTargetInterior e
    then rest ← VisitEdgePathToLeaf fuel f x (GetTargetNodeIndex e);
         Some (theStep i node e :: rest)
    else Some [theStep i node e].
Proof.
  intros Hnode He. cbn [VisitEdgePathToLeaf]. rewrite Hnode. cbn.
  fold (chosen node). rewrite He. done.
Qed.

Lemma Visit_inv (fuel i : nat) (path : list PathStep) :
  VisitEdgePathToLeaf fuel f x i = Some path ->
  exists fuel' node e,
    fuel = S fuel'
    /\ GetInteriorNodes f !! i = Some node
    /\ GetOutgoingEdges node !! chosen node = Some e
    /\ ((IsTargetInterior e = false /\ path = [theStep i node e])
        \/ (IsTargetInterior e = true
            /\ exists rest,
                 VisitEdgePathToLeaf fuel' f x (GetTargetNodeIndex e) = Some rest
                 /\ path = theStep i node e :: rest)).
Proof.
  destruct fuel as [|fuel]; [done|]. cbn [VisitEdgePathToLeaf].
  destruct (GetInteriorNodes f !! i) as [node|] eqn:Hnode; [|done]. cbn.
  fold (chosen node).
  destruct (GetOutgoingEdges node !! chosen node) as [e|] eqn:He; [|done]. cbn.
  fold (theStep i node e).
  intros Hv. exists fuel, node, e. do 3 (split; [done|]).
  destruct (IsTargetInterior e).
  - right. split; [done|].
    destruct (VisitEdgePathToLeaf fuel f x (GetTargetNodeIndex e)) as [rest|];
      [|done].
    cbn in Hv. exists rest. split; [done|]. congruence.
  - left. split; [done|]. congruence.
Qed.

Lemma Visit_mono (fuel fuel' i : nat) (path : list PathStep) :
  VisitEdgePathToLeaf fuel f x i = Some path -> fuel <= fuel' ->
  VisitEdgePathToLeaf fuel' f x i = Some path.
Proof.
  revert fuel' i path. induction fuel as [|fuel IH]; intros fuel' i path Hv Hle;
    [done|].
  apply Visit_inv in Hv as (fuel0 & node & e & [= <-] & Hnode & He & Hcase).
  destruct fuel' as [|fuel']; [lia|].
  rewrite (Visit_unfold _ _ _ _ Hnode He).
  destruct Hcase as [[Hleaf ->]|[Hint (rest & Hrest & ->)]].
  - by rewrite Hleaf.
  - rewrite Hint. rewrite (IH fuel' _ rest Hrest) by lia. done.
Qed.

(** The steps of a walk are the chosen edges of the nodes they visit. *)
Definition canonical (step : PathStep) : Prop :=
  exists node,
    GetInteriorNodes f !! stepNode step = Some node
    /\ GetOutgoingEdges node !! chosen node = Some (stepEdge step)
    /\ stepEdgeIndex step = GetFirstEdgeIndex node + chosen node.

Lemma Visit_canonical (fuel i : nat) (path : list PathStep) :
  VisitEdgePathToLeaf fuel f x i = Some path -> Forall canonical path.
Proof.
  revert i path. induction fuel as [|fuel IH]; intros i path Hv; [done|].
  apply Visit_inv in Hv as (fuel0 & node & e & [= <-] & Hnode & He & Hcase).
  assert (Hc : canonical (theStep i node e)) by (exists node; done).
  destruct Hcase as [[Hleaf ->]|[Hint (rest & Hrest & ->)]].
  - by constructor.
  - constructor; [done|]. by eapply IH.
Qed.

(** The nodes on a walk: the start, and then every node entered through
    the chosen edge of a node on the walk. *)
Lemma Visit_nodes (fuel a : nat) (path : list PathStep) (n : nat) :
  VisitEdgePathToLeaf fuel f x a = Some path ->
  n ∈ stepNode <$> path
  <-> n = a \/ exists p q, p ∈ stepNode <$> path /\ parent f n p q /\ takes p q.
Proof.
  revert a path n. induction fuel as [|fuel IH]; intros a path n Hv; [done|].
  apply Visit_inv in Hv as (fuel0 & node & e & [= <-] & Hnode & He & Hcase).
  destruct Hcase as [[Hleaf ->]|[Hint (rest & Hrest & ->)]].
  - cbn. rewrite list_elem_of_singleton. split; [by left|].
    intros [->|(p & q & Hp & Hpar & Htk)]; [done|].
    apply list_elem_of_singleton in Hp as ->.
    destruct Hpar as (node' & e' & Hnode' & He' & Hint' & _).
    destruct Htk as (node'' & Hnode'' & <-). simplify_eq. congruence.
  - cbn [fmap list_fmap stepNode theStep]. rewrite elem_of_cons.
    pose proof (fun n => IH _ _ n Hrest) as IH'. clear IH. rename IH' into IH.
    assert (Hhead : GetTargetNodeIndex e ∈ stepNode <$> rest)
      by (apply IH; by left).
    split.
    + intros [->|Hin]; [by left|]. right.
      apply IH in Hin as [->|(p & q & Hp & Hpar & Htk)].
      * exists a, (chosen node). split; [by left|]. split.
        -- by exists node, e.
        -- by exists node.
      * exists p, q. split; [by right|]. done.
    + intros [->|(p & q & Hp & Hpar & Htk)]; [by left|]. right.
      apply elem_of_cons in Hp as [->|Hp].
      * destruct Hpar as (node' & e' & Hnode' & He' & Hint' & <-).
        destruct Htk as (node'' & Hnode'' & <-). by simplify_eq.
      * apply IH. right. by exists p, q.
Qed.

Hypothesis Hwf : wf_forest f.

Lemma chosen_edge (i : nat) (node : InteriorNode) :
  GetInteriorNodes f !! i = Some node ->
  exists e, GetOutgoingEdges node !! chosen node = Some e.
Proof.
  intros Hnode. destruct (wf_node f Hwf i node Hnode) as [(e0 & e1 & Hedges) _].
  rewrite Hedges. pose proof (chosen_lt node).
  destruct (chosen node) as [|[|]]; cbn; eauto. lia.
Qed.

Lemma Visit_total (fuel i : nat) :
  i < length (GetInteriorNodes f) ->
  length (GetInteriorNodes f) - i <= fuel ->
  is_Some (VisitEdgePathToLeaf fuel f x i).
Proof.
  revert i. induction fuel as [|fuel IH]; intros i Hi Hfuel; [lia|].
  destruct (lookup_lt_is_Some_2 _ _ Hi) as [node Hnode].
  destruct (chosen_edge i node Hnode) as [e He].
  rewrite (Visit_unfold _ _ _ _ Hnode He).
  destruct (IsTargetInterior e) eqn:Hint; [|done].
  pose proof (wf_edge f Hwf _ _ _ _ Hnode He Hint) as Ht.
  destruct (IH (GetTargetNodeIndex e)) as [rest Hrest]; [lia|lia|].
  rewrite Hrest. done.
Qed.

Lemma treePath_total (i : nat) :
  i < length (GetInteriorNodes f) -> is_Some (treePath f x i).
Proof. intros Hi. apply Visit_total; [done|lia]. Qed.

(** The walk from a node: its chosen edge, then the walk from the target of
    that edge when it is interior. *)
Lemma treePath_unfold (i : nat) (node : InteriorNode) (e : Edge) :
  GetInteriorNodes f !! i = Some node ->
  GetOutgoingEdges node !! chosen node = Some e ->
  (IsTargetInterior e = false /\ treePath f x i = Some [theStep i node e])
  \/ (IsTargetInterior e = true
      /\ exists rest,
           treePath f x (GetTargetNodeIndex e) = Some rest
           /\ treePath f x i = Some (theStep i node e :: rest)).
Proof.
  intros Hnode He.
  assert (Hi : i < length (GetInteriorNodes f)) by (by eapply lookup_lt_Some).
  unfold treePath.
  destruct (length (GetInteriorNodes f)) as [|k] eqn:Hk; [lia|].
  rewrite (Visit_unfold _ _ _ _ Hnode He).
  destruct (IsTargetInterior e) eqn:Hint; [right|left; done].
  split; [done|].
  assert (Ht : i < GetTargetNodeIndex e < S k).
  { rewrite <- Hk. by eapply wf_edge. }
  destruct (Visit_total k (GetTargetNodeIndex e)) as [rest Hrest]; [lia|lia|].
  exists rest. rewrite Hrest. split; [|done].
  eapply Visit_mono; [exact Hrest|lia].
Qed.

End Paths.

(** ** The edge indicator vector of the predictor *)

Section Indicators.
Context `{ForestTypes}.
Variable f : ForestPredictor.
Variable x : list double.

(** Marking the edges of a list of steps in a vector of booleans. *)
Definition mark (steps : list PathStep) (v : list bool) : list bool :=
  fold_left (fun v step => <[stepEdgeIndex step := true]> v) steps v.

Lemma mark_length (steps : list PathStep) (v : list bool) :
  length (mark steps v) = length v.
Proof.
  revert v. induction steps as [|s steps IH]; intros v; [reflexivity|].
  cbn [mark fold_left]. fold (mark steps (<[stepEdgeIndex s := true]> v)).
  rewrite IH. apply length_insert.
Qed.

Lemma mark_lookup (steps : list PathStep) (v : list bool) (e : nat) :
  mark steps v !! e = Some true
  <-> (e < length v /\ e ∈ stepEdgeIndex <$> steps) \/ v !! e = Some true.
Proof.
  revert v. induction steps as [|s steps IH]; intros v.
  - cbn. split; [by right|]. intros [[_ Hin]|Hv]; [|done]. by apply elem_of_nil in Hin.
  - cbn [mark fold_left]. fold (mark steps (<[stepEdgeIndex s := true]> v)).
    rewrite IH, length_insert. cbn [fmap list_fmap]. rewrite elem_of_cons.
    rewrite list_lookup_insert_Some. split.
    + intros [[Hlt Hin]|[(<- & _ & Hlt)|[Hne Hv]]].
      * left. split; [done|]. by right.
      * left. split; [done|]. by left.
      * by right.
    + intros [[Hlt [->|Hin]]|Hv].
      * right. left. done.
      * left. done.
      * destruct (decide (stepEdgeIndex s = e)) as [<-|Hne].
        -- right. left. split; [done|]. split; [done|]. by eapply lookup_lt_Some.
        -- right. right. done.
Qed.

(** A node is active when the walk of some tree visits it, and an edge is on
    a path when the walk of some tree takes it. *)
Definition active (n : nat) : Prop :=
  exists r path,
    r ∈ GetRootIndices f /\ treePath f x r = Some path /\ n ∈ stepNode <$> path.

Definition onPath (e : nat) : Prop :=
  exists r path,
    r ∈ GetRootIndices f /\ treePath f x r = Some path
    /\ e ∈ stepEdgeIndex <$> path.

Hypothesis Hwf : wf_forest f.

Lemma onPath_char (n c : nat) (node : InteriorNode) :
  GetInteriorNodes f !! n = Some node -> c < 2 ->
  onPath (firstOf f n + c) <-> active n /\ chosen x node = c.
Proof.
  intros Hnode Hc. rewrite (firstOf_lookup f _ _ Hnode). split.
  - intros (r & path & Hr & Hpath & Hin).
    apply list_elem_of_fmap in Hin as (step & Hidx & Hstep).
    pose proof (Visit_canonical f x _ _ _ Hpath) as Hcan.
    rewrite Forall_forall in Hcan.
    destruct (Hcan step) as (node' & Hnode' & He' & Hi'); [by apply list_elem_of_In|].
    pose proof (chosen_lt f x node') as Hlt'.
    rewrite Hi', <- (firstOf_lookup f _ _ Hnode),
      <- (firstOf_lookup f _ _ Hnode') in Hidx.
    apply lookup_lt_Some in Hnode as Hn. apply lookup_lt_Some in Hnode' as Hn'.
    destruct (wf_first_inj f Hwf _ _ _ _ Hn Hn' Hc Hlt' Hidx) as [-> ->].
    simplify_eq.
    split; [|done]. exists r, path. split; [done|]. split; [done|].
    apply list_elem_of_fmap. eauto.
  - intros [(r & path & Hr & Hpath & Hin) <-].
    exists r, path. split; [done|]. split; [done|].
    apply list_elem_of_fmap in Hin as (step & -> & Hstep).
    pose proof (Visit_canonical f x _ _ _ Hpath) as Hcan.
    rewrite Forall_forall in Hcan.
    destruct (Hcan step) as (node' & Hnode' & He' & Hi'); [by apply list_elem_of_In|].
    simplify_eq.
    apply list_elem_of_fmap. exists step. split; [done|done].
Qed.

Lemma active_root (r : nat) : r ∈ GetRootIndices f -> active r.
Proof.
  intros Hr. destruct (treePath_total f x Hwf r) as [path Hpath];
    [by apply wf_root_lt|].
  exists r, path. split; [done|]. split; [done|].
  apply (Visit_nodes f x _ _ _ _ Hpath). by left.
Qed.

Lemma active_child (n p q : nat) :
  parent f n p q -> active n <-> active p /\ takes f x p q.
Proof.
  intros Hpar. split.
  - intros (r & path & Hr & Hpath & Hin).
    apply (Visit_nodes f x _ _ _ _ Hpath) in Hin as [->|(p' & q' & Hp' & Hpar' & Htk)].
    + destruct (wf_parent_lt f Hwf _ _ _ Hpar) as [Hlt _].
      destruct (wf_root_or_child f Hwf r) as [[_ Hno]|[Hnr _]]; [lia| |done].
      by destruct (Hno p q).
    + destruct (wf_parent_unique f Hwf _ _ _ _ _ Hpar Hpar') as [-> ->].
      split; [|done]. by exists r, path.
  - intros [(r & path & Hr & Hpath & Hin) Htk].
    exists r, path. split; [done|]. split; [done|].
    apply (Visit_nodes f x _ _ _ _ Hpath). right. by exists p, q.
Qed.

Lemma treePaths_total :
  exists paths,
    mapM (treePath f x) (GetRootIndices f) = Some paths
    /\ Forall2 (fun r path => treePath f x r = Some path) (GetRootIndices f) paths.
Proof.
  assert (Hsome : is_Some (mapM (treePath f x) (GetRootIndices f))).
  { apply mapM_is_Some. apply Forall_forall. intros r Hr. cbn.
    apply treePath_total; [done|]. apply wf_root_lt; [done|].
    by apply list_elem_of_In. }
  destruct Hsome as [paths Hpaths]. exists paths. split; [done|].
  by apply mapM_Some.
Qed.

Lemma onPath_concat (paths : list (list PathStep)) (e : nat) :
  Forall2 (fun r path => treePath f x r = Some path) (GetRootIndices f) paths ->
  e ∈ stepEdgeIndex <$> concat paths <-> onPath e.
Proof.
  intros Hall. split.
  - intros Hin. apply list_elem_of_fmap in Hin as (step & -> & Hstep).
    apply list_elem_of_In, in_concat in Hstep as (path & Hpath & Hstep).
    apply list_elem_of_In, list_elem_of_lookup in Hpath as [k Hk].
    destruct (Forall2_lookup_r _ _ _ _ _ Hall Hk) as (r & Hr & Htp).
    exists r, path. split; [by eapply list_elem_of_lookup_2|]. split; [done|].
    apply list_elem_of_fmap. exists step. split; [done|]. by apply list_elem_of_In.
  - intros (r & path & Hr & Hpath & Hin).
    apply list_elem_of_lookup in Hr as [k Hk].
    destruct (Forall2_lookup_l _ _ _ _ _ Hall Hk) as (path' & Hk' & Htp).
    simplify_eq.
    apply list_elem_of_fmap in Hin as (step & -> & Hstep).
    apply list_elem_of_fmap. exists step. split; [done|].
    apply list_elem_of_In, in_concat. exists path.
    split; apply list_elem_of_In; [by eapply list_elem_of_lookup_2|done].
Qed.

(** The vector the predictor returns: one entry per edge, true exactly on
    the edges taken. *)
Lemma GetEdgeIndicatorVector_spec :
  exists indicator,
    GetEdgeIndicatorVector f x = Some indicator
    /\ length indicator = 2 * length (GetInteriorNodes f)
    /\ forall e b, indicator !! e = Some b -> (b = true <-> onPath e).
Proof.
  destruct treePaths_total as (paths & Hpaths & Hall).
  unfold GetEdgeIndicatorVector. rewrite Hpaths. cbn.
  fold (mark (concat paths) (replicate (NumEdges f) false)).
  eexists. split; [done|]. split.
  - by rewrite mark_length, length_replicate, (wf_NumEdges f Hwf).
  - intros e b Hb. rewrite <- (onPath_concat paths e Hall).
    pose proof (mark_lookup (concat paths) (replicate (NumEdges f) false) e) as Hm.
    assert (He : e < NumEdges f).
    { apply lookup_lt_Some in Hb. by rewrite mark_length, length_replicate in Hb. }
    rewrite length_replicate in Hm.
    rewrite lookup_replicate in Hm.
    destruct b.
    + split; [|done]. intros _. apply Hm in Hb as [[_ Hin]|[? _]]; done.
    + split; [done|]. intros Hin.
      assert (Ht : mark (concat paths) (replicate (NumEdges f) false) !! e = Some true)
        by (apply Hm; left; done).
      congruence.
Qed.

Lemma indicator_root (indicator : list bool) (r : nat) (node : InteriorNode) :
  GetEdgeIndicatorVector f x = Some indicator ->
  r ∈ GetRootIndices f ->
  GetInteriorNodes f !! r = Some node ->
  indicator !! (firstOf f r) = Some (negb (splitPredict (GetSplitRule node) x))
  /\ indicator !! (firstOf f r + 1) = Some (splitPredict (GetSplitRule node) x).
Proof.
  intros Hind Hr Hnode.
  destruct GetEdgeIndicatorVector_spec as (ind' & Hind' & Hlen & Hspec).
  simplify_eq.
  assert (Hlt : r < length (GetInteriorNodes f)) by (by eapply lookup_lt_Some).
  pose proof (active_root r Hr) as Hact.
  assert (Hentry : forall c, c < 2 ->
            indicator !! (firstOf f r + c) = Some (bool_decide (chosen x node = c))).
  { intros c Hc. pose proof (wf_first_lt f Hwf r c Hlt Hc) as Hbound.
    destruct (lookup_lt_is_Some_2 indicator (firstOf f r + c)) as [b Hb]; [lia|].
    rewrite Hb. f_equal. apply eq_true_iff_eq.
    rewrite (Hspec _ _ Hb), (onPath_char _ _ _ Hnode Hc), bool_decide_eq_true.
    tauto. }
  pose proof (Hentry 0) as H0. pose proof (Hentry 1) as H1.
  rewrite Nat.add_0_r in H0. rewrite H0, H1 by lia.
  unfold chosen, edgePosition, indexOfBool.
  by destruct (splitPredict (GetSplitRule node) x).
Qed.

Lemma indicator_child (indicator : list bool) (n p q : nat)
    (node : InteriorNode) (b : bool) :
  GetEdgeIndicatorVector f x = Some indicator ->
  parent f n p q ->
  GetInteriorNodes f !! n = Some node ->
  indicator !! (firstOf f p + q) = Some b ->
  indicator !! (firstOf f n) = Some (b && negb (splitPredict (GetSplitRule node) x))
  /\ indicator !! (firstOf f n + 1)
     = Some (b && splitPredict (GetSplitRule node) x).
Proof.
  intros Hind Hpar Hnode Hb.
  destruct GetEdgeIndicatorVector_spec as (ind' & Hind' & Hlen & Hspec).
  simplify_eq.
  assert (Hlt : n < length (GetInteriorNodes f)) by (by eapply lookup_lt_Some).
  destruct (wf_parent_lt f Hwf _ _ _ Hpar) as [Hp Hq].
  pose proof Hpar as (pnode & pe & Hpnode & Hpe & _ & _).
  assert (Hparent : b = true <-> active p /\ chosen x pnode = q).
  { rewrite (Hspec _ _ Hb). by apply onPath_char. }
  assert (Htakes : takes f x p q <-> chosen x pnode = q).
  { split.
    - intros (node' & Hnode' & <-). by simplify_eq.
    - intros <-. by exists pnode. }
  assert (Hentry : forall c, c < 2 ->
            indicator !! (firstOf f n + c)
            = Some (b && bool_decide (chosen x node = c))).
  { intros c Hc. pose proof (wf_first_lt f Hwf n c Hlt Hc) as Hbound.
    destruct (lookup_lt_is_Some_2 indicator (firstOf f n + c)) as [b' Hb']; [lia|].
    rewrite Hb'. f_equal. apply eq_true_iff_eq.
    rewrite (Hspec _ _ Hb'), (onPath_char _ _ _ Hnode Hc).
    rewrite (active_child _ _ _ Hpar), andb_true_iff, bool_decide_eq_true.
    tauto. }
  pose proof (Hentry 0) as H0. pose proof (Hentry 1) as H1.
  rewrite Nat.add_0_r in H0. rewrite H0, H1 by lia.
  unfold chosen, edgePosition, indexOfBool.
  by destruct (splitPredict (GetSplitRule node) x).
Qed.

End Indicators.

(** ** Sums of edge values *)

Section Sums.
Context `{ForestTypes}.
Variable x : list double.

(** The value of the sub-model of a node: the edge values of its walk, added
    from the leaf up. *)
Fixpoint pathValue (path : list PathStep) : double :=
  match path with
  | [] => dzero
  | step :: rest =>
      match rest with
      | [] => edgeValue x step
      | _ :: _ => dadd (edgeValue x step) (pathValue rest)
      end
  end.

(** The predictor adds the same edge values from the root down.  The two
    sums are compared in exact arithmetic only: the lemmas below have
    [ExactArithmetic] as a premise. *)
Context `{!ExactArithmetic}.

Lemma dadd_zero_r (a : double) : dadd a dzero = a.
Proof. by rewrite dadd_comm, dadd_zero_l. Qed.

Lemma accumulate_pathValue (acc : double) (path : list PathStep) :
  accumulate x acc path = dadd acc (pathValue path).
Proof.
  revert acc. induction path as [|step rest IH]; intros acc.
  - cbn. by rewrite dadd_zero_r.
  - cbn [accumulate fold_left]. fold (accumulate x (dadd acc (edgeValue x step)) rest).
    rewrite IH. destruct rest as [|step' rest].
    + cbn. by rewrite dadd_zero_r.
    + change (pathValue (step :: step' :: rest))
        with (dadd (edgeValue x step) (pathValue (step' :: rest))).
      by rewrite dadd_assoc.
Qed.

Lemma fold_dadd_from (l : list double) (a : double) :
  fold_left dadd l a = dadd a (fold_left dadd l dzero).
Proof.
  revert a. induction l as [|d l IH]; intros a.
  - cbn. by rewrite dadd_zero_r.
  - cbn. rewrite (IH (dadd a d)), (IH (dadd dzero d)), dadd_zero_l.
    by rewrite dadd_assoc.
Qed.

Lemma accumulate_concat (acc : double) (paths : list (list PathStep)) :
  accumulate x acc (concat paths) = fold_left dadd (pathValue <$> paths) acc.
Proof.
  revert acc. induction paths as [|path paths IH]; intros acc; [done|].
  cbn [concat fmap list_fmap fold_left]. unfold accumulate at 1.
  rewrite fold_left_app. fold (accumulate x acc path).
  fold (accumulate x (accumulate x acc path) (concat paths)).
  by rewrite IH, accumulate_pathValue.
Qed.

(** The direct prediction and the sum taken by the refined model agree. *)
Lemma Predict_sum (bias : double) (paths : list (list PathStep)) :
  accumulate x bias (concat paths)
  = fold_left dadd ((pathValue <$> paths) ++ [bias]) dzero.
Proof.
  rewrite accumulate_concat, fold_left_app. cbn.
  rewrite fold_dadd_from. apply dadd_comm.
Qed.

Lemma PredictTree_value (path : list PathStep) :
  accumulate x dzero path = pathValue path.
Proof. by rewrite accumulate_pathValue, dadd_zero_l. Qed.

End Sums.

(** ** What Compute returns, given the walks of the trees *)

Section ComputeSpec.
Context `{ForestTypes}.
Variable f : ForestPredictor.
Variable x : list double.

Lemma Compute_of_paths (paths : list (list PathStep)) (indicator : list bool) :
  Forall2 (fun r path => treePath f x r = Some path) (GetRootIndices f) paths ->
  GetEdgeIndicatorVector f x = Some indicator ->
  Compute f x
  = Some ([accumulate x (GetBias f) (concat paths)],
          accumulate x dzero <$> paths,
          indicator).
Proof.
  intros Hall Hind.
  assert (Hpaths : mapM (treePath f x) (GetRootIndices f) = Some paths)
    by (by apply mapM_Some).
  unfold Compute, Predict. rewrite Hpaths. cbn.
  assert (Htrees :
    mapM (fun i => root ← GetRootIndex f i; PredictTree f x root)
         (seq 0 (NumTrees f))
    = Some (accumulate x dzero <$> paths)).
  { apply mapM_Some. apply Forall2_same_length_lookup. split.
    - rewrite length_seq, length_fmap. unfold NumTrees.
      by apply Forall2_length in Hall.
    - intros i k y Hk Hy. apply lookup_seq in Hk as [-> Hlt]. cbn.
      apply list_lookup_fmap_Some in Hy as (path & -> & Hpath).
      destruct (Forall2_lookup_r _ _ _ _ _ Hall Hpath) as (r & Hr & Htp).
      unfold GetRootIndex. rewrite Hr. cbn. unfold PredictTree. by rewrite Htp. }
  rewrite Htrees. cbn. rewrite Hind. done.
Qed.

End ComputeSpec.

(** ** Running the operations of the transformer *)

Section Running.
Context `{ForestTypes}.

Definition modelOf (st : State) : list Node := model (transformer st).

Definition logged (event : Access) (st : State) : State :=
  {| transformer := transformer st; accesses := accesses st ++ [event] |}.

Definition added (n : Node) (st : State) : State :=
  {| transformer := {| model := modelOf st ++ [n];
                       elementsMap := elementsMap (transformer st) |};
     accesses := accesses st |}.

Definition mapped (old : OutputPort) (new : PortElements) (st : State) : State :=
  {| transformer := {| model := modelOf st;
                       elementsMap := elementsMap (transformer st) ++ [(old, new)] |};
     accesses := accesses st |}.

Lemma bind_run {A B} (c : M A) (k : A -> M B) (st st' : State) (a : A) :
  c st = Some (a, st') -> bind c k st = k a st'.
Proof. intros Hc. unfold bind. by rewrite Hc. Qed.

Lemma bind_inv {A B} (c : M A) (k : A -> M B) (st st'' : State) (b : B) :
  bind c k st = Some (b, st'') ->
  exists a st', c st = Some (a, st') /\ k a st' = Some (b, st'').
Proof.
  unfold bind. destruct (c st) as [[a st']|]; [|done]. eauto.
Qed.

Lemma lift_run {A} (o : option A) (a : A) (st : State) :
  o = Some a -> lift o st = Some (a, st).
Proof. by intros ->. Qed.

Lemma at_run {A} (name : Vector) (v : list A) (i : nat) (a : A) (st : State) :
  v !! i = Some a -> at_ name v i st = Some (a, logged (Read name i) st).
Proof. intros Hv. unfold at_, bind, lift, log, ret. by rewrite Hv. Qed.

Lemma at_inv {A} (name : Vector) (v : list A) (i : nat) (a : A) (st st' : State) :
  at_ name v i st = Some (a, st') ->
  v !! i = Some a /\ st' = logged (Read name i) st.
Proof.
  unfold at_, bind, lift, log, ret. destruct (v !! i); [|done].
  by intros [= -> <-].
Qed.

Lemma assign_run {A} (name : Vector) (v : list A) (i : nat) (a : A) (st : State) :
  i < length v ->
  assign name v i a st = Some (<[i := a]> v, logged (Write name i) st).
Proof. intros Hi. unfold assign. by rewrite decide_True. Qed.

Lemma assign_inv {A} (name : Vector) (v v' : list A) (i : nat) (a : A)
    (st st' : State) :
  assign name v i a st = Some (v', st') ->
  i < length v /\ v' = <[i := a]> v /\ st' = logged (Write name i) st.
Proof.
  unfold assign. destruct (decide (i < length v)); [|done].
  unfold bind, log, ret. by intros [= <- <-].
Qed.

Lemma AddNode_run (n : Node) (st : State) :
  AddNode n st = Some ({| nodeId := length (modelOf st); nodeOf := n |}, added n st).
Proof. done. Qed.

Lemma MapNodeOutput_run (old : OutputPort) (new : PortElements) (st : State) :
  MapNodeOutput old new st = Some (tt, mapped old new st).
Proof. done. Qed.

(** *** States that evaluate *)

(** Facts about values are tracked under an assumption [P], that the model
    evaluated before the pass: the shape of what a pass builds is its
    instance at [False], what the built model computes its instance at
    [True]. *)
Context {P : Prop}.

Definition evaluates (st : State) (env : Env) : Prop :=
  P -> Evaluate (modelOf st) = Some env.

Definition doubles (env : Env) (elements : PortElements) (ds : list double) : Prop :=
  P -> readDoubles env elements = Some ds.

Definition bools (env : Env) (elements : PortElements) (bs : list bool) : Prop :=
  P -> readBools env elements = Some bs.

(** From [st] to [st'] the model and the environment it evaluates to were
    extended, the registered outputs were kept and [events] were logged. *)
Record grows (st st' : State) (env env' : Env) (events : list Access) : Prop := {
  grows_model : modelOf st `prefix_of` modelOf st';
  grows_env : env `prefix_of` env';
  grows_eval : evaluates st' env';
  grows_map : elementsMap (transformer st') = elementsMap (transformer st);
  grows_accesses : accesses st' = accesses st ++ events
}.

Lemma grows_refl (st : State) (env : Env) :
  evaluates st env -> grows st st env env [].
Proof. intros He. split; try done. by rewrite app_nil_r. Qed.

Lemma grows_trans (st st' st'' : State) (env env' env'' : Env)
    (events events' : list Access) :
  grows st st' env env' events -> grows st' st'' env' env'' events' ->
  grows st st'' env env'' (events ++ events').
Proof.
  intros [Hm He Hv Hp Ha] [Hm' He' Hv' Hp' Ha']. split.
  - by etrans.
  - by etrans.
  - done.
  - congruence.
  - rewrite Ha', Ha. by rewrite app_assoc.
Qed.

Lemma grows_logged (st : State) (env : Env) (event : Access) :
  evaluates st env -> grows st (logged event st) env env [event].
Proof. intros He. by split. Qed.

Lemma grows_added (st : State) (env : Env) (n : Node) (outs : list (list Value)) :
  evaluates st env -> (P -> ComputeNode env n = Some outs) ->
  grows st (added n st) env (env ++ [outs]) [].
Proof.
  intros He Hc. split.
  - by apply prefix_app_r.
  - by apply prefix_app_r.
  - intros HP. unfold added. unfold modelOf at 1. cbn [transformer model].
    rewrite Evaluate_snoc, (He HP). cbn. by rewrite (Hc HP).
  - done.
  - cbn. by rewrite app_nil_r.
Qed.

Lemma doubles_grows (env env' : Env) (elements : PortElements) (ds : list double) :
  env `prefix_of` env' -> doubles env elements ds -> doubles env' elements ds.
Proof. intros [ext ->] Hd HP. apply readDoubles_prefix. by apply Hd. Qed.

Lemma bools_grows (env env' : Env) (elements : PortElements) (bs : list bool) :
  env `prefix_of` env' -> bools env elements bs -> bools env' elements bs.
Proof. intros [ext ->] Hb HP. apply readBools_prefix. by apply Hb. Qed.

Lemma doubles_app (env : Env) (p1 p2 : PortElements) (d1 d2 : list double) :
  doubles env p1 d1 -> doubles env p2 d2 -> doubles env (p1 ++ p2) (d1 ++ d2).
Proof. intros H1 H2 HP. apply readDoubles_app; [by apply H1|by apply H2]. Qed.

Lemma bools_app (env : Env) (p1 p2 : PortElements) (b1 b2 : list bool) :
  bools env p1 b1 -> bools env p2 b2 -> bools env (p1 ++ p2) (b1 ++ b2).
Proof. intros H1 H2 HP. apply readBools_app; [by apply H1|by apply H2]. Qed.

(** The outputs of the node just added are read at its position. *)
Lemma doubles_new (st : State) (env : Env) (outs : list (list Value))
    (k : nat) (d : double) :
  evaluates st env ->
  outs !! 0 ≫= (.!! k) = Some (VDouble d) ->
  doubles (env ++ [outs]) [el (length (modelOf st)) 0 k] [d].
Proof.
  intros He Ho HP. apply readDoubles_single.
  rewrite <- (Evaluate_length _ _ (He HP)). by rewrite readElement_last.
Qed.

Lemma bools_new (st : State) (env : Env) (outs : list (list Value))
    (k : nat) (b : bool) :
  evaluates st env ->
  outs !! 0 ≫= (.!! k) = Some (VBool b) ->
  bools (env ++ [outs]) [el (length (modelOf st)) 0 k] [b].
Proof.
  intros He Ho HP. apply readBools_single.
  rewrite <- (Evaluate_length _ _ (He HP)). by rewrite readElement_last.
Qed.

Lemma lookup_grows {A} (m m' : list A) (i : nat) (a : A) :
  m `prefix_of` m' -> m !! i = Some a -> m' !! i = Some a.
Proof. intros [ext ->]. apply lookup_app_l_Some. Qed.

Lemma output_single (id : nat) (n : Node) :
  outputSizes n !! 0 = Some 1 ->
  output {| nodeId := id; nodeOf := n |} = [el id 0 0].
Proof. intros Hs. unfold output, portElements. cbn. by rewrite Hs. Qed.

Lemma added_lookup (n : Node) (st : State) :
  modelOf (added n st) !! length (modelOf st) = Some n.
Proof. unfold added, modelOf. cbn. by rewrite list_lookup_middle. Qed.

End Running.

Arguments evaluates {_} P st env.
Arguments doubles {_} P env elements ds.
Arguments bools {_} P env elements bs.
Arguments grows {_} P st st' env env' events.

(** ** The bottom-up pass *)

Section BottomUp.
Context `{ForestTypes}.
Variable P : Prop.
Variable x : list double.
Variable newPortElements : PortElements.

(** The sub-model of an edge evaluates to the value of the edge, plus the
    value of the sub-model of its target when the target is interior. *)
Lemma edgeSubModel_spec (subModels : list PortElements) (edgeOutputs : PortElements)
    (e : Edge) (st : State) (env : Env) (vals : list double) (below : double) :
  evaluates P st env ->
  doubles P env newPortElements x ->
  doubles P env edgeOutputs vals ->
  (IsTargetInterior e = true ->
   exists sub, subModels !! GetTargetNodeIndex e = Some sub
               /\ doubles P env sub [below]) ->
  exists st' env' elx,
    edgeSubModel newPortElements subModels edgeOutputs e st
    = Some (edgeOutputs ++ [elx], st')
    /\ grows P st st' env env'
         (if IsTargetInterior e
          then [Read vec_interiorNodeSubModels (GetTargetNodeIndex e)] else [])
    /\ doubles P env' (edgeOutputs ++ [elx])
         (vals ++ [if IsTargetInterior e
                   then dadd (edgePredict (GetPredictor e) x) below
                   else edgePredict (GetPredictor e) x]).
Proof.
  intros Hev Hx Hvals Hsub.
  unfold edgeSubModel, AddEdgePredictorToModelTransformer.
  rewrite (bind_run _ _ _ _ _ (AddNode_run _ _)).
  set (n1 := EdgePredictorNode newPortElements (GetPredictor e)).
  set (o1 := [[VDouble (edgePredict (GetPredictor e) x)]]).
  assert (Hc1 : P -> ComputeNode env n1 = Some o1).
  { intros HP. cbn. by rewrite (Hx HP). }
  pose proof (grows_added st env n1 o1 Hev Hc1) as G1.
  rewrite (output_single _ n1) by done.
  assert (Hr1 : doubles P (env ++ [o1]) [el (length (modelOf st)) 0 0]
                  [edgePredict (GetPredictor e) x]) by (by apply doubles_new).
  destruct (IsTargetInterior e).
  - destruct Hsub as (sub & Hsub & Hbelow); [done|].
    rewrite (bind_run _ _ _ _ _ (at_run _ _ _ _ _ Hsub)).
    rewrite (bind_run _ _ _ _ _ (AddNode_run _ _)).
    set (st1 := logged _ (added n1 st)).
    set (n2 := BinaryOperationNode _ sub add).
    set (o2 := [[VDouble (dadd (edgePredict (GetPredictor e) x) below)]]).
    rewrite (output_single _ n2) by done.
    pose proof (grows_logged (added n1 st) _
                  (Read vec_interiorNodeSubModels (GetTargetNodeIndex e))
                  (grows_eval _ _ _ _ _ G1)) as GL.
    assert (Hc2 : P -> ComputeNode (env ++ [o1]) n2 = Some o2).
    { intros HP. unfold n2. cbn [ComputeNode].
      rewrite (Hr1 HP). cbn [mbind option_bind].
      rewrite (readDoubles_prefix _ _ _ _ (Hbelow HP)). cbn. done. }
    pose proof (grows_added st1 _ n2 o2 (grows_eval _ _ _ _ _ GL) Hc2) as G2.
    pose proof (grows_trans _ _ _ _ _ _ _ _ G1 (grows_trans _ _ _ _ _ _ _ _ GL G2)) as G.
    eexists _, _, _. split; [reflexivity|]. split; [exact G|].
    apply doubles_app.
    + apply (doubles_grows env); [|done]. apply G.
    + apply (doubles_new st1); [apply GL|done].
  - eexists _, _, _. split; [reflexivity|]. split; [exact G1|].
    apply doubles_app; [|done].
    apply (doubles_grows env); [|done]. apply G1.
Qed.

Definition edgeReads (e : Edge) : list Access :=
  if IsTargetInterior e
  then [Read vec_interiorNodeSubModels (GetTargetNodeIndex e)] else [].

Definition edgeTotal (e : Edge) (below : double) : double :=
  if IsTargetInterior e
  then dadd (edgePredict (GetPredictor e) x) below
  else edgePredict (GetPredictor e) x.

(** One turn of the bottom-up loop, on a node with two edges whose interior
    targets have been visited. *)
Lemma visitBottomUp_spec (interiorNodes : list InteriorNode)
    (splitIndicators subModels : list PortElements) (i : nat)
    (node : InteriorNode) (e0 e1 : Edge) (st : State) (env : Env)
    (below0 below1 : double) :
  evaluates P st env ->
  doubles P env newPortElements x ->
  interiorNodes !! i = Some node ->
  GetOutgoingEdges node = [e0; e1] ->
  i < length splitIndicators -> i < length subModels ->
  (IsTargetInterior e0 = true ->
   exists sub, subModels !! GetTargetNodeIndex e0 = Some sub
               /\ doubles P env sub [below0]) ->
  (IsTargetInterior e1 = true ->
   exists sub, subModels !! GetTargetNodeIndex e1 = Some sub
               /\ doubles P env sub [below1]) ->
  exists st' env' sel val,
    visitBottomUp newPortElements interiorNodes (splitIndicators, subModels) i st
    = Some ((<[i := [sel]]> splitIndicators, <[i := [val]]> subModels), st')
    /\ grows P st st' env env'
         (edgeReads e0 ++ edgeReads e1
          ++ [Write vec_interiorNodeSplitIndicators i;
              Write vec_interiorNodeSubModels i])
    /\ bools P env' [sel] [splitPredict (GetSplitRule node) x]
    /\ doubles P env' [val]
         [if splitPredict (GetSplitRule node) x
          then edgeTotal e1 below1 else edgeTotal e0 below0]
    /\ modelOf st' !! referencedNode sel
       = Some (SplitRuleNode newPortElements (GetSplitRule node))
    /\ (exists elx0 elx1,
          modelOf st' !! referencedNode val
          = Some (ElementSelectorNode [elx0; elx1] [sel])).
Proof.
  intros Hev Hx Hnode Hedges Hi1 Hi2 Hsub0 Hsub1.
  unfold visitBottomUp.
  rewrite (bind_run _ _ _ _ _ (lift_run _ _ _ Hnode)).
  rewrite Hedges.
  destruct (edgeSubModel_spec subModels [] e0 st env [] below0 Hev Hx)
    as (st1 & env1 & elx0 & Hrun0 & G0 & Hread0); [done|done|].
  cbn [app] in Hrun0, Hread0.
  assert (Hsub1' : IsTargetInterior e1 = true ->
            exists sub, subModels !! GetTargetNodeIndex e1 = Some sub
                        /\ doubles P env1 sub [below1]).
  { intros Hint. destruct (Hsub1 Hint) as (sub & Hs & Hr). exists sub. split; [done|].
    eapply doubles_grows; [apply G0|done]. }
  assert (Hx1 : doubles P env1 newPortElements x).
  { eapply doubles_grows; [apply G0|done]. }
  destruct (edgeSubModel_spec subModels [elx0] e1 st1 env1 _ below1
              (grows_eval _ _ _ _ _ G0) Hx1 Hread0 Hsub1')
    as (st2 & env2 & elx1 & Hrun1 & G1 & Hread1).
  cbn [app] in Hrun1, Hread1.
  assert (Hfold : foldM (edgeSubModel newPortElements subModels) [] [e0; e1] st
                  = Some ([elx0; elx1], st2)).
  { cbn [foldM]. rewrite (bind_run _ _ _ _ _ Hrun0).
    by rewrite (bind_run _ _ _ _ _ Hrun1). }
  rewrite (bind_run _ _ _ _ _ Hfold).
  unfold AddSplitRuleToModelTransformer.
  rewrite (bind_run _ _ _ _ _ (AddNode_run _ _)).
  set (n3 := SplitRuleNode newPortElements (GetSplitRule node)).
  rewrite (output_single _ n3) by done.
  rewrite (bind_run _ _ _ _ _ (assign_run _ _ _ _ _ Hi1)).
  rewrite (bind_run _ _ _ _ _ (AddNode_run _ _)).
  set (n4 := ElementSelectorNode _ _).
  rewrite (output_single _ n4) by done.
  rewrite (bind_run _ _ _ _ _ (assign_run _ _ _ _ _ Hi2)).
  set (s := splitPredict (GetSplitRule node) x).
  set (o3 := [[VBool s]]).
  assert (Hx2 : doubles P env2 newPortElements x).
  { eapply doubles_grows; [apply G1|done]. }
  assert (Hc3 : P -> ComputeNode env2 n3 = Some o3).
  { intros HP. cbn. by rewrite (Hx2 HP). }
  pose proof (grows_added st2 env2 n3 o3 (grows_eval _ _ _ _ _ G1) Hc3) as G3.
  pose proof (grows_logged _ _ (Write vec_interiorNodeSplitIndicators i)
                (grows_eval _ _ _ _ _ G3)) as G3'.
  set (st3 := logged _ (added n3 st2)) in *.
  assert (Hsel : bools P (env2 ++ [o3]) [el (length (modelOf st2)) 0 0] [s]).
  { apply bools_new; [apply G1|done]. }
  set (v := if s then edgeTotal e1 below1 else edgeTotal e0 below0).
  set (o4 := [[VDouble v]]).
  assert (Hc4 : P -> ComputeNode (env2 ++ [o3]) n4 = Some o4).
  { intros HP. unfold n4. cbn [ComputeNode].
    rewrite (readDoubles_prefix _ _ _ _ (Hread1 HP)). cbn [mbind option_bind].
    rewrite (Hsel HP). cbn [mbind option_bind].
    unfold o4, v, edgeTotal. by destruct s. }
  pose proof (grows_added st3 _ n4 o4 (grows_eval _ _ _ _ _ G3') Hc4) as G4.
  pose proof (grows_logged _ _ (Write vec_interiorNodeSubModels i)
                (grows_eval _ _ _ _ _ G4)) as G4'.
  eexists _, _, _, _. split; [reflexivity|].
  split; [|split; [|split; [|split]]].
  - pose proof (grows_trans _ _ _ _ _ _ _ _ G0
                 (grows_trans _ _ _ _ _ _ _ _ G1
                   (grows_trans _ _ _ _ _ _ _ _ G3
                     (grows_trans _ _ _ _ _ _ _ _ G3'
                       (grows_trans _ _ _ _ _ _ _ _ G4 G4'))))) as G.
    cbn [app] in G. exact G.
  - eapply bools_grows; [|exact Hsel]. apply G4.
  - apply (doubles_new st3); [apply G3'|done].
  - cbn [referencedNode el].
    apply (lookup_grows (modelOf (added n3 st2))).
    + etrans; [apply G3'|]. etrans; [apply G4|]. apply G4'.
    + apply added_lookup.
  - exists elx0, elx1. cbn [referencedNode el].
    apply (lookup_grows (modelOf (added n4 st3))); [apply G4'|].
    apply added_lookup.
Qed.

End BottomUp.

(** ** The access log *)

Section AccessLog.
Context `{ForestTypes}.

Lemma initialized_mono (before more : list Access) (event : Access) :
  initialized before event = true -> initialized (before ++ more) event = true.
Proof.
  destruct event as [v index|v index]; [|done].
  destruct v; cbn; try done; rewrite existsb_app; intros ->; done.
Qed.

Lemma reads_initialized_all (before events : list Access) :
  Forall (fun event => initialized before event = true) events ->
  reads_initialized before events = true.
Proof.
  revert before. induction events as [|event events IH]; intros before Hall; [done|].
  cbn. apply andb_true_iff. split.
  - by apply (Forall_inv Hall).
  - apply IH. apply Forall_inv_tail in Hall.
    eapply Forall_impl; [|exact Hall]. intros ev. apply initialized_mono.
Qed.

Lemma reads_initialized_app (before events events' : list Access) :
  reads_initialized before (events ++ events')
  = reads_initialized before events && reads_initialized (before ++ events) events'.
Proof.
  revert before. induction events as [|event events IH]; intros before.
  - cbn. by rewrite app_nil_r.
  - cbn. rewrite IH, <- app_assoc. cbn. by rewrite andb_assoc.
Qed.

(** Appending events that are initialized by what was logged before. *)
Lemma reads_initialized_snoc (events events' : list Access) :
  reads_initialized [] events = true ->
  Forall (fun event => initialized events event = true) events' ->
  reads_initialized [] (events ++ events') = true.
Proof.
  intros Hi Hall. rewrite reads_initialized_app, Hi. cbn.
  by apply reads_initialized_all.
Qed.

Definition wrote (v : Vector) (index : nat) (events : list Access) : Prop :=
  existsb (written v index) events = true.

Lemma wrote_app_l (v : Vector) (index : nat) (events events' : list Access) :
  wrote v index events -> wrote v index (events ++ events').
Proof. unfold wrote. rewrite existsb_app. by intros ->. Qed.

Lemma wrote_app_r (v : Vector) (index : nat) (events events' : list Access) :
  wrote v index events' -> wrote v index (events ++ events').
Proof. unfold wrote. rewrite existsb_app. intros ->. by rewrite orb_true_r. Qed.

Lemma wrote_here (v : Vector) (index : nat) (events : list Access) :
  In (Write v index) events -> wrote v index events.
Proof.
  intros Hin. apply existsb_exists. exists (Write v index). split; [done|].
  cbn. by rewrite !bool_decide_eq_true_2.
Qed.

Lemma initialized_read (v : Vector) (index : nat) (events : list Access) :
  wrote v index events -> initialized events (Read v index) = true.
Proof. intros Hw. by destruct v. Qed.

End AccessLog.

(** ** The bottom-up loop *)

Section BottomUpLoop.
Context `{ForestTypes}.
Variable P : Prop.
Variable f : ForestPredictor.
Variable x : list double.
Variable newPortElements : PortElements.
Variable st0 : State.
Variable env0 : Env.
Hypothesis Hwf : wf_forest f.

(** What the first pass has built for the interior node [j]: single-element
    references to the output of its split rule node and to the output of its
    selector node, which is its value. *)
Definition built (st : State) (env : Env)
    (splitIndicators subModels : list PortElements) (j : nat) : Prop :=
  exists node sel val path,
    GetInteriorNodes f !! j = Some node
    /\ splitIndicators !! j = Some [sel]
    /\ subModels !! j = Some [val]
    /\ bools P env [sel] [splitPredict (GetSplitRule node) x]
    /\ treePath f x j = Some path
    /\ doubles P env [val] [pathValue x path]
    /\ modelOf st !! referencedNode sel
       = Some (SplitRuleNode newPortElements (GetSplitRule node))
    /\ (exists elx0 elx1,
          modelOf st !! referencedNode val
          = Some (ElementSelectorNode [elx0; elx1] [sel])).

Definition bottomUpInv (i : nat) (st : State)
    (splitIndicators subModels : list PortElements) : Prop :=
  exists env events,
    grows P st0 st env0 env events
    /\ length splitIndicators = length (GetInteriorNodes f)
    /\ length subModels = length (GetInteriorNodes f)
    /\ (forall j, i <= j < length (GetInteriorNodes f) ->
          built st env splitIndicators subModels j)
    /\ reads_initialized [] events = true
    /\ (forall j, i <= j < length (GetInteriorNodes f) ->
          wrote vec_interiorNodeSplitIndicators j events
          /\ wrote vec_interiorNodeSubModels j events).

Lemma built_grows (st st' : State) (env env' : Env) (events : list Access)
    (splitIndicators subModels : list PortElements) (i j : nat)
    (a b : PortElements) :
  grows P st st' env env' events -> i <> j ->
  built st env splitIndicators subModels j ->
  built st' env' (<[i := a]> splitIndicators) (<[i := b]> subModels) j.
Proof.
  intros G Hne (node & sel & val & path & Hnode & Hs & Hv & Hrs & Hp & Hrv & Hm
                & elx0 & elx1 & Hm').
  exists node, sel, val, path. split; [done|].
  rewrite !list_lookup_insert_ne by done.
  split; [done|]. split; [done|]. split; [|split; [done|split; [|split]]].
  - eapply bools_grows; [apply G|done].
  - eapply doubles_grows; [apply G|done].
  - eapply lookup_grows; [apply G|done].
  - exists elx0, elx1. eapply lookup_grows; [apply G|done].
Qed.

Lemma treePath_nonempty (j : nat) (path : list PathStep) :
  treePath f x j = Some path -> path <> [].
Proof.
  intros Hp. apply Visit_inv in Hp as (? & ? & ? & _ & _ & _ & Hc).
  destruct Hc as [[_ ->]|[_ (? & _ & ->)]]; done.
Qed.

Lemma pathValue_cons (step : PathStep) (rest : list PathStep) :
  rest <> [] ->
  pathValue x (step :: rest) = dadd (edgeValue x step) (pathValue x rest).
Proof. by destruct rest. Qed.

Lemma bottomUp_step (i : nat) (st : State)
    (splitIndicators subModels : list PortElements) :
  i < length (GetInteriorNodes f) ->
  doubles P env0 newPortElements x ->
  bottomUpInv (S i) st splitIndicators subModels ->
  exists st' splitIndicators' subModels',
    visitBottomUp newPortElements (GetInteriorNodes f)
      (splitIndicators, subModels) i st
    = Some ((splitIndicators', subModels'), st')
    /\ bottomUpInv i st' splitIndicators' subModels'.
Proof.
  intros Hi Hx (env & events & G & Hl1 & Hl2 & Hbuilt & Hinit & Hwrote).
  destruct (lookup_lt_is_Some_2 _ _ Hi) as [node Hnode].
  destruct (wf_node f Hwf i node Hnode) as [(e0 & e1 & Hedges) _].
  assert (Hx' : doubles P env newPortElements x).
  { eapply doubles_grows; [apply G|done]. }
  assert (Hbelow : forall q e, GetOutgoingEdges node !! q = Some e ->
            exists below : double,
              (IsTargetInterior e = true ->
               exists sub, subModels !! GetTargetNodeIndex e = Some sub
                           /\ doubles P env sub [below])
              /\ (IsTargetInterior e = true ->
                  exists rest, treePath f x (GetTargetNodeIndex e) = Some rest
                               /\ below = pathValue x rest)
              /\ Forall (fun ev => initialized events ev = true) (edgeReads e)).
  { intros q e He. destruct (IsTargetInterior e) eqn:Hint.
    - pose proof (wf_edge f Hwf _ _ _ _ Hnode He Hint) as Ht.
      destruct (Hbuilt (GetTargetNodeIndex e)) as
        (tn & sel & val & path & _ & _ & Hv & _ & Hp & Hrv & _); [lia|].
      exists (pathValue x path). split; [by eauto|]. split; [by eauto|].
      unfold edgeReads. rewrite Hint. constructor; [|done].
      apply initialized_read. apply Hwrote. lia.
    - exists dzero. split; [done|]. split; [done|].
      unfold edgeReads. by rewrite Hint. }
  destruct (Hbelow 0 e0) as (below0 & Hsub0 & Hval0 & Hreads0); [by rewrite Hedges|].
  destruct (Hbelow 1 e1) as (below1 & Hsub1 & Hval1 & Hreads1); [by rewrite Hedges|].
  destruct (visitBottomUp_spec P x newPortElements (GetInteriorNodes f)
              splitIndicators subModels i node e0 e1 st env below0 below1)
    as (st' & env' & sel & val & Hrun & G' & Hrs & Hrv & Hm & Hm');
    [apply G|done|done|done|lia|lia|done|done|].
  eexists _, _, _. split; [exact Hrun|].
  exists env', (events ++ edgeReads e0 ++ edgeReads e1
                ++ [Write vec_interiorNodeSplitIndicators i;
                    Write vec_interiorNodeSubModels i]).
  split; [by eapply grows_trans|].
  rewrite !length_insert. split; [done|]. split; [done|].
  split; [|split].
  - intros j Hj. destruct (decide (j = i)) as [->|Hne].
    + (* the node just visited *)
      destruct (chosen_edge f x Hwf i node Hnode) as [e He].
      assert (Hpath : exists path, treePath f x i = Some path
                /\ pathValue x path
                   = if splitPredict (GetSplitRule node) x
                     then edgeTotal x e1 below1 else edgeTotal x e0 below0).
      { assert (Hcase : (splitPredict (GetSplitRule node) x = false /\ e = e0
                         /\ forall b, edgeTotal x e b = edgeTotal x e0 b)
                        \/ (splitPredict (GetSplitRule node) x = true /\ e = e1
                            /\ forall b, edgeTotal x e b = edgeTotal x e1 b)).
        { unfold chosen, edgePosition, indexOfBool in He. rewrite Hedges in He.
          destruct (splitPredict (GetSplitRule node) x); cbn in He;
            injection He as <-; [right|left]; done. }
        assert (Hbelow' : exists below,
                  (if splitPredict (GetSplitRule node) x
                   then edgeTotal x e1 below1 else edgeTotal x e0 below0)
                  = edgeTotal x e below
                  /\ (IsTargetInterior e = true ->
                      exists rest, treePath f x (GetTargetNodeIndex e) = Some rest
                                   /\ below = pathValue x rest)).
        { destruct Hcase as [(-> & -> & _)|(-> & -> & _)]; eauto. }
        destruct Hbelow' as (below & -> & Hrest).
        destruct (treePath_unfold f x Hwf i node e Hnode He)
          as [[Hleaf Hp]|[Hint (rest & Hr & Hp)]].
        - exists [theStep x i node e]. split; [done|].
          unfold edgeTotal. rewrite Hleaf. done.
        - exists (theStep x i node e :: rest). split; [done|].
          rewrite pathValue_cons by (by eapply treePath_nonempty).
          destruct (Hrest Hint) as (rest' & Hr' & ->). simplify_eq.
          unfold edgeTotal. rewrite Hint. done. }
      destruct Hpath as (path & Hpath & Hvalue).
      exists node, sel, val, path. split; [done|].
      rewrite !list_lookup_insert_eq by lia.
      split; [done|]. split; [done|]. split; [done|]. split; [done|].
      split; [by rewrite Hvalue|done].
    + eapply built_grows; [exact G'|done|]. apply Hbuilt. lia.
  - apply reads_initialized_snoc; [done|].
    apply Forall_app. split; [done|]. apply Forall_app. split; [done|].
    by repeat constructor.
  - intros j Hj. destruct (decide (j = i)) as [->|Hne].
    + split; apply wrote_app_r, wrote_app_r, wrote_app_r, wrote_here; cbn; tauto.
    + split; apply wrote_app_l; apply Hwrote; lia.
Qed.

Lemma bottomUp_loop (i : nat) :
  forall (st : State) (splitIndicators subModels : list PortElements),
    i <= length (GetInteriorNodes f) ->
    doubles P env0 newPortElements x ->
    bottomUpInv i st splitIndicators subModels ->
    exists st' splitIndicators' subModels',
      foldM (visitBottomUp newPortElements (GetInteriorNodes f))
            (splitIndicators, subModels) (rev (seq 0 i)) st
      = Some ((splitIndicators', subModels'), st')
      /\ bottomUpInv 0 st' splitIndicators' subModels'.
Proof.
  induction i as [|i IH]; intros st splitIndicators subModels Hi Hx Hinv.
  - cbn. by eexists _, _, _.
  - rewrite seq_S, rev_app_distr. cbn [rev app foldM Nat.add].
    destruct (bottomUp_step i st splitIndicators subModels) as
      (st1 & si1 & sm1 & Hrun & Hinv1); [lia|done|done|].
    rewrite (bind_run _ _ _ _ _ Hrun).
    apply IH; [lia|done|done].
Qed.

Lemma int_of_size_t_small (n : nat) :
  (Z.of_nat n < 2 ^ 31)%Z -> int_of_size_t n = Z.of_nat n.
Proof.
  intros Hn. unfold int_of_size_t. cbn zeta.
  rewrite Z.mod_small by lia.
  destruct (Z.ltb_spec (Z.of_nat n) (2 ^ 31)); [done|lia].
Qed.

Lemma bottomUp_spec :
  evaluates P st0 env0 ->
  doubles P env0 newPortElements x ->
  exists st' splitIndicators subModels,
    bottomUp newPortElements (GetInteriorNodes f) st0
    = Some ((splitIndicators, subModels), st')
    /\ bottomUpInv 0 st' splitIndicators subModels.
Proof.
  intros Hev Hx. unfold bottomUp.
  pose proof (wf_size f Hwf) as Hsize.
  rewrite int_of_size_t_small by lia.
  unfold INT_MIN.
  destruct (Z.ltb_spec (Z.of_nat (length (GetInteriorNodes f)) - 1) (- 2 ^ 31));
    [lia|].
  replace (Z.to_nat (Z.of_nat (length (GetInteriorNodes f)) - 1 + 1))
    with (length (GetInteriorNodes f)) by lia.
  apply bottomUp_loop; [done|done|].
  exists env0, []. split; [by apply grows_refl|].
  rewrite !length_replicate. split; [done|]. split; [done|].
  split; [intros j Hj; lia|]. split; [done|]. intros j Hj; lia.
Qed.

End BottomUpLoop.

(** ** The top-down pass *)

Section TopDown.
Context `{ForestTypes}.
Variable P : Prop.

Lemma childIndicators_root (parentEdgeIndex : Z) (edgeIndicators : list PortElements)
    (sel : PortElement) (s : bool) (st : State) (env : Env) :
  evaluates P st env ->
  bools P env [sel] [s] ->
  exists st' env',
    childIndicators true parentEdgeIndex edgeIndicators [sel] st
    = Some (([el (length (modelOf st)) 0 0], [sel]), st')
    /\ grows P st st' env env' []
    /\ bools P env' [el (length (modelOf st)) 0 0] [negb s]
    /\ modelOf st' !! length (modelOf st)
       = Some (UnaryOperationNode [sel] logicalNot).
Proof.
  intros Hev Hsel. unfold childIndicators.
  rewrite (bind_run _ _ _ _ _ (AddNode_run _ _)).
  set (n := UnaryOperationNode [sel] logicalNot).
  rewrite (output_single _ n) by done.
  set (o := [[VBool (negb s)]]).
  assert (Hc : P -> ComputeNode env n = Some o).
  { intros HP. unfold n. cbn [ComputeNode]. rewrite (Hsel HP). done. }
  pose proof (grows_added st env n o Hev Hc) as G.
  eexists _, _. split; [reflexivity|]. split; [exact G|]. split.
  - by apply bools_new.
  - apply added_lookup.
Qed.

Lemma childIndicators_child (parentEdgeIndex : Z) (edgeIndicators : list PortElements)
    (sel parentEl : PortElement) (s b : bool) (st : State) (env : Env) :
  evaluates P st env ->
  bools P env [sel] [s] ->
  edgeIndicators !! size_t_of_int parentEdgeIndex = Some [parentEl] ->
  bools P env [parentEl] [b] ->
  exists st' env',
    childIndicators false parentEdgeIndex edgeIndicators [sel] st
    = Some (([el (length (modelOf st)) 0 0], [el (length (modelOf st)) 0 1]), st')
    /\ grows P st st' env env'
         [Read vec_edgeIndicatorSubModels (size_t_of_int parentEdgeIndex)]
    /\ bools P env' [el (length (modelOf st)) 0 0] [b && negb s]
    /\ bools P env' [el (length (modelOf st)) 0 1] [b && s]
    /\ modelOf st' !! length (modelOf st)
       = Some (MultiplexorNode [parentEl] [sel] 2).
Proof.
  intros Hev Hsel Hparent Hb. unfold childIndicators.
  rewrite (bind_run _ _ _ _ _ (at_run _ _ _ _ _ Hparent)).
  rewrite (bind_run _ _ _ _ _ (AddNode_run _ _)).
  set (ev := Read _ _).
  set (n := MultiplexorNode [parentEl] [sel] 2).
  set (o := [VBool <$> <[indexOfBool s := b]> (replicate 2 false)]).
  assert (Hc : P -> ComputeNode env n = Some o).
  { intros HP. unfold n. cbn [ComputeNode]. rewrite (Hb HP). cbn [mbind option_bind].
    rewrite (Hsel HP). cbn [mbind option_bind].
    rewrite decide_True; [done|]. destruct s; cbn; lia. }
  pose proof (grows_logged st env ev Hev) as G1.
  pose proof (grows_added (logged ev st) env n o (grows_eval _ _ _ _ _ G1) Hc) as G2.
  pose proof (grows_trans _ _ _ _ _ _ _ _ G1 G2) as G.
  eexists _, _. split; [reflexivity|]. split; [exact G|].
  split; [|split].
  - apply (bools_new (logged ev st)); [apply G1|]. by destruct s, b.
  - apply (bools_new (logged ev st)); [apply G1|]. by destruct s, b.
  - apply (added_lookup n (logged ev st)).
Qed.

(** The parent records of one node: positions 0 and 1 in turn. *)
Definition recorded (first : nat) (incoming : list Z) (q : nat) (e : Edge) : list Z :=
  if IsTargetInterior e
  then <[GetTargetNodeIndex e := Z.of_nat (first + q)]> incoming
  else incoming.

Definition parentWrites (e : Edge) : list Access :=
  if IsTargetInterior e
  then [Write vec_incomingEdgeIndices (GetTargetNodeIndex e)] else [].

Lemma recordParent_spec (first q : nat) (incoming : list Z) (e : Edge)
    (st : State) (env : Env) :
  evaluates P st env ->
  (Z.of_nat (first + q) < 2 ^ 31)%Z ->
  (IsTargetInterior e = true -> GetTargetNodeIndex e < length incoming) ->
  exists st',
    recordParent first incoming (q, e) st = Some (recorded first incoming q e, st')
    /\ grows P st st' env env (parentWrites e)
    /\ modelOf st' = modelOf st.
Proof.
  intros Hev Hsmall Hlt. unfold recordParent, recorded, parentWrites.
  destruct (IsTargetInterior e).
  - rewrite (assign_run _ _ _ _ _ (Hlt eq_refl)).
    rewrite int_of_size_t_small by done.
    eexists. split; [done|]. split; [by apply grows_logged|done].
  - eexists. split; [done|]. split; [by apply grows_refl|done].
Qed.

(** One turn of the top-down loop, given what [childIndicators] does. *)
Lemma visitTopDown_spec (interiorNodes : list InteriorNode)
    (splitIndicators edgeIndicators : list PortElements) (incoming : list Z)
    (i first : nat) (node : InteriorNode) (e0 e1 : Edge) (parentEdgeIndex : Z)
    (edgeSelector child1Out child2Out : PortElements)
    (st st2 : State) (env env2 : Env) (events : list Access) :
  evaluates P st env ->
  interiorNodes !! i = Some node ->
  GetOutgoingEdges node = [e0; e1] ->
  GetFirstEdgeIndex node = first ->
  incoming !! i = Some parentEdgeIndex ->
  splitIndicators !! i = Some edgeSelector ->
  childIndicators (parentEdgeIndex =? -1)%Z parentEdgeIndex edgeIndicators
    edgeSelector
    (logged (Read vec_interiorNodeSplitIndicators i)
       (logged (Read vec_incomingEdgeIndices i) st))
  = Some ((child1Out, child2Out), st2) ->
  grows P (logged (Read vec_interiorNodeSplitIndicators i)
             (logged (Read vec_incomingEdgeIndices i) st)) st2 env env2 events ->
  first + 1 < length edgeIndicators ->
  (Z.of_nat (first + 1) < 2 ^ 31)%Z ->
  (forall e, e ∈ [e0; e1] -> IsTargetInterior e = true ->
             GetTargetNodeIndex e < length incoming) ->
  exists st',
    visitTopDown interiorNodes splitIndicators (edgeIndicators, incoming) i st
    = Some ((<[first + 1 := child2Out]> (<[first := child1Out]> edgeIndicators),
             recorded (first) (recorded (first) incoming 0 e0) 1 e1), st')
    /\ grows P st st' env env2
         ([Read vec_incomingEdgeIndices i; Read vec_interiorNodeSplitIndicators i]
          ++ events
          ++ [Write vec_edgeIndicatorSubModels (first);
              Write vec_edgeIndicatorSubModels (first + 1)]
          ++ parentWrites e0 ++ parentWrites e1)
    /\ modelOf st' = modelOf st2.
Proof.
  intros Hev Hnode Hedges Hfirst Hinc Hsel Hchild G Hlen Hsmall Htargets.
  unfold visitTopDown.
  rewrite (bind_run _ _ _ _ _ (at_run _ _ _ _ _ Hinc)).
  rewrite (bind_run _ _ _ _ _ (lift_run _ _ _ Hnode)).
  rewrite (bind_run _ _ _ _ _ (at_run _ _ _ _ _ Hsel)).
  rewrite (bind_run _ _ _ _ _ Hchild).
  rewrite Hfirst, Hedges.
  assert (Hlen0 : first < length edgeIndicators) by lia.
  assert (Hlen1 : first + 1 < length (<[first := child1Out]> edgeIndicators))
    by (rewrite length_insert; lia).
  rewrite (bind_run _ _ _ _ _ (assign_run _ _ _ _ _ Hlen0)).
  rewrite (bind_run _ _ _ _ _ (assign_run _ _ _ _ _ Hlen1)).
  set (w0 := Write vec_edgeIndicatorSubModels (first)).
  set (w1 := Write vec_edgeIndicatorSubModels (first + 1)).
  pose proof (grows_logged st env (Read vec_incomingEdgeIndices i) Hev) as Ga.
  pose proof (grows_logged _ env (Read vec_interiorNodeSplitIndicators i)
                (grows_eval _ _ _ _ _ Ga)) as Gb.
  pose proof (grows_logged st2 env2 w0 (grows_eval _ _ _ _ _ G)) as G3.
  pose proof (grows_logged _ env2 w1 (grows_eval _ _ _ _ _ G3)) as G4.
  set (st4 := logged w1 (logged w0 st2)) in *.
  destruct (recordParent_spec (first) 0 incoming e0 st4 env2) as (st5 & Hr0 & G5 & Hm5).
  { apply G4. }
  { lia. }
  { apply Htargets. by left. }
  destruct (recordParent_spec (first) 1 (recorded (first) incoming 0 e0) e1 st5 env2)
    as (st6 & Hr1 & G6 & Hm6).
  { apply G5. }
  { lia. }
  { intros Hint. unfold recorded. destruct (IsTargetInterior e0);
      [rewrite length_insert|]; apply Htargets; [by right; left|done| by right; left|done]. }
  assert (Hfold : foldM (recordParent (first)) incoming (imap pair [e0; e1]) st4
                  = Some (recorded (first) (recorded (first) incoming 0 e0) 1 e1, st6)).
  { cbn [imap foldM]. rewrite (bind_run _ _ _ _ _ Hr0).
    change ((pair ∘ S) 0 e1) with (1, e1).
    by rewrite (bind_run _ _ _ _ _ Hr1). }
  rewrite (bind_run _ _ _ _ _ Hfold).
  eexists. split; [reflexivity|]. split; [|by rewrite Hm6, Hm5].
  pose proof (grows_trans _ _ _ _ _ _ _ _ Ga
               (grows_trans _ _ _ _ _ _ _ _ Gb
                 (grows_trans _ _ _ _ _ _ _ _ G
                   (grows_trans _ _ _ _ _ _ _ _ G3
                     (grows_trans _ _ _ _ _ _ _ _ G4
                       (grows_trans _ _ _ _ _ _ _ _ G5 G6)))))) as Gall.
  cbn [app] in Gall. cbn [app]. 
  replace (events ++ w0 :: w1 :: parentWrites e0 ++ parentWrites e1)
    with (events ++ [w0] ++ [w1] ++ parentWrites e0 ++ parentWrites e1) by done.
  exact Gall.
Qed.

End TopDown.
(** ** The top-down loop *)

Section TopDownLoop.
Context `{ForestTypes}.
Variable P : Prop.
Variable f : ForestPredictor.
Variable x : list double.
Variable st0 : State.
Variable env0 : Env.
Variable before : list Access.
Variable splitIndicators : list PortElements.
Variable indicator : list bool.
Hypothesis Hwf : wf_forest f.
Hypothesis Hindicator : GetEdgeIndicatorVector f x = Some indicator.
Hypothesis Hsplit :
  forall j, j < length (GetInteriorNodes f) ->
    exists node sel,
      GetInteriorNodes f !! j = Some node
      /\ splitIndicators !! j = Some [sel]
      /\ bools P env0 [sel] [splitPredict (GetSplitRule node) x].
Hypothesis Hbefore : reads_initialized [] before = true.
Hypothesis Hbefore_split :
  forall j, j < length (GetInteriorNodes f) ->
    wrote vec_interiorNodeSplitIndicators j before.

(** The entry of the edge at position [c] of the node [p] references one
    element, and that element evaluates to the indicator of the edge. *)
Definition indicates (env : Env) (edgeIndicators : list PortElements)
    (p c : nat) : Prop :=
  exists elc b,
    edgeIndicators !! (firstOf f p + c) = Some [elc]
    /\ indicator !! (firstOf f p + c) = Some b
    /\ bools P env [elc] [b].

(** How the entries of the node [p] are wired: to a negation node and to the
    split rule output for a root, to the two outputs of one multiplexor that
    reads the entry of the incoming edge and the split rule output
    otherwise. *)
Definition wired (m : list Node) (edgeIndicators : list PortElements)
    (p : nat) : Prop :=
  exists sel,
    splitIndicators !! p = Some [sel]
    /\ ((p ∈ GetRootIndices f
         /\ exists nid,
              m !! nid = Some (UnaryOperationNode [sel] logicalNot)
              /\ edgeIndicators !! (firstOf f p) = Some [el nid 0 0]
              /\ edgeIndicators !! (firstOf f p + 1) = Some [sel])
        \/ (exists p0 q0 parentEl nid,
              parent f p p0 q0
              /\ edgeIndicators !! (firstOf f p0 + q0) = Some [parentEl]
              /\ m !! nid = Some (MultiplexorNode [parentEl] [sel] 2)
              /\ edgeIndicators !! (firstOf f p) = Some [el nid 0 0]
              /\ edgeIndicators !! (firstOf f p + 1) = Some [el nid 0 1])).

(** The record of the incoming edge of [n] once the nodes below [i] have
    been visited. *)
Definition records (i : nat) (incoming : list Z) : Prop :=
  forall n z, incoming !! n = Some z ->
    (forall p q, parent f n p q -> p < i -> z = Z.of_nat (firstOf f p + q))
    /\ ((forall p q, parent f n p q -> i <= p) -> z = (-1)%Z).

Definition topDownInv (i : nat) (st : State) (edgeIndicators : list PortElements)
    (incoming : list Z) : Prop :=
  exists env events,
    grows P st0 st env0 env events
    /\ length edgeIndicators = 2 * length (GetInteriorNodes f)
    /\ length incoming = length (GetInteriorNodes f)
    /\ (forall p c, p < i -> c < 2 -> indicates env edgeIndicators p c)
    /\ (forall p, p < i -> wired (modelOf st) edgeIndicators p)
    /\ records i incoming
    /\ reads_initialized [] (before ++ events) = true
    /\ (forall p c, p < i -> c < 2 ->
          wrote vec_edgeIndicatorSubModels (firstOf f p + c) (before ++ events)).

Lemma parent_edge (n i q : nat) (node : InteriorNode) (e : Edge) :
  GetInteriorNodes f !! i = Some node ->
  GetOutgoingEdges node !! q = Some e ->
  parent f n i q <-> IsTargetInterior e = true /\ GetTargetNodeIndex e = n.
Proof using Type.
  intros Hnode He. split.
  - intros (node' & e' & Hnode' & He' & Hint & Ht). by simplify_eq.
  - intros [Hint Ht]. by exists node, e.
Qed.

Lemma records_step (i : nat) (node : InteriorNode) (e0 e1 : Edge)
    (incoming : list Z) :
  GetInteriorNodes f !! i = Some node ->
  GetOutgoingEdges node = [e0; e1] ->
  length incoming = length (GetInteriorNodes f) ->
  records i incoming ->
  records (S i) (recorded (firstOf f i) (recorded (firstOf f i) incoming 0 e0) 1 e1).
Proof using Hwf.
  intros Hnode Hedges Hlen Hrec n z' Hz'.
  assert (He0 : GetOutgoingEdges node !! 0 = Some e0) by (by rewrite Hedges).
  assert (He1 : GetOutgoingEdges node !! 1 = Some e1) by (by rewrite Hedges).
  pose proof (parent_edge n i 0 node e0 Hnode He0) as Hp0.
  pose proof (parent_edge n i 1 node e1 Hnode He1) as Hp1.
  assert (Hq : forall q, parent f n i q -> q = 0 \/ q = 1).
  { intros q Hpar. destruct (wf_parent_lt f Hwf _ _ _ Hpar) as [_ Hq]. lia. }
  (* which of the two edges of [i], if any, leads to [n] *)
  destruct (decide (IsTargetInterior e1 = true /\ GetTargetNodeIndex e1 = n))
    as [[Hint1 Ht1]|Hno1].
  { assert (Hpar : parent f n i 1) by (by apply Hp1).
    assert (z' = Z.of_nat (firstOf f i + 1)) as ->.
    { unfold recorded at 1 in Hz'. rewrite Hint1, Ht1 in Hz'.
      apply list_lookup_insert_Some in Hz' as [(_ & <- & _)|[? _]]; done. }
    split.
    - intros p q Hpar' _.
      by destruct (wf_parent_unique f Hwf _ _ _ _ _ Hpar Hpar') as [<- <-].
    - intros Hall. specialize (Hall _ _ Hpar). lia. }
  assert (Hz1 : recorded (firstOf f i) incoming 0 e0 !! n = Some z').
  { unfold recorded at 1 in Hz'. destruct (IsTargetInterior e1); [|done].
    rewrite list_lookup_insert_ne in Hz'; [done|]. intros Heq. by apply Hno1. }
  destruct (decide (IsTargetInterior e0 = true /\ GetTargetNodeIndex e0 = n))
    as [[Hint0 Ht0]|Hno0].
  { assert (Hpar : parent f n i 0) by (by apply Hp0).
    assert (z' = Z.of_nat (firstOf f i + 0)) as ->.
    { unfold recorded in Hz1. rewrite Hint0, Ht0 in Hz1.
      apply list_lookup_insert_Some in Hz1 as [(_ & <- & _)|[? _]]; done. }
    split.
    - intros p q Hpar' _.
      by destruct (wf_parent_unique f Hwf _ _ _ _ _ Hpar Hpar') as [<- <-].
    - intros Hall. specialize (Hall _ _ Hpar). lia. }
  assert (Hz : incoming !! n = Some z').
  { unfold recorded in Hz1. destruct (IsTargetInterior e0); [|done].
    rewrite list_lookup_insert_ne in Hz1; [done|]. intros Heq. by apply Hno0. }
  assert (Hnot : forall q, ~ parent f n i q).
  { intros q Hpar. destruct (Hq q Hpar) as [-> | ->]; tauto. }
  destruct (Hrec n z' Hz) as [Hsome Hnone]. split.
  - intros p q Hpar Hp. apply Hsome; [done|].
    destruct (decide (p = i)) as [->|]; [by destruct (Hnot q)|lia].
  - intros Hall. apply Hnone. intros p q Hpar. specialize (Hall p q Hpar). lia.
Qed.

Lemma indicates_keep (env env' : Env) (edgeIndicators : list PortElements)
    (i p c : nat) (a b : PortElements) :
  env `prefix_of` env' -> p < i -> i < length (GetInteriorNodes f) -> c < 2 ->
  indicates env edgeIndicators p c ->
  indicates env' (<[firstOf f i + 1 := b]> (<[firstOf f i := a]> edgeIndicators)) p c.
Proof.
  intros Hpre Hp Hlt Hc (elc & v & He & Hi & Hr). exists elc, v.
  pose proof (wf_first_apart f Hwf p i).
  rewrite !list_lookup_insert_ne by lia.
  split; [done|]. split; [done|]. by eapply bools_grows.
Qed.

Lemma wired_keep (m m' : list Node) (edgeIndicators : list PortElements)
    (i p : nat) (a b : PortElements) :
  m `prefix_of` m' -> p < i -> i < length (GetInteriorNodes f) ->
  wired m edgeIndicators p ->
  wired m' (<[firstOf f i + 1 := b]> (<[firstOf f i := a]> edgeIndicators)) p.
Proof.
  intros Hpre Hp Hi (sel & Hsel & Hcase). exists sel. split; [done|].
  pose proof (wf_first_apart f Hwf p i) as Hapart.
  destruct Hcase as [(Hroot & nid & Hn & H0 & H1)
                    |(p0 & q0 & pel & nid & Hpar & Hpe & Hn & H0 & H1)].
  - left. split; [done|]. exists nid.
    rewrite !list_lookup_insert_ne by lia.
    split; [by eapply lookup_grows|done].
  - right. exists p0, q0, pel, nid.
    destruct (wf_parent_lt f Hwf _ _ _ Hpar) as [Hlt Hq].
    pose proof (wf_first_apart f Hwf p0 i).
    rewrite !list_lookup_insert_ne by lia.
    split; [done|]. split; [done|]. split; [by eapply lookup_grows|done].
Qed.

(** The invariant advances over a node whose two entries were written with
    single elements that evaluate to the indicators of its edges. *)
Lemma topDown_advance (i : nat) (node : InteriorNode) (e0 e1 : Edge)
    (st st' : State) (env env' : Env) (events events' : list Access)
    (edgeIndicators : list PortElements) (incoming : list Z)
    (c0 c1 : PortElement) :
  GetInteriorNodes f !! i = Some node ->
  GetOutgoingEdges node = [e0; e1] ->
  grows P st0 st env0 env events ->
  grows P st st' env env' events' ->
  length edgeIndicators = 2 * length (GetInteriorNodes f) ->
  length incoming = length (GetInteriorNodes f) ->
  (forall p c, p < i -> c < 2 -> indicates env edgeIndicators p c) ->
  (forall p, p < i -> wired (modelOf st) edgeIndicators p) ->
  records i incoming ->
  reads_initialized [] (before ++ events) = true ->
  (forall p c, p < i -> c < 2 ->
     wrote vec_edgeIndicatorSubModels (firstOf f p + c) (before ++ events)) ->
  let edgeIndicators' := <[firstOf f i + 1 := [c1]]> (<[firstOf f i := [c0]]> edgeIndicators) in
  (exists b0, indicator !! (firstOf f i) = Some b0 /\ bools P env' [c0] [b0]) ->
  (exists b1, indicator !! (firstOf f i + 1) = Some b1 /\ bools P env' [c1] [b1]) ->
  wired (modelOf st') edgeIndicators' i ->
  Forall (fun event => initialized (before ++ events) event = true) events' ->
  In (Write vec_edgeIndicatorSubModels (firstOf f i)) events' ->
  In (Write vec_edgeIndicatorSubModels (firstOf f i + 1)) events' ->
  topDownInv (S i) st' edgeIndicators'
    (recorded (firstOf f i) (recorded (firstOf f i) incoming 0 e0) 1 e1).
Proof.
  intros Hnode Hedges G G' Hl1 Hl2 Hindic Hwired Hrec Hinit Hwrote
         edgeIndicators' (b0 & Hi0 & Hr0) (b1 & Hi1 & Hr1) Hwi Hev' Hw0 Hw1.
  subst edgeIndicators'.
  assert (Hi : i < length (GetInteriorNodes f)) by (by eapply lookup_lt_Some).
  exists env', (events ++ events').
  split; [by eapply grows_trans|].
  split; [by rewrite !length_insert|].
  split.
  { unfold recorded. repeat (destruct (IsTargetInterior _));
      by rewrite ?length_insert. }
  split; [|split; [|split; [|split]]].
  - intros p c Hp Hc. destruct (decide (p = i)) as [->|Hne].
    + pose proof (wf_first_lt f Hwf i 1 Hi).
      destruct c as [|[|]]; [| |lia].
      * exists c0, b0. rewrite Nat.add_0_r.
        rewrite list_lookup_insert_ne by lia.
        rewrite list_lookup_insert_eq by lia. done.
      * exists c1, b1.
        rewrite list_lookup_insert_eq by (rewrite length_insert; lia). done.
    + apply (indicates_keep env); [apply G'|lia|done|done|]. apply Hindic; [lia|done].
  - intros p Hp. destruct (decide (p = i)) as [->|Hne]; [done|].
    apply (wired_keep (modelOf st)); [apply G'|lia|done|]. apply Hwired. lia.
  - by apply (records_step i node).
  - rewrite app_assoc. by apply reads_initialized_snoc.
  - intros p c Hp Hc. rewrite app_assoc. destruct (decide (p = i)) as [->|Hne].
    + apply wrote_app_r, wrote_here.
      destruct c as [|[|]]; [by rewrite Nat.add_0_r|done|lia].
    + apply wrote_app_l. apply Hwrote; [lia|done].
Qed.

Lemma parentWrites_initialized (events : list Access) (e : Edge) :
  Forall (fun event => initialized events event = true) (parentWrites e).
Proof. unfold parentWrites. destruct (IsTargetInterior e); by repeat constructor. Qed.

Lemma size_t_of_int_nat (n : nat) :
  (Z.of_nat n < 2 ^ 31)%Z -> size_t_of_int (Z.of_nat n) = n.
Proof.
  intros Hn. unfold size_t_of_int. rewrite Z.mod_small by lia. lia.
Qed.

Lemma topDown_step (i : nat) (st : State) (edgeIndicators : list PortElements)
    (incoming : list Z) :
  i < length (GetInteriorNodes f) ->
  topDownInv i st edgeIndicators incoming ->
  exists st' edgeIndicators' incoming',
    visitTopDown (GetInteriorNodes f) splitIndicators (edgeIndicators, incoming) i st
    = Some ((edgeIndicators', incoming'), st')
    /\ topDownInv (S i) st' edgeIndicators' incoming'.
Proof.
  intros Hi (env & events & G & Hl1 & Hl2 & Hindic & Hwired & Hrec & Hinit & Hwrote).
  destruct (Hsplit i Hi) as (node & sel & Hnode & Hsel & Hrsel0).
  destruct (wf_node f Hwf i node Hnode) as [(e0 & e1 & Hedges) Hfirst].
  pose proof (wf_size f Hwf) as Hsize.
  assert (Hfl : firstOf f i + 1 < 2 * length (GetInteriorNodes f))
    by (apply wf_first_lt; [done..|lia]).
  set (s := splitPredict (GetSplitRule node) x) in *.
  assert (Hrsel : bools P env [sel] [s]).
  { eapply bools_grows; [apply G|done]. }
  destruct (lookup_lt_is_Some_2 incoming i) as [z Hz]; [lia|].
  set (st1 := logged (Read vec_interiorNodeSplitIndicators i)
                (logged (Read vec_incomingEdgeIndices i) st)).
  assert (Hev : evaluates P st env) by apply G.
  assert (Hev1 : evaluates P st1 env) by exact Hev.
  assert (Htargets : forall e, e ∈ [e0; e1] -> IsTargetInterior e = true ->
                               GetTargetNodeIndex e < length incoming).
  { intros e He Hint. apply list_elem_of_lookup in He as [q He].
    rewrite <- Hedges in He. rewrite Hl2.
    by apply (wf_edge f Hwf i q node e). }
  assert (Hreads : forall evs,
            Forall (fun event => initialized (before ++ events) event = true) evs ->
            Forall (fun event => initialized (before ++ events) event = true)
              ([Read vec_incomingEdgeIndices i;
                Read vec_interiorNodeSplitIndicators i]
               ++ evs
               ++ [Write vec_edgeIndicatorSubModels (firstOf f i);
                   Write vec_edgeIndicatorSubModels (firstOf f i + 1)]
               ++ parentWrites e0 ++ parentWrites e1)).
  { intros evs Hevs. apply Forall_app. split.
    - constructor; [done|]. constructor; [|done].
      apply initialized_read, wrote_app_l. by apply Hbefore_split.
    - apply Forall_app. split; [done|]. apply Forall_app. split.
      + by repeat constructor.
      + apply Forall_app. split; apply parentWrites_initialized. }
  assert (Hin : forall evs,
            In (Write vec_edgeIndicatorSubModels (firstOf f i))
               ([Read vec_incomingEdgeIndices i;
                 Read vec_interiorNodeSplitIndicators i]
                ++ evs
                ++ [Write vec_edgeIndicatorSubModels (firstOf f i);
                    Write vec_edgeIndicatorSubModels (firstOf f i + 1)]
                ++ parentWrites e0 ++ parentWrites e1)
            /\ In (Write vec_edgeIndicatorSubModels (firstOf f i + 1))
               ([Read vec_incomingEdgeIndices i;
                 Read vec_interiorNodeSplitIndicators i]
                ++ evs
                ++ [Write vec_edgeIndicatorSubModels (firstOf f i);
                    Write vec_edgeIndicatorSubModels (firstOf f i + 1)]
                ++ parentWrites e0 ++ parentWrites e1)).
  { intros evs. split.
    - apply in_or_app. right. apply in_or_app. right. by left.
    - apply in_or_app. right. apply in_or_app. right. right. by left. }
  destruct (wf_root_or_child f Hwf i Hi) as [[Hroot Hnone]|[Hnroot (p & q & Hpar)]].
  - (* a root: no edge leads to it *)
    assert (z = (-1)%Z) as ->.
    { apply (Hrec i _ Hz). intros p q Hpar. by destruct (Hnone p q). }
    destruct (childIndicators_root P (-1) edgeIndicators sel s st1 env Hev1 Hrsel)
      as (st2 & env2 & Hchild & G2 & Hr0 & Hm).
    destruct (visitTopDown_spec P (GetInteriorNodes f) splitIndicators edgeIndicators
                incoming i (firstOf f i) node e0 e1 (-1) [sel] _ [sel] st st2 env env2 []
                Hev Hnode Hedges Hfirst Hz Hsel Hchild G2)
      as (st' & Hrun & G' & Hm'); [lia|lia|done|].
    eexists _, _, _. split; [exact Hrun|].
    destruct (indicator_root f x Hwf indicator i node Hindicator Hroot Hnode)
      as [Hi0 Hi1].
    eapply (topDown_advance i node e0 e1 st st' env env2 events); try done.
    + exists (negb s). done.
    + exists s. split; [done|]. eapply bools_grows; [apply G2|done].
    + exists sel. split; [done|]. left. split; [done|].
      exists (length (modelOf st1)). rewrite Hm'. split; [done|].
      rewrite list_lookup_insert_ne by lia.
      rewrite list_lookup_insert_eq by lia.
      rewrite list_lookup_insert_eq by (rewrite length_insert; lia). done.
    + by apply Hreads.
    + apply (Hin []).
    + apply (Hin []).
  - (* the child of the edge [q] of the node [p] *)
    destruct (wf_parent_lt f Hwf _ _ _ Hpar) as [Hp Hq].
    assert (Hpl : firstOf f p + q < 2 * length (GetInteriorNodes f))
      by (apply wf_first_lt; [done|lia|done]).
    assert (Hpi : firstOf f p + 1 < firstOf f i \/ firstOf f i + 1 < firstOf f p)
      by (apply wf_first_apart; [done|lia|done|lia]).
    assert (z = Z.of_nat (firstOf f p + q)) as ->.
    { destruct (Hrec i _ Hz) as [Hsome _]. apply (Hsome p q Hpar). lia. }
    destruct (Hindic p q) as (parentEl & b & Hpe & Hib & Hrb); [lia|done|].
    assert (Hz' : size_t_of_int (Z.of_nat (firstOf f p + q)) = firstOf f p + q).
    { apply size_t_of_int_nat. lia. }
    destruct (childIndicators_child P (Z.of_nat (firstOf f p + q)) edgeIndicators sel
                parentEl s b st1 env Hev1 Hrsel)
      as (st2 & env2 & Hchild & G2 & Hr0 & Hr1 & Hm); [by rewrite Hz'|done|].
    assert (Hne : (Z.of_nat (firstOf f p + q) =? -1)%Z = false) by (apply Z.eqb_neq; lia).
    rewrite <- Hne in Hchild.
    destruct (visitTopDown_spec P (GetInteriorNodes f) splitIndicators edgeIndicators
                incoming i (firstOf f i) node e0 e1 _ [sel] _ _ st st2 env env2 _
                Hev Hnode Hedges Hfirst Hz Hsel Hchild G2)
      as (st' & Hrun & G' & Hm'); [lia|lia|done|].
    eexists _, _, _. split; [exact Hrun|].
    destruct (indicator_child f x Hwf indicator i p q node b Hindicator Hpar Hnode Hib)
      as [Hi0 Hi1].
    eapply (topDown_advance i node e0 e1 st st' env env2 events); try done.
    + exists (b && negb s). done.
    + exists (b && s). done.
    + exists sel. split; [done|]. right.
      exists p, q, parentEl, (length (modelOf st1)). rewrite Hm'.
      split; [done|].
      rewrite !list_lookup_insert_ne by lia. split; [done|]. split; [done|].
      rewrite list_lookup_insert_eq by lia.
      rewrite list_lookup_insert_eq by (rewrite length_insert; lia). done.
    + apply Hreads. constructor; [|done].
      rewrite Hz'. apply initialized_read. apply Hwrote; [lia|done].
    + apply Hin.
    + apply Hin.
Qed.

Lemma topDown_loop (k : nat) :
  forall (i : nat) (st : State) (edgeIndicators : list PortElements)
         (incoming : list Z),
    i + k = length (GetInteriorNodes f) ->
    topDownInv i st edgeIndicators incoming ->
    exists st' edgeIndicators' incoming',
      foldM (visitTopDown (GetInteriorNodes f) splitIndicators)
            (edgeIndicators, incoming) (seq i k) st
      = Some ((edgeIndicators', incoming'), st')
      /\ topDownInv (length (GetInteriorNodes f)) st' edgeIndicators' incoming'.
Proof.
  induction k as [|k IH]; intros i st edgeIndicators incoming Hik Hinv.
  - cbn. rewrite Nat.add_0_r in Hik. subst i. by eexists _, _, _.
  - cbn [seq foldM].
    destruct (topDown_step i st edgeIndicators incoming) as
      (st1 & ei1 & inc1 & Hrun & Hinv1); [lia|done|].
    rewrite (bind_run _ _ _ _ _ Hrun).
    apply IH; [lia|done].
Qed.

(** A vector of single elements concatenates to one element per entry. *)
Lemma concat_singletons (env : Env) (entries : list PortElements) :
  forall bs : list bool,
    length entries = length bs ->
    (forall e b, bs !! e = Some b ->
       exists elc, entries !! e = Some [elc] /\ bools P env [elc] [b]) ->
    bools P env (concat entries) bs
    /\ length (concat entries) = length bs.
Proof.
  induction entries as [|entry entries IH]; intros bs Hlen Hall.
  - destruct bs; [done|]. done.
  - destruct bs as [|b bs]; [done|].
    destruct (Hall 0 b eq_refl) as (elc & [= ->] & Hr).
    destruct (IH bs) as [Hrest Hlrest].
    + cbn in Hlen. lia.
    + intros e b' Hb'. apply (Hall (S e) b' Hb').
    + cbn [concat]. split.
      * by apply (bools_app env [elc] (concat entries) [b] bs).
      * cbn. by rewrite Hlrest.
Qed.

Lemma topDown_spec :
  evaluates P st0 env0 ->
  exists st' env' events edgeIndicators,
    topDown f splitIndicators st0 = Some (concat edgeIndicators, st')
    /\ grows P st0 st' env0 env' events
    /\ reads_initialized [] (before ++ events) = true
    /\ length edgeIndicators = 2 * length (GetInteriorNodes f)
    /\ (forall p c, p < length (GetInteriorNodes f) -> c < 2 ->
          indicates env' edgeIndicators p c)
    /\ (forall p, p < length (GetInteriorNodes f) ->
          wired (modelOf st') edgeIndicators p)
    /\ bools P env' (concat edgeIndicators) indicator
    /\ length (concat edgeIndicators) = NumEdges f.
Proof.
  intros Hev. unfold topDown.
  destruct (topDown_loop (length (GetInteriorNodes f)) 0 st0
              (replicate (NumEdges f) []) (replicate (length (GetInteriorNodes f)) (-1)%Z))
    as (st' & ei & inc & Hrun & Hinv); [done| |].
  { exists env0, []. split; [by apply grows_refl|].
    rewrite !length_replicate, (wf_NumEdges f Hwf).
    split; [done|]. split; [done|]. split; [intros; lia|]. split; [intros; lia|].
    split; [|split; [by rewrite app_nil_r|intros; lia]].
    intros n z Hz. apply lookup_replicate in Hz as [-> _].
    split; [intros; lia|done]. }
  rewrite (bind_run _ _ _ _ _ Hrun).
  destruct Hinv as (env' & events & G & Hl1 & Hl2 & Hindic & Hwired & _ & Hinit & _).
  exists st', env', events, ei. split; [done|]. split; [done|]. split; [done|].
  split; [done|]. split; [done|]. split; [done|].
  destruct (GetEdgeIndicatorVector_spec f x Hwf) as (ind' & Hind' & Hlen & _).
  simplify_eq.
  rewrite (wf_NumEdges f Hwf), <- Hlen.
  apply concat_singletons; [lia|].
  intros e b Hb.
  assert (He : e < 2 * length (GetInteriorNodes f)).
  { rewrite <- Hlen. by eapply lookup_lt_Some. }
  destruct (wf_first_cover f Hwf e He) as (p & c & Hp & Hc & ->).
  destruct (Hindic p c Hp Hc) as (elc & b' & Hentry & Hb' & Hr).
  simplify_eq. eauto.
Qed.

End TopDownLoop.

(** ** Assembly *)

Section Assembly.
Context `{ForestTypes}.
Variable P : Prop.

Definition loggedAll (events : list Access) (st : State) : State :=
  {| transformer := transformer st; accesses := accesses st ++ events |}.

Lemma loggedAll_nil (st : State) : loggedAll [] st = st.
Proof. unfold loggedAll. rewrite app_nil_r. by destruct st. Qed.

Lemma loggedAll_cons (event : Access) (events : list Access) (st : State) :
  loggedAll events (logged event st) = loggedAll (event :: events) st.
Proof. unfold loggedAll, logged. cbn. by rewrite <- app_assoc. Qed.

Lemma grows_loggedAll (st : State) (env : Env) (events : list Access) :
  evaluates P st env -> grows P st (loggedAll events st) env env events.
Proof. intros He. by split. Qed.

(** The loop over the roots: the entries of the roots, concatenated in the
    order of [GetRootIndices]. *)
Lemma appendTrees_run (subModels : list PortElements) (roots : list nat) :
  forall (acc : PortElements) (st : State) (entries : list PortElements),
    Forall2 (fun r entry => subModels !! r = Some entry) roots entries ->
    foldM (appendTree subModels) acc roots st
    = Some (acc ++ concat entries,
            loggedAll (Read vec_interiorNodeSubModels <$> roots) st).
Proof.
  induction roots as [|r roots IH]; intros acc st entries Hall.
  - apply Forall2_nil_inv_l in Hall as ->. cbn.
    by rewrite app_nil_r, loggedAll_nil.
  - apply Forall2_cons_inv_l in Hall as (entry & entries' & Hr & Hall & ->).
    cbn [foldM]. unfold appendTree at 1.
    rewrite (bind_run _ _ _ _ (acc ++ entry) (bind_run _ _ _ _ _ (at_run _ _ _ _ _ Hr))).
    rewrite (IH _ _ _ Hall). cbn [concat fmap list_fmap].
    by rewrite loggedAll_cons, app_assoc.
Qed.

Lemma appendTrees_inv (subModels : list PortElements) (roots : list nat) :
  forall (acc trees : PortElements) (st st' : State),
    foldM (appendTree subModels) acc roots st = Some (trees, st') ->
    exists entries,
      Forall2 (fun r entry => subModels !! r = Some entry) roots entries
      /\ trees = acc ++ concat entries
      /\ st' = loggedAll (Read vec_interiorNodeSubModels <$> roots) st.
Proof.
  induction roots as [|r roots IH]; intros acc trees st st' Hrun.
  - cbn in Hrun. injection Hrun as <- <-. exists []. split; [constructor|].
    by rewrite app_nil_r, loggedAll_nil.
  - cbn [foldM] in Hrun.
    apply bind_inv in Hrun as (acc1 & st1 & Hstep & Hrest).
    unfold appendTree in Hstep.
    apply bind_inv in Hstep as (entry & st1' & Hat & Hret).
    apply at_inv in Hat as [Hr ->]. injection Hret as <- <-.
    apply IH in Hrest as (entries & Hall & -> & ->).
    exists (entry :: entries). split; [by constructor|].
    cbn [concat fmap list_fmap]. by rewrite loggedAll_cons, app_assoc.
Qed.

(** The state after assembly, given the state before and the tree
    sub-models. *)
Definition assembled (this : ForestNodeObject) (trees indicators : PortElements)
    (st : State) : State :=
  let biasId := length (modelOf st) in
  mapped (_edgeIndicatorVector this) indicators
    (mapped (_treeOutputs this) trees
       (mapped (_output this) [el (S biasId) 0 0]
          (added (SumNode (trees ++ [el biasId 0 0]))
             (added (ConstantNode [GetBias (_forest this)]) st)))).

Lemma assemble_run (this : ForestNodeObject) (subModels : list PortElements)
    (indicators : PortElements) (st : State) (entries : list PortElements) :
  Forall2 (fun r entry => subModels !! r = Some entry)
          (GetRootIndices (_forest this)) entries ->
  assemble this subModels indicators st
  = Some (tt, assembled this (concat entries) indicators
                (loggedAll (Read vec_interiorNodeSubModels
                              <$> GetRootIndices (_forest this)) st)).
Proof.
  intros Hall. unfold assemble.
  rewrite (bind_run _ _ _ _ _ (appendTrees_run _ _ _ _ _ Hall)).
  cbn [app].
  rewrite (bind_run _ _ _ _ _ (AddNode_run _ _)).
  rewrite (output_single _ (ConstantNode _)) by done.
  rewrite (bind_run _ _ _ _ _ (AddNode_run _ _)).
  rewrite (output_single _ (SumNode _)) by done.
  rewrite (bind_run _ _ _ _ _ (MapNodeOutput_run _ _ _)).
  rewrite (bind_run _ _ _ _ _ (MapNodeOutput_run _ _ _)).
  rewrite MapNodeOutput_run. unfold assembled.
  assert (Hl : length (modelOf (added (ConstantNode [GetBias (_forest this)])
                 (loggedAll (Read vec_interiorNodeSubModels
                               <$> GetRootIndices (_forest this)) st)))
               = S (length (modelOf (loggedAll (Read vec_interiorNodeSubModels
                               <$> GetRootIndices (_forest this)) st)))).
  { unfold added. unfold modelOf at 1. cbn [transformer model].
    rewrite length_app. cbn. lia. }
  by rewrite Hl.
Qed.

Lemma assemble_inv (this : ForestNodeObject) (subModels : list PortElements)
    (indicators : PortElements) (st st' : State) :
  assemble this subModels indicators st = Some (tt, st') ->
  exists entries,
    Forall2 (fun r entry => subModels !! r = Some entry)
            (GetRootIndices (_forest this)) entries
    /\ st' = assembled this (concat entries) indicators
               (loggedAll (Read vec_interiorNodeSubModels
                             <$> GetRootIndices (_forest this)) st).
Proof.
  intros Hrun. pose proof Hrun as Hrun'. unfold assemble in Hrun'.
  apply bind_inv in Hrun' as (trees & st1 & Hloop & _).
  apply appendTrees_inv in Hloop as (entries & Hall & _ & _).
  exists entries. split; [done|].
  rewrite (assemble_run _ _ _ _ _ Hall) in Hrun. by injection Hrun.
Qed.

(** The assembled model evaluates: the sum node adds the tree values and
    the bias. *)
Lemma assembled_evaluates (this : ForestNodeObject) (trees indicators : PortElements)
    (st : State) (env : Env) (values : list double) :
  evaluates P st env ->
  doubles P env trees values ->
  exists env',
    evaluates P (assembled this trees indicators st) env'
    /\ env `prefix_of` env'
    /\ doubles P env' [el (S (length (modelOf st))) 0 0]
         [fold_left dadd (values ++ [GetBias (_forest this)]) dzero].
Proof.
  intros Hev Htrees.
  set (n1 := ConstantNode [GetBias (_forest this)]).
  set (o1 := [[VDouble (GetBias (_forest this))]]).
  assert (Hc1 : P -> ComputeNode env n1 = Some o1) by done.
  pose proof (grows_added st env n1 o1 Hev Hc1) as G1.
  set (n2 := SumNode (trees ++ [el (length (modelOf st)) 0 0])).
  set (total := fold_left dadd (values ++ [GetBias (_forest this)]) dzero).
  assert (Hbias : doubles P (env ++ [o1]) [el (length (modelOf st)) 0 0]
                    [GetBias (_forest this)]) by (by apply doubles_new).
  assert (Hc2 : P -> ComputeNode (env ++ [o1]) n2 = Some [[VDouble total]]).
  { intros HP. unfold n2. cbn [ComputeNode].
    rewrite (readDoubles_app _ _ _ values [GetBias (_forest this)]).
    - done.
    - apply readDoubles_prefix. by apply Htrees.
    - by apply Hbias. }
  pose proof (grows_added _ _ n2 _ (grows_eval _ _ _ _ _ G1) Hc2) as G2.
  eexists. split; [apply G2|]. split.
  - etrans; [apply G1|apply G2].
  - replace (S (length (modelOf st))) with (length (modelOf (added n1 st))).
    + apply doubles_new; [apply G1|done].
    + unfold added, modelOf. cbn. rewrite length_app. cbn. lia.
Qed.

End Assembly.
(** ** RefineNode on a well-formed forest *)

Section Refinement.
Context `{ForestTypes}.
Variable P : Prop.
Variable this : ForestNodeObject.
Variable x : list double.
Variable newPortElements : PortElements.
Variable st : State.
Variable env0 : Env.
Hypothesis Hwf : wf_forest (_forest this).
Hypothesis Htransform :
  TransformPortElements (_input this) st = Some (newPortElements, st).
Hypothesis Hev : evaluates P st env0.
Hypothesis Hx : doubles P env0 newPortElements x.

(** Everything the proofs below need to know about the state RefineNode
    returns. *)
Record refined (st' : State) (env' : Env) (events : list Access)
    (paths : list (list PathStep)) (indicator : list bool)
    (splitIndicators edgeIndicators : list PortElements)
    (trees : PortElements) (total : PortElement) : Prop := {
  refined_run : RefineNode this st = Some (tt, st');
  refined_eval : evaluates P st' env';
  refined_model : modelOf st `prefix_of` modelOf st';
  refined_prefix : env0 `prefix_of` env';
  refined_accesses : accesses st' = accesses st ++ events;
  refined_initialized : reads_initialized [] events = true;
  refined_map :
    elementsMap (transformer st')
    = elementsMap (transformer st)
      ++ [(_output this, [total]);
          (_treeOutputs this, trees);
          (_edgeIndicatorVector this, concat edgeIndicators)];
  refined_walks :
    Forall2 (fun r path => treePath (_forest this) x r = Some path)
            (GetRootIndices (_forest this)) paths;
  refined_vector :
    GetEdgeIndicatorVector (_forest this) x = Some indicator;
  refined_total_value :
    doubles P env' [total]
      [fold_left dadd ((pathValue x <$> paths) ++ [GetBias (_forest this)]) dzero];
  refined_trees_value : doubles P env' trees (pathValue x <$> paths);
  refined_trees_length : length trees = NumTrees (_forest this);
  refined_indicators_value : bools P env' (concat edgeIndicators) indicator;
  refined_indicators_length :
    length (concat edgeIndicators) = NumEdges (_forest this);
  refined_entries :
    length edgeIndicators = 2 * length (GetInteriorNodes (_forest this));
  refined_indicates :
    forall p c, p < length (GetInteriorNodes (_forest this)) -> c < 2 ->
      indicates P (_forest this) indicator env' edgeIndicators p c;
  refined_wired :
    forall p, p < length (GetInteriorNodes (_forest this)) ->
      wired (_forest this) splitIndicators (modelOf st')
            edgeIndicators p;
  refined_split :
    forall j node, GetInteriorNodes (_forest this) !! j = Some node ->
      exists sel,
        splitIndicators !! j = Some [sel]
        /\ bools P env' [sel] [splitPredict (GetSplitRule node) x]
        /\ modelOf st' !! referencedNode sel
           = Some (SplitRuleNode newPortElements (GetSplitRule node));
  refined_roots :
    exists entries : list PortElement,
      trees = entries
      /\ Forall2 (fun r entry =>
                   exists elx0 elx1 sel node,
                     GetInteriorNodes (_forest this) !! r = Some node
                     /\ splitIndicators !! r = Some [sel]
                     /\ modelOf st' !! referencedNode entry
                        = Some (ElementSelectorNode [elx0; elx1] [sel]))
                 (GetRootIndices (_forest this)) entries
}.

(** The entries of the roots, with the walks they evaluate to. *)
Lemma root_entries (env : Env) (stA : State)
    (splitIndicators subModels : list PortElements) (roots : list nat) :
  (forall r, r ∈ roots ->
     built P (_forest this) x newPortElements stA env splitIndicators subModels r) ->
  exists entries paths,
    Forall2 (fun r entry => subModels !! r = Some entry) roots entries
    /\ Forall2 (fun r path => treePath (_forest this) x r = Some path) roots paths
    /\ doubles P env (concat entries) (pathValue x <$> paths)
    /\ length (concat entries) = length roots
    /\ Forall2 (fun r entry =>
                  exists elx0 elx1 sel node,
                    GetInteriorNodes (_forest this) !! r = Some node
                    /\ splitIndicators !! r = Some [sel]
                    /\ modelOf stA !! referencedNode entry
                       = Some (ElementSelectorNode [elx0; elx1] [sel]))
                roots (concat entries).
Proof.
  induction roots as [|r roots IH]; intros Hbuilt.
  - exists [], []. by repeat split; try constructor.
  - destruct IH as (entries & paths & He & Hp & Hr & Hl & Hs).
    { intros r' Hr'. apply Hbuilt. by right. }
    destruct (Hbuilt r) as (node & sel & val & path & Hn & Hsel & Hv & _ & Hpath
                            & Hrv & _ & elx0 & elx1 & Hm);
      [by left|].
    exists ([val] :: entries), (path :: paths).
    split; [by constructor|]. split; [by constructor|]. split; [|split].
    + cbn [concat fmap list_fmap].
      by apply (doubles_app env [val] (concat entries) [pathValue x path]).
    + cbn. by rewrite Hl.
    + cbn [concat app]. constructor; [|done]. by exists elx0, elx1, sel, node.
Qed.

Lemma RefineNode_refined :
  exists st' env' events paths indicator splitIndicators edgeIndicators trees total,
    refined st' env' events paths indicator splitIndicators edgeIndicators trees total.
Proof.
  set (f := _forest this) in *.
  destruct (bottomUp_spec P f x newPortElements st env0 Hwf Hev Hx)
    as (stA & si & sm & HrunA & envA & eventsA & GA & HlA1 & HlA2 & Hbuilt
        & HinitA & HwroteA).
  destruct (GetEdgeIndicatorVector_spec f x Hwf) as (indicator & Hind & Hilen & _).
  assert (Hsplit : forall j, j < length (GetInteriorNodes f) ->
            exists node sel,
              GetInteriorNodes f !! j = Some node
              /\ si !! j = Some [sel]
              /\ bools P envA [sel] [splitPredict (GetSplitRule node) x]).
  { intros j Hj.
    destruct (Hbuilt j) as (node & sel & val & path & Hn & Hs & _ & Hrs & _); [lia|].
    by exists node, sel. }
  destruct (topDown_spec P f x stA envA eventsA si indicator Hwf Hind Hsplit HinitA)
    as (stB & envB & eventsB & ei & HrunB & GB & HinitB & HlB & Hindic & Hwired
        & Hrind & Hlind).
  { intros j Hj. apply HwroteA. lia. }
  { apply GA. }
  destruct (root_entries envB stA si sm (GetRootIndices f))
    as (entries & paths & Hentries & Hpaths & Hrtrees & Hltrees & Hselectors).
  { intros r Hr.
    destruct (Hbuilt r) as (node & sel & val & path & Hb);
      [split; [lia|by apply wf_root_lt]|].
    destruct Hb as (Hn & Hs & Hv & Hrs & Hp & Hrv & Hm & Hm').
    exists node, sel, val, path. split; [done|]. split; [done|]. split; [done|].
    split; [by eapply bools_grows; [apply GB|]|]. split; [done|].
    split; [by eapply doubles_grows; [apply GB|]|done]. }
  set (reads := Read vec_interiorNodeSubModels <$> GetRootIndices f).
  set (stL := loggedAll reads stB).
  pose proof (grows_loggedAll P stB envB reads (grows_eval _ _ _ _ _ GB)) as GL.
  destruct (assembled_evaluates P this (concat entries) (concat ei) stL envB
              (pathValue x <$> paths)) as (env' & Hev' & Hpre' & Htotal);
    [apply GL|done|].
  set (st' := assembled this (concat entries) (concat ei) stL).
  assert (Hmpre' : modelOf stB `prefix_of` modelOf st').
  { unfold st', assembled, mapped, added, modelOf. cbn.
    change (model (transformer stL)) with (model (transformer stB)).
    rewrite <- app_assoc. by apply prefix_app_r. }
  assert (Hmpre : modelOf stA `prefix_of` modelOf st').
  { etrans; [apply GB|done]. }
  exists st', env', (eventsA ++ eventsB ++ reads), paths, indicator, si, ei,
    (concat entries), (el (S (length (modelOf stL))) 0 0).
  split.
  - unfold RefineNode. rewrite (bind_run _ _ _ _ _ Htransform).
    rewrite (bind_run _ _ _ _ _ HrunA). rewrite (bind_run _ _ _ _ _ HrunB).
    by apply assemble_run.
  - done.
  - etrans; [apply GA|done].
  - etrans; [apply GA|]. etrans; [apply GB|]. done.
  - unfold st', assembled, mapped, added. cbn [accesses].
    unfold stL, loggedAll. cbn [accesses].
    rewrite (grows_accesses _ _ _ _ _ GB), (grows_accesses _ _ _ _ _ GA).
    by rewrite <- !app_assoc.
  - rewrite app_assoc. apply reads_initialized_snoc; [done|].
    apply Forall_forall. intros event Hin.
    apply list_elem_of_In, list_elem_of_fmap in Hin as (r & -> & Hr).
    apply initialized_read. apply wrote_app_l. apply HwroteA.
    split; [lia|by apply wf_root_lt].
  - unfold st', assembled, mapped, added. cbn [transformer elementsMap].
    change (elementsMap (transformer stL)) with (elementsMap (transformer stB)).
    rewrite (grows_map _ _ _ _ _ GB), (grows_map _ _ _ _ _ GA).
    by rewrite <- !app_assoc.
  - done.
  - done.
  - done.
  - eapply doubles_grows; [exact Hpre'|done].
  - by rewrite Hltrees.
  - eapply bools_grows; [exact Hpre'|done].
  - done.
  - done.
  - intros p c Hp Hc. destruct (Hindic p c Hp Hc) as (elc & b & He & Hb & Hr).
    exists elc, b. split; [done|]. split; [done|].
    eapply bools_grows; [exact Hpre'|done].
  - intros p Hp. destruct (Hwired p Hp) as (sel & Hsel & Hcase).
    exists sel. split; [done|].
    destruct Hcase as [(Hroot & nid & Hn & H0 & H1)
                      |(p0 & q0 & pel & nid & Hpar & Hpe & Hn & H0 & H1)].
    + left. split; [done|]. exists nid. split; [|done].
      by eapply lookup_grows; [exact Hmpre'|].
    + right. exists p0, q0, pel, nid. split; [done|]. split; [done|].
      split; [|done]. by eapply lookup_grows; [exact Hmpre'|].
  - intros j node Hnode.
    assert (Hj : j < length (GetInteriorNodes f)) by (by eapply lookup_lt_Some).
    destruct (Hbuilt j) as (node' & sel & val & path & Hn & Hs & _ & Hrs & _ & _ & Hm & _);
      [lia|].
    assert (node' = node) as -> by (unfold f in Hn; congruence).
    exists sel. split; [done|]. split.
    + eapply bools_grows; [|exact Hrs]. etrans; [apply GB|done].
    + by eapply lookup_grows; [exact Hmpre|].
  - exists (concat entries). split; [done|].
    eapply Forall2_impl; [|exact Hselectors]. cbn.
    intros r entry (elx0 & elx1 & sel & node & Hn & Hs & Hm).
    exists elx0, elx1, sel, node. split; [done|]. split; [done|].
    by eapply lookup_grows; [exact Hmpre|].
Qed.

End Refinement.

(** ** What the two passes leave untouched *)

Section Frame.
Context `{ForestTypes}.

(** A computation that registers no output. *)
Definition keepsMap {A} (c : M A) : Prop :=
  forall st a st', c st = Some (a, st') ->
    elementsMap (transformer st') = elementsMap (transformer st).

Lemma keepsMap_ret {A} (a : A) : keepsMap (ret a).
Proof. intros st a' st' [= <- <-]. done. Qed.

Lemma keepsMap_fail {A} : keepsMap (fail : M A).
Proof. intros st a st' [=]. Qed.

Lemma keepsMap_lift {A} (o : option A) : keepsMap (lift o).
Proof. intros st a st'. unfold lift. destruct o; [|done]. by intros [= <- <-]. Qed.

Lemma keepsMap_bind {A B} (c : M A) (k : A -> M B) :
  keepsMap c -> (forall a, keepsMap (k a)) -> keepsMap (bind c k).
Proof.
  intros Hc Hk st b st'' Hrun.
  apply bind_inv in Hrun as (a & st' & Hrun & Hrest).
  rewrite (Hk a _ _ _ Hrest). by eapply Hc.
Qed.

Lemma keepsMap_foldM {A B} (body : A -> B -> M A) (range : list B) :
  (forall a b, keepsMap (body a b)) -> forall a, keepsMap (foldM body a range).
Proof.
  intros Hbody. induction range as [|b range IH]; intros a; cbn [foldM].
  - apply keepsMap_ret.
  - apply keepsMap_bind; [apply Hbody|apply IH].
Qed.

Lemma keepsMap_at {A} (name : Vector) (v : list A) (i : nat) :
  keepsMap (at_ name v i).
Proof. intros st a st' Hrun. by apply at_inv in Hrun as [_ ->]. Qed.

Lemma keepsMap_assign {A} (name : Vector) (v : list A) (i : nat) (a : A) :
  keepsMap (assign name v i a).
Proof. intros st a' st' Hrun. by apply assign_inv in Hrun as (_ & _ & ->). Qed.

Lemma keepsMap_AddNode (n : Node) : keepsMap (AddNode n).
Proof. intros st a st'. rewrite AddNode_run. by intros [= <- <-]. Qed.

Ltac keeps :=
  repeat first
    [ apply keepsMap_ret | apply keepsMap_fail | apply keepsMap_lift
    | apply keepsMap_at | apply keepsMap_assign | apply keepsMap_AddNode
    | apply keepsMap_foldM; intros
    | apply keepsMap_bind; [|intros]
    | match goal with
      | |- keepsMap (match ?p with (_, _) => _ end) => destruct p
      | |- keepsMap (if ?b then _ else _) => destruct b
      end ].

Lemma keepsMap_bottomUp (newPortElements : PortElements)
    (interiorNodes : list InteriorNode) :
  keepsMap (bottomUp newPortElements interiorNodes).
Proof.
  unfold bottomUp. keeps. unfold visitBottomUp. keeps.
Qed.

Lemma keepsMap_topDown (forest : ForestPredictor)
    (splitIndicators : list PortElements) :
  keepsMap (topDown forest splitIndicators).
Proof.
  unfold topDown. keeps. unfold visitTopDown. keeps.
  - unfold childIndicators. keeps.
  - unfold recordParent. keeps.
Qed.

(** RefineNode, when it returns, has run its three parts in turn. *)
Lemma RefineNode_inv (this : ForestNodeObject) (st st' : State) :
  RefineNode this st = Some (tt, st') ->
  exists newPortElements splitIndicators subModels stA indicators stB,
    TransformPortElements (_input this) st = Some (newPortElements, st)
    /\ bottomUp newPortElements (GetInteriorNodes (_forest this)) st
       = Some ((splitIndicators, subModels), stA)
    /\ topDown (_forest this) splitIndicators stA = Some (indicators, stB)
    /\ assemble this subModels indicators stB = Some (tt, st')
    /\ elementsMap (transformer stB) = elementsMap (transformer st).
Proof.
  unfold RefineNode. intros Hrun.
  apply bind_inv in Hrun as (pe & st1 & Ht & Hrun).
  assert (st1 = st) as ->.
  { unfold TransformPortElements in Ht.
    destruct (mapM _ _); [|done]. cbn in Ht. by injection Ht. }
  apply bind_inv in Hrun as ([si sm] & stA & HA & Hrun).
  apply bind_inv in Hrun as (ind & stB & HB & Hrun).
  exists pe, si, sm, stA, ind, stB. do 4 (split; [done|]).
  rewrite (keepsMap_topDown _ _ _ _ _ HB).
  by rewrite (keepsMap_bottomUp _ _ _ _ _ HA).
Qed.

End Frame.

(** ** The copied node *)

Section Copied.
Context `{ForestTypes}.

Lemma readDoubles_port (env : Env) (outs : list (list Value)) (p : nat)
    (values : list double) :
  outs !! p = Some (VDouble <$> values) ->
  readDoubles (env ++ [outs]) (el (length env) p <$> seq 0 (length values))
  = Some values.
Proof.
  intros Hp. apply mapM_Some. apply Forall2_same_length_lookup. split.
  - by rewrite length_fmap, length_seq.
  - intros i e d He Hd.
    apply list_lookup_fmap_Some in He as (k & -> & Hk).
    apply lookup_seq in Hk as [-> _]. cbn [Nat.add].
    rewrite readElement_last, Hp. cbn.
    rewrite list_lookup_fmap, Hd. done.
Qed.

Lemma readBools_port (env : Env) (outs : list (list Value)) (p : nat)
    (values : list bool) :
  outs !! p = Some (VBool <$> values) ->
  readBools (env ++ [outs]) (el (length env) p <$> seq 0 (length values))
  = Some values.
Proof.
  intros Hp. apply mapM_Some. apply Forall2_same_length_lookup. split.
  - by rewrite length_fmap, length_seq.
  - intros i e d He Hd.
    apply list_lookup_fmap_Some in He as (k & -> & Hk).
    apply lookup_seq in Hk as [-> _]. cbn [Nat.add].
    rewrite readElement_last, Hp. cbn.
    rewrite list_lookup_fmap, Hd. done.
Qed.

(** Copy adds the forest node itself; its three ports hold what Compute
    returns. *)
Lemma Copy_computes (this : ForestNodeObject) (st : State) (env0 : Env)
    (newPortElements : PortElements) (x : list double)
    (out trees : list double) (indicator : list bool) :
  TransformPortElements (_input this) st = Some (newPortElements, st) ->
  Evaluate (modelOf st) = Some env0 ->
  readDoubles env0 newPortElements = Some x ->
  Compute (_forest this) x = Some (out, trees, indicator) ->
  length out = 1 -> length trees = NumTrees (_forest this) ->
  length indicator = NumEdges (_forest this) ->
  exists st' env' copyOutput copyTrees copyIndicator,
    Copy this st = Some (tt, st')
    /\ elementsMap (transformer st')
       = elementsMap (transformer st)
         ++ [(_output this, copyOutput); (_treeOutputs this, copyTrees);
             (_edgeIndicatorVector this, copyIndicator)]
    /\ modelOf st' = modelOf st ++ [ForestNode newPortElements (_forest this)]
    /\ Evaluate (modelOf st') = Some env'
    /\ readDoubles env' copyOutput = Some out
    /\ readDoubles env' copyTrees = Some trees
    /\ readBools env' copyIndicator = Some indicator.
Proof.
  intros Ht Hev Hx Hc Hlo Hlt Hli. unfold Copy.
  rewrite (bind_run _ _ _ _ _ Ht).
  rewrite (bind_run _ _ _ _ _ (AddNode_run _ _)).
  rewrite (bind_run _ _ _ _ _ (MapNodeOutput_run _ _ _)).
  rewrite (bind_run _ _ _ _ _ (MapNodeOutput_run _ _ _)).
  rewrite MapNodeOutput_run.
  set (n := ForestNode newPortElements (_forest this)).
  set (outs := [VDouble <$> out; VDouble <$> trees; VBool <$> indicator]).
  assert (Hcn : ComputeNode env0 n = Some outs).
  { unfold n. cbn [ComputeNode]. rewrite Hx. cbn [mbind option_bind]. by rewrite Hc. }
  pose proof (grows_added (P := True) st env0 n outs (fun _ => Hev) (fun _ => Hcn))
    as G.
  pose proof (Evaluate_length _ _ Hev) as Hlen. fold (modelOf st) in Hlen.
  set (h := {| nodeId := length (modelOf st); nodeOf := n |}).
  assert (Ho : output h = el (length env0) 0 <$> seq 0 (length out)).
  { rewrite Hlo, Hlen. reflexivity. }
  assert (Hot : treeOutputs h = el (length env0) 1 <$> seq 0 (length trees)).
  { rewrite Hlt, Hlen. reflexivity. }
  assert (Hoi : edgeIndicatorVector h
                = el (length env0) 2 <$> seq 0 (length indicator)).
  { rewrite Hli, Hlen. reflexivity. }
  exists (mapped (_edgeIndicatorVector this) (edgeIndicatorVector h)
            (mapped (_treeOutputs this) (treeOutputs h)
               (mapped (_output this) (output h) (added n st)))),
    (env0 ++ [outs]), (output h), (treeOutputs h), (edgeIndicatorVector h).
  split; [reflexivity|].
  split; [cbn; by rewrite <- !app_assoc|]. split; [done|].
  split; [by apply (grows_eval _ _ _ _ _ G)|].
  rewrite Ho, Hot, Hoi.
  split; [by apply readDoubles_port|]. split; [by apply readDoubles_port|].
  by apply readBools_port.
Qed.

End Copied.

(** ** Vectors of single elements *)

Section Singletons.
Context `{ForestTypes}.

Lemma concat_singletons_lookup (entries : list PortElements) :
  forall (k : nat) (elc : PortElement),
    (forall j, j < k -> exists e, entries !! j = Some [e]) ->
    entries !! k = Some [elc] ->
    concat entries !! k = Some elc.
Proof.
  induction entries as [|entry entries IH]; intros k elc Hbefore Hk; [done|].
  destruct k as [|k].
  - cbn in Hk. injection Hk as ->. done.
  - destruct (Hbefore 0) as [e He]; [lia|]. cbn in He. injection He as ->.
    cbn. apply IH; [|done]. intros j Hj. apply (Hbefore (S j)). lia.
Qed.

(** A vector with two single-element entries per node concatenates to the
    pairs of the nodes, in order. *)
Lemma pair_entries (size : nat) :
  forall entries : list PortElements,
    length entries = 2 * size ->
    (forall k, k < 2 * size -> exists e, entries !! k = Some [e]) ->
    exists outs : list (PortElement * PortElement),
      length outs = size
      /\ concat entries = flat_map (fun o => [o.1; o.2]) outs
      /\ forall i o, outs !! i = Some o ->
           entries !! (2 * i) = Some [o.1] /\ entries !! (2 * i + 1) = Some [o.2].
Proof.
  induction size as [|size IH]; intros entries Hlen Hall.
  - destruct entries; [|done]. exists []. by repeat split.
  - destruct entries as [|a [|b entries]]; [done|cbn in Hlen; lia|].
    destruct (Hall 0) as [c0 H0]; [lia|]. destruct (Hall 1) as [c1 H1]; [lia|].
    cbn in H0, H1. injection H0 as ->. injection H1 as ->.
    destruct (IH entries) as (outs & Hl & Hc & Ho).
    + cbn in Hlen. lia.
    + intros k Hk. apply (Hall (S (S k))). lia.
    + exists ((c0, c1) :: outs). split; [cbn; lia|]. split.
      * cbn. by rewrite Hc.
      * intros i o Hi. destruct i as [|i].
        -- cbn in Hi. injection Hi as <-. done.
        -- cbn in Hi. destruct (Ho i o Hi) as [Ha Hb].
           replace (2 * S i) with (S (S (2 * i))) by lia.
           replace (S (S (2 * i)) + 1) with (S (S (2 * i + 1))) by lia.
           done.
Qed.

End Singletons.

(** * Copy, RefineNode and Compute *)

Section Refined.
Context `{ForestTypes}.

(** C1, in the form that holds of the code: on a forest that satisfies the
    structural invariants, RefineNode returns, and computing the nodes of
    the refined model in the order they were added gives, on the elements
    mapped to [edgeIndicatorVector], exactly the edge indicator vector of
    [Compute] on the input of the node, and on the elements mapped to
    [output] and
    [treeOutputs] sums of the terms that [Compute] adds, taken in another
    order: where [Compute] adds the edge values of the walk of a tree to
    zero from the root down, the refined model adds them from the leaf up,
    and where [Compute] adds the edge values of all walks to the bias, the
    refined model adds the values of the trees and then the bias to zero.
    The values are those of [Compute] whenever addition is exact
    (associative and commutative with unit zero).  The copied, unrefined
    node holds the three results of [Compute] on its ports as they are. *)
Theorem RefineNode_equivalent_to_Compute_up_to_the_order_of_additions
    (this : ForestNodeObject) (st : State) (env0 : Env)
    (newPortElements : PortElements) (x : list double) :
  wf_forest (_forest this) ->
  TransformPortElements (_input this) st = Some (newPortElements, st) ->
  Evaluate (model (transformer st)) = Some env0 ->
  readDoubles env0 newPortElements = Some x ->
  exists (out trees : list double) (indicator : list bool)
         (paths : list (list PathStep)),
    Compute (_forest this) x = Some (out, trees, indicator)
    /\ Forall2 (fun r path => treePath (_forest this) x r = Some path)
               (GetRootIndices (_forest this)) paths
    /\ out = [accumulate x (GetBias (_forest this)) (concat paths)]
    /\ trees = accumulate x dzero <$> paths
    /\ (exists st' env' newOutput newTrees newIndicator,
          RefineNode this st = Some (tt, st')
          /\ elementsMap (transformer st')
             = elementsMap (transformer st)
               ++ [(_output this, newOutput); (_treeOutputs this, newTrees);
                   (_edgeIndicatorVector this, newIndicator)]
          /\ Evaluate (model (transformer st')) = Some env'
          /\ readDoubles env' newOutput
             = Some [fold_left dadd
                       ((pathValue x <$> paths) ++ [GetBias (_forest this)]) dzero]
          /\ readDoubles env' newTrees = Some (pathValue x <$> paths)
          /\ readBools env' newIndicator = Some indicator
          /\ (ExactArithmetic ->
              readDoubles env' newOutput = Some out
              /\ readDoubles env' newTrees = Some trees))
    /\ (exists st' env' copyOutput copyTrees copyIndicator,
          Copy this st = Some (tt, st')
          /\ elementsMap (transformer st')
             = elementsMap (transformer st)
               ++ [(_output this, copyOutput); (_treeOutputs this, copyTrees);
                   (_edgeIndicatorVector this, copyIndicator)]
          /\ Evaluate (model (transformer st')) = Some env'
          /\ readDoubles env' copyOutput = Some out
          /\ readDoubles env' copyTrees = Some trees
          /\ readBools env' copyIndicator = Some indicator).
Proof.
  intros Hwf Ht Hev Hx.
  destruct (RefineNode_refined True this x newPortElements st env0 Hwf Ht
              (fun _ => Hev) (fun _ => Hx))
    as (st' & env' & events & paths & indicator & si & ei & trees & total & R).
  destruct R.
  pose proof (Compute_of_paths (_forest this) x paths indicator
                refined_walks0 refined_vector0) as Hc.
  exists [accumulate x (GetBias (_forest this)) (concat paths)],
         (accumulate x dzero <$> paths), indicator, paths.
  split; [done|]. split; [done|]. split; [done|]. split; [done|]. split.
  - exists st', env', [total], trees, (concat ei).
    split; [done|]. split; [done|]. split; [by apply refined_eval0|].
    split; [by apply refined_total_value0|].
    split; [by apply refined_trees_value0|].
    split; [by apply refined_indicators_value0|].
    intros Hexact. split.
    + rewrite (@Predict_sum _ x Hexact). by apply refined_total_value0.
    + rewrite (refined_trees_value0 I). f_equal.
      apply list_fmap_ext. intros i path _. by rewrite (@PredictTree_value _ x Hexact).
  - destruct (Copy_computes this st env0 newPortElements x _ _ _ Ht Hev Hx Hc)
      as (stC & envC & o1 & o2 & o3 & Hrun & Hmap & _ & HevC & H1 & H2 & H3).
    + done.
    + rewrite length_fmap. unfold NumTrees.
      symmetry. by eapply Forall2_length.
    + destruct (GetEdgeIndicatorVector_spec (_forest this) x Hwf)
        as (ind' & Hind' & Hlen & _).
      rewrite (wf_NumEdges _ Hwf). congruence.
    + by exists stC, envC, o1, o2, o3.
Qed.

(** What a run of RefineNode that returns has assembled. *)
Lemma RefineNode_assembly (this : ForestNodeObject) (st st' : State) :
  RefineNode this st = Some (tt, st') ->
  exists newPortElements splitIndicators interiorNodeSubModels stA indicators stB
         (trees : list PortElements),
    TransformPortElements (_input this) st = Some (newPortElements, st)
    /\ bottomUp newPortElements (GetInteriorNodes (_forest this)) st
       = Some ((splitIndicators, interiorNodeSubModels), stA)
    /\ topDown (_forest this) splitIndicators stA = Some (indicators, stB)
    /\ Forall2 (fun rootIndex tree => interiorNodeSubModels !! rootIndex = Some tree)
               (GetRootIndices (_forest this)) trees
    /\ model (transformer st')
       = model (transformer stB)
         ++ [ConstantNode [GetBias (_forest this)];
             SumNode (concat trees ++ [el (length (model (transformer stB))) 0 0])]
    /\ elementsMap (transformer st')
       = elementsMap (transformer st)
         ++ [(_output this, [el (S (length (model (transformer stB)))) 0 0]);
             (_treeOutputs this, concat trees);
             (_edgeIndicatorVector this, indicators)].
Proof.
  intros Hrun.
  apply RefineNode_inv in Hrun
    as (pe & si & sm & stA & ind & stB & Ht & HA & HB & HC & Hmap).
  apply assemble_inv in HC as (entries & Hall & ->).
  exists pe, si, sm, stA, ind, stB, entries.
  split; [done|]. split; [done|]. split; [done|]. split; [done|]. split.
  - unfold assembled, mapped, added, modelOf. cbn. by rewrite <- app_assoc.
  - unfold assembled, mapped, added, modelOf. cbn. rewrite Hmap.
    by rewrite <- !app_assoc.
Qed.

(** RefineNode returns on a forest that satisfies the structural
    invariants. *)
Lemma RefineNode_returns (this : ForestNodeObject) (st : State)
    (newPortElements : PortElements) :
  wf_forest (_forest this) ->
  TransformPortElements (_input this) st = Some (newPortElements, st) ->
  exists st', RefineNode this st = Some (tt, st').
Proof.
  intros Hwf Ht.
  assert (Hev : evaluates False st []) by intros [].
  assert (Hx : doubles False [] newPortElements []) by intros [].
  destruct (RefineNode_refined False this [] newPortElements st [] Hwf Ht Hev Hx)
    as (st' & env' & events & paths & indicator & si & ei & trees & total & R).
  destruct R. by exists st'.
Qed.


(** The three output ports of a node are different ports. *)
Lemma output_ports_NoDup (this : ForestNodeObject) :
  NoDup [_output this; _treeOutputs this; _edgeIndicatorVector this].
Proof.
  unfold _output, _treeOutputs, _edgeIndicatorVector.
  repeat constructor; rewrite ?elem_of_cons, ?elem_of_nil; intros Hin;
    repeat destruct Hin as [Hin|Hin]; congruence.
Qed.

Lemma Copy_run (this : ForestNodeObject) (st : State)
    (newPortElements : PortElements) :
  TransformPortElements (_input this) st = Some (newPortElements, st) ->
  exists st' new1 new2 new3,
    Copy this st = Some (tt, st')
    /\ elementsMap (transformer st')
       = elementsMap (transformer st)
         ++ [(_output this, new1); (_treeOutputs this, new2);
             (_edgeIndicatorVector this, new3)].
Proof.
  intros Ht. unfold Copy.
  rewrite (bind_run _ _ _ _ _ Ht).
  rewrite (bind_run _ _ _ _ _ (AddNode_run _ _)).
  rewrite (bind_run _ _ _ _ _ (MapNodeOutput_run _ _ _)).
  rewrite (bind_run _ _ _ _ _ (MapNodeOutput_run _ _ _)).
  rewrite MapNodeOutput_run.
  eexists _, _, _, _. split; [done|]. cbn. by rewrite <- !app_assoc.
Qed.

(** C5: a pass over a ForestNode, be it Copy or RefineNode (on a forest that
    satisfies the structural invariants), returns, having appended to the
    registered outputs exactly three entries, one for each of [output],
    [treeOutputs] and [edgeIndicatorVector], which are three different
    ports. *)
Theorem Copy_and_RefineNode_map_each_output_once
    (pass : ForestNodeObject -> M unit) (this : ForestNodeObject)
    (st : State) (newPortElements : PortElements) :
  pass = Copy \/ (pass = RefineNode /\ wf_forest (_forest this)) ->
  TransformPortElements (_input this) st = Some (newPortElements, st) ->
  exists st' new1 new2 new3,
    pass this st = Some (tt, st')
    /\ NoDup [_output this; _treeOutputs this; _edgeIndicatorVector this]
    /\ elementsMap (transformer st')
       = elementsMap (transformer st)
         ++ [(_output this, new1); (_treeOutputs this, new2);
             (_edgeIndicatorVector this, new3)].
Proof.
  intros Hpass Ht. destruct Hpass as [-> | [-> Hwf]].
  - destruct (Copy_run this st newPortElements Ht)
      as (st' & new1 & new2 & new3 & Hrun & Hmap).
    exists st', new1, new2, new3. split; [done|]. split; [apply output_ports_NoDup|done].
  - destruct (RefineNode_returns this st newPortElements Hwf Ht) as [st' Hrun].
    destruct (RefineNode_assembly this st st' Hrun)
      as (pe & si & sm & stA & ind & stB & trees & _ & _ & _ & _ & _ & Hmap).
    eexists st', _, _, _. split; [done|]. split; [apply output_ports_NoDup|done].
Qed.




(** C10: the elements RefineNode maps to [output], [treeOutputs] and
    [edgeIndicatorVector] number 1, [NumTrees()] and [NumEdges()], the sizes
    the three ports are given when a ForestNode is constructed. *)
Theorem RefineNode_preserves_port_sizes (this : ForestNodeObject)
    (st : State) (newPortElements : PortElements) :
  wf_forest (_forest this) ->
  TransformPortElements (_input this) st = Some (newPortElements, st) ->
  exists st' newOutput newTrees newIndicator,
    RefineNode this st = Some (tt, st')
    /\ elementsMap (transformer st')
       = elementsMap (transformer st)
         ++ [(_output this, newOutput); (_treeOutputs this, newTrees);
             (_edgeIndicatorVector this, newIndicator)]
    /\ outputSizes (ForestNode newPortElements (_forest this))
       = [length newOutput; length newTrees; length newIndicator]
    /\ length newOutput = 1
    /\ length newTrees = NumTrees (_forest this)
    /\ length newIndicator = NumEdges (_forest this).
Proof.
  intros Hwf Ht.
  assert (Hev : evaluates False st []) by intros [].
  assert (Hx : doubles False [] newPortElements []) by intros [].
  destruct (RefineNode_refined False this [] newPortElements st [] Hwf Ht Hev Hx)
    as (st' & env' & events & paths & indicator & si & ei & trees & total & R).
  destruct R. exists st', [total], trees, (concat ei).
  split; [done|]. split; [done|].
  split; [cbn; congruence|]. done.
Qed.

(** C3: for an interior node [i] with an incoming edge, taken as the first
    edge of the forest whose target is [i], the entries of the indicator
    vector at the two edges of [i] are the outputs 0 and 1 of one multiplexor
    node with two outputs, whose inputs are the entry of that incoming edge
    and the output of the split rule node of [i]; in the evaluation of the
    refined model they hold (parent and not split) and (parent and split). *)
Theorem RefineNode_child_indicators (this : ForestNodeObject) (st : State)
    (env0 : Env) (newPortElements : PortElements) (x : list double)
    (i parentIndex position : nat) (node parentNode : InteriorNode) (edge : Edge) :
  wf_forest (_forest this) ->
  TransformPortElements (_input this) st = Some (newPortElements, st) ->
  GetInteriorNodes (_forest this) !! i = Some node ->
  find (targets i) (slots (_forest this)) = Some (parentIndex, position, edge) ->
  GetInteriorNodes (_forest this) !! parentIndex = Some parentNode ->
  Evaluate (model (transformer st)) = Some env0 ->
  readDoubles env0 newPortElements = Some x ->
  exists st' env' newOutput newTrees newIndicator parentEl sel mux parent,
    RefineNode this st = Some (tt, st')
    /\ elementsMap (transformer st')
       = elementsMap (transformer st)
         ++ [(_output this, newOutput); (_treeOutputs this, newTrees);
             (_edgeIndicatorVector this, newIndicator)]
    /\ newIndicator !! (GetFirstEdgeIndex parentNode + position) = Some parentEl
    /\ model (transformer st') !! referencedNode sel
       = Some (SplitRuleNode newPortElements (GetSplitRule node))
    /\ model (transformer st') !! mux = Some (MultiplexorNode [parentEl] [sel] 2)
    /\ newIndicator !! GetFirstEdgeIndex node = Some (el mux 0 0)
    /\ newIndicator !! (GetFirstEdgeIndex node + 1) = Some (el mux 0 1)
    /\ Evaluate (model (transformer st')) = Some env'
    /\ readBools env' [parentEl] = Some [parent]
    /\ readBools env' [sel] = Some [splitPredict (GetSplitRule node) x]
    /\ readBools env' [el mux 0 0]
       = Some [parent && negb (splitPredict (GetSplitRule node) x)]
    /\ readBools env' [el mux 0 1]
       = Some [parent && splitPredict (GetSplitRule node) x].
Proof.
  intros Hwf Ht Hnode Hfind Hpnode Hev Hx.
  destruct (RefineNode_refined True this x newPortElements st env0 Hwf Ht
              (fun _ => Hev) (fun _ => Hx))
    as (st' & env' & events & paths & indicator & si & ei & trees & total & R).
  destruct R.
  apply find_some in Hfind as [Hin Htargets].
  pose proof (targets_parent _ _ _ _ _ Hin Htargets) as Hpar.
  destruct (wf_parent_lt _ Hwf _ _ _ Hpar) as [Hlt Hq].
  assert (Hi : i < length (GetInteriorNodes (_forest this))) by lia.
  destruct (wf_node _ Hwf _ _ Hnode) as [_ Hfirst].
  destruct (wf_node _ Hwf _ _ Hpnode) as [_ Hpfirst].
  assert (Hsingle : forall k, k < 2 * length (GetInteriorNodes (_forest this)) ->
            exists e, ei !! k = Some [e]).
  { intros k Hk.
    destruct (wf_first_cover _ Hwf k Hk) as (p & c & Hp & Hc & ->).
    destruct (refined_indicates0 p c Hp Hc) as (elc & b & He & _). eauto. }
  assert (Hlookup : forall k elc, k < 2 * length (GetInteriorNodes (_forest this)) ->
            ei !! k = Some [elc] -> concat ei !! k = Some elc).
  { intros k elc Hk He. apply concat_singletons_lookup; [|done].
    intros j Hj. apply Hsingle. lia. }
  destruct (refined_wired0 i Hi) as (sel & Hsel & Hcase).
  destruct Hcase as [(Hroot & _)|(p0 & q0 & parentEl & mux & Hpar' & Hpe & Hmux & H0 & H1)].
  { destruct (wf_root_or_child _ Hwf i Hi) as [[_ Hno]|[Hnr _]]; [|done].
    by destruct (Hno parentIndex position). }
  destruct (wf_parent_unique _ Hwf _ _ _ _ _ Hpar Hpar') as [<- <-].
  destruct (refined_split0 i node Hnode) as (sel' & Hsel' & Hrsel & Hmsel).
  assert (sel' = sel) as -> by congruence.
  destruct (refined_indicates0 parentIndex position) as (pel & parent & Hpe' & Hip & Hrp);
    [lia|done|].
  assert (pel = parentEl) as -> by congruence.
  exists st', env', [total], trees, (concat ei), parentEl, sel, mux, parent.
  split; [done|]. split; [done|].
  rewrite Hfirst, Hpfirst.
  assert (Hpl : firstOf (_forest this) parentIndex + position
                < 2 * length (GetInteriorNodes (_forest this)))
    by (apply wf_first_lt; [done|lia|done]).
  assert (Hil : firstOf (_forest this) i + 1
                < 2 * length (GetInteriorNodes (_forest this)))
    by (apply wf_first_lt; [done|done|lia]).
  split; [apply Hlookup; [lia|done]|]. split; [done|]. split; [done|].
  split; [apply Hlookup; [lia|done]|].
  split; [apply Hlookup; [lia|done]|].
  destruct (refined_indicates0 i 0) as (c0 & b0 & Hc0 & Hi0 & Hr0); [done|lia|].
  destruct (refined_indicates0 i 1) as (c1 & b1 & Hc1 & Hi1 & Hr1); [done|lia|].
  rewrite Nat.add_0_r in Hc0, Hi0.
  assert (c0 = el mux 0 0) as -> by congruence.
  assert (c1 = el mux 0 1) as -> by congruence.
  destruct (indicator_child _ x Hwf indicator i parentIndex position node parent
              refined_vector0 Hpar Hnode Hip) as [Hv0 Hv1].
  assert (b0 = parent && negb (splitPredict (GetSplitRule node) x)) as -> by congruence.
  assert (b1 = parent && splitPredict (GetSplitRule node) x) as -> by congruence.
  split; [by apply refined_eval0|]. split; [by apply Hrp|].
  split; [by apply Hrsel|]. split; [by apply Hr0|by apply Hr1].
Qed.

(** C4: the edge indicator vector holds two elements per interior node and
    one entry per edge of the forest, and it lists the interior nodes in the
    ascending order of their first edge indices: [order] holds every
    interior node once, the node at position [m] of [order] has the first
    edge index [2 * m], and the pair at position [m] of the vector stands at
    the two edge indices of that node; for a tree root the first element of
    its pair is the output of a logical-not node applied to the output of
    the split rule node of the root, and the second is that output itself,
    so that they evaluate to the negation of the split and to the split. *)
Theorem RefineNode_root_indicators_and_vector (this : ForestNodeObject)
    (st : State) (env0 : Env) (newPortElements : PortElements) (x : list double) :
  wf_forest (_forest this) ->
  TransformPortElements (_input this) st = Some (newPortElements, st) ->
  Evaluate (model (transformer st)) = Some env0 ->
  readDoubles env0 newPortElements = Some x ->
  exists st' env' newOutput newTrees newIndicator
         (outs : list (PortElement * PortElement)) (order : list nat),
    RefineNode this st = Some (tt, st')
    /\ elementsMap (transformer st')
       = elementsMap (transformer st)
         ++ [(_output this, newOutput); (_treeOutputs this, newTrees);
             (_edgeIndicatorVector this, newIndicator)]
    /\ Evaluate (model (transformer st')) = Some env'
    /\ newIndicator = flat_map (fun o => [o.1; o.2]) outs
    /\ length newIndicator = NumEdges (_forest this)
    /\ order ≡ₚ seq 0 (length (GetInteriorNodes (_forest this)))
    /\ length outs = length order
    /\ (forall a b i j nodeI nodeJ,
          order !! a = Some i -> order !! b = Some j -> a < b ->
          GetInteriorNodes (_forest this) !! i = Some nodeI ->
          GetInteriorNodes (_forest this) !! j = Some nodeJ ->
          GetFirstEdgeIndex nodeI < GetFirstEdgeIndex nodeJ)
    /\ (forall m i node o,
          order !! m = Some i ->
          GetInteriorNodes (_forest this) !! i = Some node ->
          outs !! m = Some o ->
          GetFirstEdgeIndex node = 2 * m
          /\ newIndicator !! GetFirstEdgeIndex node = Some o.1
          /\ newIndicator !! (GetFirstEdgeIndex node + 1) = Some o.2)
    /\ (forall i node,
          i ∈ GetRootIndices (_forest this) ->
          GetInteriorNodes (_forest this) !! i = Some node ->
          exists sel notNode m,
            model (transformer st') !! referencedNode sel
            = Some (SplitRuleNode newPortElements (GetSplitRule node))
            /\ model (transformer st') !! notNode
               = Some (UnaryOperationNode [sel] logicalNot)
            /\ order !! m = Some i
            /\ outs !! m = Some (el notNode 0 0, sel)
            /\ readBools env' [sel] = Some [splitPredict (GetSplitRule node) x]
            /\ readBools env' [el notNode 0 0]
               = Some [negb (splitPredict (GetSplitRule node) x)]).
Proof.
  intros Hwf Ht Hev Hx.
  destruct (RefineNode_refined True this x newPortElements st env0 Hwf Ht
              (fun _ => Hev) (fun _ => Hx))
    as (st' & env' & events & paths & indicator & si & ei & trees & total & R).
  destruct R.
  assert (Hsingle : forall k, k < 2 * length (GetInteriorNodes (_forest this)) ->
            exists e, ei !! k = Some [e]).
  { intros k Hk.
    destruct (wf_first_cover _ Hwf k Hk) as (p & c & Hp & Hc & ->).
    destruct (refined_indicates0 p c Hp Hc) as (elc & b & He & _). eauto. }
  destruct (pair_entries _ ei refined_entries0 Hsingle) as (outs & Hlen & Hconcat & Houts).
  assert (Hlookup : forall k elc, k < 2 * length (GetInteriorNodes (_forest this)) ->
            ei !! k = Some [elc] -> concat ei !! k = Some elc).
  { intros k elc Hk He. apply concat_singletons_lookup; [|done].
    intros j Hj. apply Hsingle. lia. }
  destruct (wf_order _ Hwf) as (order & Hperm & Horder).
  assert (Holen : length order = length (GetInteriorNodes (_forest this)))
    by (by rewrite Hperm, length_seq).
  assert (Hfirst : forall m i node, order !! m = Some i ->
            GetInteriorNodes (_forest this) !! i = Some node ->
            GetFirstEdgeIndex node = 2 * m).
  { intros m i node Hm Hnode.
    rewrite <- (firstOf_lookup _ _ _ Hnode). by apply Horder. }
  exists st', env', [total], trees, (concat ei), outs, order.
  split; [done|]. split; [done|]. split; [by apply refined_eval0|].
  split; [done|]. split; [done|]. split; [done|]. split; [lia|].
  split; [|split].
  - intros a b i j nodeI nodeJ Ha Hb Hab HnodeI HnodeJ.
    rewrite (Hfirst _ _ _ Ha HnodeI), (Hfirst _ _ _ Hb HnodeJ). lia.
  - intros m i node o Hm Hnode Ho.
    assert (Hml : m < length (GetInteriorNodes (_forest this)))
      by (rewrite <- Holen; by eapply lookup_lt_Some).
    destruct (Houts m o Ho) as [H0 H1]. rewrite (Hfirst _ _ _ Hm Hnode).
    split; [done|]. split; apply Hlookup; (lia || done).
  - intros i node Hroot Hnode.
    assert (Hi : i < length (GetInteriorNodes (_forest this)))
      by (by eapply lookup_lt_Some).
    destruct (refined_wired0 i Hi) as (sel & Hsel & Hcase).
    destruct Hcase as [(_ & notNode & Hnot & H0 & H1)|(p0 & q0 & _ & _ & Hpar & _)].
    2:{ destruct (wf_root_or_child _ Hwf i Hi) as [[_ Hno]|[Hnr _]]; [|done].
        by destruct (Hno p0 q0). }
    destruct (refined_split0 i node Hnode) as (sel' & Hsel' & Hrsel & Hmsel).
    assert (sel' = sel) as -> by congruence.
    assert (Hin : i ∈ order) by (rewrite Hperm; apply elem_of_seq; lia).
    apply list_elem_of_lookup in Hin as [m Hm].
    assert (Hml : m < length (GetInteriorNodes (_forest this)))
      by (rewrite <- Holen; by eapply lookup_lt_Some).
    destruct (lookup_lt_is_Some_2 outs m) as [[o0 o1] Ho]; [lia|].
    destruct (Houts m _ Ho) as [Ho0 Ho1]. cbn [fst snd] in Ho0, Ho1.
    rewrite <- (Horder _ _ Hm) in Ho0, Ho1.
    assert (o0 = el notNode 0 0) as -> by congruence.
    assert (o1 = sel) as -> by congruence.
    exists sel, notNode, m. split; [done|]. split; [done|]. split; [done|].
    split; [done|].
    destruct (refined_indicates0 i 0) as (c0 & b0 & Hc0 & Hi0 & Hr0); [done|lia|].
    rewrite Nat.add_0_r in Hc0, Hi0.
    assert (c0 = el notNode 0 0) as -> by congruence.
    destruct (indicator_root _ x Hwf indicator i node refined_vector0 Hroot Hnode)
      as [Hv0 _].
    assert (b0 = negb (splitPredict (GetSplitRule node) x)) as -> by congruence.
    split; [by apply Hrsel|by apply Hr0].
Qed.

End Refined.

(** * The shape of the refined model *)

Section Shape.
Context `{ForestTypes}.

(** A computation that, when it returns, has appended to the model nodes of
    the given kinds, in that order. *)
Definition emits {A} (c : M A) (kinds : list NodeKind) : Prop :=
  forall st a st', c st = Some (a, st') ->
    exists nodes, modelOf st' = modelOf st ++ nodes /\ kindOf <$> nodes = kinds.

Lemma emits_ret {A} (a : A) : emits (ret a) [].
Proof. intros st a' st' [= <- <-]. exists []. by rewrite app_nil_r. Qed.

Lemma emits_lift {A} (o : option A) : emits (lift o) [].
Proof.
  intros st a st'. unfold lift. destruct o; [|done]. intros [= <- <-].
  exists []. by rewrite app_nil_r.
Qed.

Lemma emits_AddNode (n : Node) : emits (AddNode n) [kindOf n].
Proof. intros st a st'. rewrite AddNode_run. intros [= <- <-]. by exists [n]. Qed.

Lemma emits_at {A} (name : Vector) (v : list A) (i : nat) : emits (at_ name v i) [].
Proof.
  intros st a st' Hrun. apply at_inv in Hrun as [_ ->].
  exists []. by rewrite app_nil_r.
Qed.

Lemma emits_assign {A} (name : Vector) (v : list A) (i : nat) (a : A) :
  emits (assign name v i a) [].
Proof.
  intros st a' st' Hrun. apply assign_inv in Hrun as (_ & _ & ->).
  exists []. by rewrite app_nil_r.
Qed.

(** Sequencing, where the continuation may rely on a fact [R] about the value
    it receives. *)
Lemma emits_bind {A B} (R : A -> Prop) (c : M A) (k : A -> M B)
    (kinds1 kinds2 kinds : list NodeKind) :
  (forall st a st', c st = Some (a, st') -> R a) ->
  emits c kinds1 ->
  (forall a, R a -> emits (k a) kinds2) ->
  kinds = kinds1 ++ kinds2 ->
  emits (bind c k) kinds.
Proof.
  intros HR Hc Hk -> st b st'' Hrun.
  apply bind_inv in Hrun as (a & st' & Hrun & Hrest).
  destruct (Hc _ _ _ Hrun) as (nodes1 & Hm1 & Hk1).
  destruct (Hk a (HR _ _ _ Hrun) _ _ _ Hrest) as (nodes2 & Hm2 & Hk2).
  exists (nodes1 ++ nodes2). split.
  - by rewrite Hm2, Hm1, app_assoc.
  - by rewrite fmap_app, Hk1, Hk2.
Qed.

Lemma emits_seq {A B} (c : M A) (k : A -> M B)
    (kinds1 kinds2 kinds : list NodeKind) :
  emits c kinds1 ->
  (forall a, emits (k a) kinds2) ->
  kinds = kinds1 ++ kinds2 ->
  emits (bind c k) kinds.
Proof.
  intros Hc Hk. apply (emits_bind (fun _ => True)); [done|done|]. intros a _. apply Hk.
Qed.

Lemma emits_foldM {A B} (body : A -> B -> M A) (kinds : B -> list NodeKind)
    (range : list B) :
  (forall a b, emits (body a b) (kinds b)) ->
  forall a, emits (foldM body a range) (flat_map kinds range).
Proof.
  intros Hbody. induction range as [|b range IH]; intros a; cbn [foldM flat_map].
  - apply emits_ret.
  - eapply emits_seq; [apply Hbody|intros; apply IH|done].
Qed.

Lemma emits_lift_Some {A B} (a : A) (k : A -> M B) (kinds : list NodeKind) :
  emits (k a) kinds -> emits (bind (lift (Some a)) k) kinds.
Proof. intros Hk st b st' Hrun. exact (Hk st b st' Hrun). Qed.

Lemma emits_add {B} (n : Node) (k : NodeHandle -> M B) (kinds : list NodeKind) :
  (forall h, emits (k h) kinds) -> emits (bind (AddNode n) k) (kindOf n :: kinds).
Proof. intros Hk. eapply emits_seq; [apply emits_AddNode|apply Hk|done]. Qed.

Lemma emits_read {A B} (name : Vector) (v : list A) (i : nat) (k : A -> M B)
    (kinds : list NodeKind) :
  (forall a, v !! i = Some a -> emits (k a) kinds) ->
  emits (bind (at_ name v i) k) kinds.
Proof.
  intros Hk.
  apply (emits_bind (fun a => v !! i = Some a) _ _ [] kinds);
    [|apply emits_at|done|done].
  intros st a st' Hrun. by apply at_inv in Hrun as [? _].
Qed.

Lemma emits_write {A B} (name : Vector) (v : list A) (i : nat) (a : A)
    (k : list A -> M B) (kinds : list NodeKind) :
  (forall v', emits (k v') kinds) -> emits (bind (assign name v i a) k) kinds.
Proof. intros Hk. eapply emits_seq; [apply emits_assign|apply Hk|done]. Qed.

(** *** The bottom-up pass *)

Lemma emits_edgeSubModel (newPortElements : PortElements)
    (subModels : list PortElements) (edgeOutputs : PortElements) (edge : Edge) :
  emits (edgeSubModel newPortElements subModels edgeOutputs edge)
        (if IsTargetInterior edge
         then [KEdgePredictor; KBinaryOperation] else [KEdgePredictor]).
Proof.
  unfold edgeSubModel, AddEdgePredictorToModelTransformer.
  destruct (IsTargetInterior edge).
  - apply (emits_add (EdgePredictorNode _ _)). intros node.
    apply emits_read. intros elements _.
    apply (emits_add (BinaryOperationNode _ _ _)). intros sumNode.
    apply emits_ret.
  - apply (emits_add (EdgePredictorNode _ _)). intros node.
    apply emits_ret.
Qed.

(** The kinds one turn of the bottom-up loop adds. *)
Definition bottomUpKindsAt (interiorNodes : list InteriorNode) (i : nat)
  : list NodeKind :=
  match interiorNodes !! i with
  | Some node => bottomUpKinds node
  | None => []
  end.

Lemma emits_visitBottomUp (newPortElements : PortElements)
    (interiorNodes : list InteriorNode)
    (vectors : list PortElements * list PortElements) (i : nat) :
  emits (visitBottomUp newPortElements interiorNodes vectors i)
        (bottomUpKindsAt interiorNodes i).
Proof.
  unfold visitBottomUp, bottomUpKindsAt, AddSplitRuleToModelTransformer.
  destruct vectors as [splitIndicators subModels].
  destruct (interiorNodes !! i) as [node|]; [|by intros st a st' [=]].
  apply emits_lift_Some. unfold bottomUpKinds.
  eapply emits_seq;
    [apply emits_foldM; intros; apply emits_edgeSubModel| |reflexivity].
  intros edgeOutputs.
  apply (emits_add (SplitRuleNode _ _)). intros splitRuleNode.
  apply emits_write. intros si.
  apply (emits_add (ElementSelectorNode _ _)). intros selectorNode.
  apply emits_write. intros sm.
  apply emits_ret.
Qed.

Lemma flat_map_rev_indices {A B} (g : A -> list B) (l : list A) :
  flat_map (fun i => match l !! i with Some a => g a | None => [] end)
           (rev (seq 0 (length l)))
  = flat_map g (rev l).
Proof.
  induction l as [|a l IH] using rev_ind; [done|].
  rewrite length_app, Nat.add_comm. cbn [length Nat.add].
  rewrite seq_S, !rev_app_distr. cbn [rev app flat_map Nat.add].
  rewrite lookup_app_r, Nat.sub_diag by done. cbn [lookup list_lookup].
  f_equal. rewrite <- IH.
  rewrite !flat_map_concat_map. f_equal. apply map_ext_in.
  intros i Hi. apply in_rev, in_seq in Hi.
  by rewrite lookup_app_l by lia.
Qed.

Lemma emits_bottomUp (newPortElements : PortElements)
    (interiorNodes : list InteriorNode) :
  (Z.of_nat (length interiorNodes) < 2 ^ 31)%Z ->
  emits (bottomUp newPortElements interiorNodes)
        (flat_map bottomUpKinds (rev interiorNodes)).
Proof.
  intros Hsize. unfold bottomUp.
  rewrite int_of_size_t_small by done.
  destruct (Z.ltb_spec (Z.of_nat (length interiorNodes) - 1) INT_MIN) as [Hlt|_].
  { unfold INT_MIN in Hlt. lia. }
  replace (Z.to_nat (Z.of_nat (length interiorNodes) - 1 + 1))
    with (length interiorNodes) by lia.
  rewrite <- flat_map_rev_indices.
  apply emits_foldM. intros. apply emits_visitBottomUp.
Qed.

(** *** The top-down pass *)

Lemma emits_childIndicators (isRoot : bool) (parentEdgeIndex : Z)
    (edgeIndicators : list PortElements) (edgeSelector : PortElements) :
  emits (childIndicators isRoot parentEdgeIndex edgeIndicators edgeSelector)
        [if isRoot then KUnaryOperation else KMultiplexor].
Proof.
  unfold childIndicators. destruct isRoot.
  - apply (emits_add (UnaryOperationNode _ _)). intros notNode. apply emits_ret.
  - apply emits_read. intros parentIndicator _.
    apply (emits_add (MultiplexorNode _ _ _)). intros muxNode. apply emits_ret.
Qed.

Lemma emits_recordParent (first : nat) (incoming : list Z) (child : nat * Edge) :
  emits (recordParent first incoming child) [].
Proof.
  unfold recordParent. destruct child as [q e].
  destruct (IsTargetInterior e); [apply emits_assign|apply emits_ret].
Qed.

Lemma flat_map_nil {A B} (l : list A) : flat_map (fun _ : A => @nil B) l = [].
Proof. induction l as [|a l IH]; [done|]. done. Qed.

(** The node one turn of the top-down loop adds is decided by the sentinel
    in [incomingEdgeIndices]. *)
Definition sentinelKind (incoming : list Z) (i : nat) : NodeKind :=
  match incoming !! i with
  | Some z => if (z =? -1)%Z then KUnaryOperation else KMultiplexor
  | None => KUnaryOperation
  end.

Lemma emits_visitTopDown (interiorNodes : list InteriorNode)
    (splitIndicators edgeIndicators : list PortElements) (incoming : list Z)
    (i : nat) :
  emits (visitTopDown interiorNodes splitIndicators (edgeIndicators, incoming) i)
        [sentinelKind incoming i].
Proof.
  unfold visitTopDown, sentinelKind.
  apply emits_read. intros z ->.
  destruct (interiorNodes !! i) as [node|]; [|by intros st a st' [=]].
  apply emits_lift_Some.
  apply emits_read. intros edgeSelector _.
  eapply emits_seq; [apply emits_childIndicators| |reflexivity].
  intros [child1Out child2Out].
  apply emits_write. intros ei1. apply emits_write. intros ei2.
  eapply emits_seq;
    [apply (emits_foldM _ (fun _ => [])); intros; apply emits_recordParent
    |intros; apply emits_ret
    |by rewrite flat_map_nil].
Qed.

Lemma recordParent_inv (first q : nat) (incoming incoming' : list Z) (e : Edge)
    (st st' : State) :
  recordParent first incoming (q, e) st = Some (incoming', st') ->
  (Z.of_nat (first + q) < 2 ^ 31)%Z ->
  incoming' = recorded first incoming q e.
Proof.
  unfold recordParent, recorded. intros Hrun Hsmall.
  destruct (IsTargetInterior e).
  - apply assign_inv in Hrun as (_ & -> & _). by rewrite int_of_size_t_small.
  - by injection Hrun as <- _.
Qed.

Lemma visitTopDown_incoming (interiorNodes : list InteriorNode)
    (splitIndicators edgeIndicators edgeIndicators' : list PortElements)
    (incoming incoming' : list Z) (i first : nat) (node : InteriorNode)
    (e0 e1 : Edge) (st st' : State) :
  visitTopDown interiorNodes splitIndicators (edgeIndicators, incoming) i st
  = Some ((edgeIndicators', incoming'), st') ->
  interiorNodes !! i = Some node ->
  GetOutgoingEdges node = [e0; e1] ->
  GetFirstEdgeIndex node = first ->
  (Z.of_nat (first + 1) < 2 ^ 31)%Z ->
  incoming' = recorded first (recorded first incoming 0 e0) 1 e1.
Proof.
  unfold visitTopDown. intros Hrun Hnode Hedges Hfirst Hsmall.
  apply bind_inv in Hrun as (z & st1 & _ & Hrun).
  rewrite Hnode in Hrun. apply bind_inv in Hrun as (node' & st2 & Hl & Hrun).
  injection Hl as <- <-.
  apply bind_inv in Hrun as (sel & st3 & _ & Hrun).
  apply bind_inv in Hrun as ([c1 c2] & st4 & _ & Hrun).
  apply bind_inv in Hrun as (ei1 & st5 & _ & Hrun).
  apply bind_inv in Hrun as (ei2 & st6 & _ & Hrun).
  apply bind_inv in Hrun as (inc2 & st7 & Hfold & Hret).
  injection Hret as _ <- _.
  rewrite Hedges, Hfirst in Hfold. cbn [imap foldM] in Hfold.
  apply bind_inv in Hfold as (inc1 & st8 & H0 & Hfold).
  apply bind_inv in Hfold as (inc2' & st9 & H1 & Hfold).
  injection Hfold as <- _.
  apply recordParent_inv in H0 as ->; [|lia].
  apply recordParent_inv in H1 as ->; [|cbn; lia]. done.
Qed.

Lemma recorded_length (first q : nat) (incoming : list Z) (e : Edge) :
  length (recorded first incoming q e) = length incoming.
Proof. unfold recorded. destruct (IsTargetInterior e); by rewrite ?length_insert. Qed.

(** With the parents recorded so far, the sentinel tells the roots from the
    other nodes. *)
Lemma sentinel_root (f : ForestPredictor) (i : nat) (incoming : list Z) :
  wf_forest f ->
  records f i incoming ->
  length incoming = length (GetInteriorNodes f) ->
  i < length (GetInteriorNodes f) ->
  sentinelKind incoming i = topDownKind f i.
Proof.
  intros Hwf Hrec Hlen Hi. unfold sentinelKind, topDownKind.
  destruct (lookup_lt_is_Some_2 incoming i) as [z Hz]; [lia|]. rewrite Hz.
  destruct (Hrec i z Hz) as [Hsome Hnone].
  destruct (wf_root_or_child f Hwf i Hi) as [[Hroot Hno]|[Hnr (p & q & Hpar)]].
  - rewrite Hnone; [|intros p q Hpar; by destruct (Hno p q)].
    by rewrite bool_decide_eq_true_2.
  - destruct (wf_parent_lt f Hwf _ _ _ Hpar) as [Hlt _].
    rewrite (Hsome p q Hpar) by lia.
    destruct (Z.eqb_spec (Z.of_nat (firstOf f p + q)) (-1)) as [Heq|_]; [lia|].
    by rewrite bool_decide_eq_false_2.
Qed.

Lemma topDown_kinds_loop (f : ForestPredictor)
    (splitIndicators : list PortElements) :
  wf_forest f ->
  forall (n i : nat) (edgeIndicators : list PortElements) (incoming : list Z)
         (st : State) r (st' : State),
    foldM (visitTopDown (GetInteriorNodes f) splitIndicators)
          (edgeIndicators, incoming) (seq i n) st = Some (r, st') ->
    i + n = length (GetInteriorNodes f) ->
    length incoming = length (GetInteriorNodes f) ->
    records f i incoming ->
    exists nodes,
      modelOf st' = modelOf st ++ nodes
      /\ kindOf <$> nodes = topDownKind f <$> seq i n.
Proof.
  intros Hwf. induction n as [|n IH]; intros i ei inc st r st' Hrun Hin Hlen Hrec.
  - injection Hrun as _ <-. exists []. by rewrite app_nil_r.
  - cbn [seq foldM] in Hrun.
    apply bind_inv in Hrun as ([ei1 inc1] & st1 & Hvisit & Hrest).
    destruct (emits_visitTopDown _ _ _ _ _ _ _ _ Hvisit) as (nodes1 & Hm1 & Hk1).
    destruct (lookup_lt_is_Some_2 (GetInteriorNodes f) i) as [node Hnode]; [lia|].
    destruct (wf_node f Hwf i node Hnode) as [(e0 & e1 & Hedges) Hfirst].
    pose proof (wf_size f Hwf) as Hsize.
    assert (Hfl : firstOf f i + 1 < 2 * length (GetInteriorNodes f))
      by (apply wf_first_lt; [done|lia|lia]).
    pose proof (visitTopDown_incoming _ _ _ _ _ _ _ _ _ _ _ _ _
                  Hvisit Hnode Hedges Hfirst ltac:(lia)) as ->.
    destruct (IH (S i) ei1 _ st1 r st' Hrest) as (nodes2 & Hm2 & Hk2).
    + lia.
    + by rewrite !recorded_length.
    + by apply (records_step f Hwf i node e0 e1).
    + exists (nodes1 ++ nodes2). split.
      * by rewrite Hm2, Hm1, app_assoc.
      * rewrite fmap_app, Hk1, Hk2. cbn [seq fmap list_fmap app].
        f_equal. apply sentinel_root; (done || lia).
Qed.

Lemma topDown_kinds (f : ForestPredictor) (splitIndicators : list PortElements)
    (st st' : State) (indicators : PortElements) :
  wf_forest f ->
  topDown f splitIndicators st = Some (indicators, st') ->
  exists nodes,
    modelOf st' = modelOf st ++ nodes
    /\ kindOf <$> nodes = topDownKind f <$> seq 0 (length (GetInteriorNodes f)).
Proof.
  intros Hwf Hrun. unfold topDown in Hrun.
  apply bind_inv in Hrun as ([ei inc] & st1 & Hloop & Hret).
  injection Hret as _ <-.
  apply (topDown_kinds_loop f splitIndicators Hwf _ 0 _ _ _ _ _ Hloop).
  - done.
  - by rewrite length_replicate.
  - intros n z Hz. apply lookup_replicate in Hz as [-> _].
    split; [intros; lia|done].
Qed.

(** *** The whole pass *)

Lemma RefineNode_kinds (this : ForestNodeObject) (st st' : State) :
  wf_forest (_forest this) ->
  RefineNode this st = Some (tt, st') ->
  exists nodes,
    modelOf st' = modelOf st ++ nodes
    /\ kindOf <$> nodes = refinedKinds (_forest this).
Proof.
  intros Hwf Hrun.
  apply RefineNode_inv in Hrun
    as (pe & si & sm & stA & ind & stB & _ & HA & HB & HC & _).
  pose proof (wf_size _ Hwf) as Hsize.
  assert (Hs : (Z.of_nat (length (GetInteriorNodes (_forest this))) < 2 ^ 31)%Z) by lia.
  destruct (emits_bottomUp pe _ Hs _ _ _ HA) as (nodesA & HmA & HkA).
  destruct (topDown_kinds _ _ _ _ _ Hwf HB) as (nodesB & HmB & HkB).
  apply assemble_inv in HC as (entries & _ & ->).
  exists (nodesA ++ nodesB ++ [ConstantNode [GetBias (_forest this)];
                               SumNode (concat entries ++ [el (length (modelOf stB)) 0 0])]).
  split.
  - unfold assembled, mapped, added, modelOf in *. cbn. cbn in HmA, HmB.
    rewrite HmB, HmA. by rewrite <- !app_assoc.
  - unfold refinedKinds. rewrite !fmap_app, HkA, HkB. done.
Qed.

End Shape.

(** * Further properties of Copy, RefineNode and Compute *)

Section Further.
Context `{ForestTypes}.

(** X1: on a forest that satisfies the structural invariants, the nodes
    RefineNode appends to the model are, in order: for each interior node
    from the last to the first, the predictor of each edge, followed by an
    addition when the edge leads to an interior node, then the split rule and
    an element selector; for each interior node from the first to the last, a
    logical-not node for a root and a multiplexor otherwise; a constant and a
    sum.  The nodes present before are left as they were. *)
Theorem RefineNode_shape (this : ForestNodeObject) (st : State)
    (newPortElements : PortElements) :
  wf_forest (_forest this) ->
  TransformPortElements (_input this) st = Some (newPortElements, st) ->
  exists st' nodes,
    RefineNode this st = Some (tt, st')
    /\ model (transformer st') = model (transformer st) ++ nodes
    /\ kindOf <$> nodes = refinedKinds (_forest this).
Proof.
  intros Hwf Ht.
  destruct (RefineNode_returns this st newPortElements Hwf Ht) as [st' Hrun].
  destruct (RefineNode_kinds this st st' Hwf Hrun) as (nodes & Hm & Hk).
  by exists st', nodes.
Qed.

Lemma bottomUpKinds_length (node : InteriorNode) :
  length (bottomUpKinds node)
  = length (GetOutgoingEdges node)
    + length (filter (fun e => IsTargetInterior e = true) (GetOutgoingEdges node)) + 2.
Proof.
  unfold bottomUpKinds. rewrite length_app. cbn [length].
  induction (GetOutgoingEdges node) as [|e edges IH]; [done|].
  cbn [flat_map]. rewrite length_app, filter_cons.
  destruct (IsTargetInterior e) eqn:He.
  - rewrite decide_True by done. cbn [length]. lia.
  - rewrite decide_False by done. cbn [length]. lia.
Qed.

Lemma bottomUpKinds_primitive (node : InteriorNode) :
  Forall (fun k => k <> KForest) (bottomUpKinds node).
Proof.
  unfold bottomUpKinds. apply Forall_app. split; [|by repeat constructor].
  induction (GetOutgoingEdges node) as [|e edges IH]; [constructor|].
  cbn [flat_map]. apply Forall_app. split; [|done].
  destruct (IsTargetInterior e); by repeat constructor.
Qed.

Lemma refinedKinds_length (f : ForestPredictor) :
  wf_forest f ->
  length (refinedKinds f) = 5 * length (GetInteriorNodes f) + interiorEdges f + 2.
Proof.
  intros Hwf. unfold refinedKinds, interiorEdges.
  rewrite !length_app, length_fmap, length_seq. cbn [length].
  rewrite (Permutation_length
             (Permutation_flat_map bottomUpKinds
                (Permutation_sym (Permutation_rev (GetInteriorNodes f))))).
  assert (Hedges : Forall (fun node => length (GetOutgoingEdges node) = 2)
                          (GetInteriorNodes f)).
  { apply Forall_lookup. intros i node Hnode.
    destruct (wf_node f Hwf i node Hnode) as [(e0 & e1 & ->) _]. done. }
  induction Hedges as [|node nodes Hnode _ IH]; [done|].
  cbn [flat_map length]. rewrite list.filter_app, !length_app, bottomUpKinds_length.
  lia.
Qed.

Lemma refinedKinds_primitive (f : ForestPredictor) :
  Forall (fun k => k <> KForest) (refinedKinds f).
Proof.
  unfold refinedKinds. rewrite !Forall_app. split; [|split].
  - apply Forall_flat_map, Forall_forall. intros node _.
    apply bottomUpKinds_primitive.
  - apply Forall_fmap, Forall_forall. intros i _. cbn. unfold topDownKind.
    by destruct (bool_decide _).
  - by repeat constructor.
Qed.

(** X2: on a forest that satisfies the structural invariants, of K interior
    nodes, RefineNode appends 5 K + 2 nodes and one more for every edge that
    leads to an interior node; none of them is a ForestNode. *)
Theorem RefineNode_node_count (this : ForestNodeObject) (st : State)
    (newPortElements : PortElements) :
  wf_forest (_forest this) ->
  TransformPortElements (_input this) st = Some (newPortElements, st) ->
  exists st' nodes,
    RefineNode this st = Some (tt, st')
    /\ model (transformer st') = model (transformer st) ++ nodes
    /\ length nodes
       = 5 * length (GetInteriorNodes (_forest this))
         + interiorEdges (_forest this) + 2
    /\ Forall (fun n => kindOf n <> KForest) nodes.
Proof.
  intros Hwf Ht.
  destruct (RefineNode_returns this st newPortElements Hwf Ht) as [st' Hrun].
  destruct (RefineNode_kinds this st st' Hwf Hrun) as (nodes & Hm & Hk).
  exists st', nodes. split; [done|]. split; [done|]. split.
  - by rewrite <- (length_fmap kindOf), Hk, refinedKinds_length.
  - pose proof (proj1 (list.Forall_forall _ _)
                  (refinedKinds_primitive (_forest this))) as Hp.
    apply list.Forall_forall. intros n Hn. apply Hp. rewrite <- Hk.
    by apply list_elem_of_fmap_2.
Qed.

(** X3: in the evaluation of the refined model, the indicator of every edge
    on the walk from a root to a leaf is true; of the two indicators of an
    interior node at most one is true, and one of them is true exactly when
    the walk of some tree visits the node. *)
Theorem refined_indicators_follow_the_walk (this : ForestNodeObject) (st : State)
    (env0 : Env) (newPortElements : PortElements) (x : list double) :
  wf_forest (_forest this) ->
  TransformPortElements (_input this) st = Some (newPortElements, st) ->
  Evaluate (model (transformer st)) = Some env0 ->
  readDoubles env0 newPortElements = Some x ->
  exists st' env' newOutput newTrees newIndicator,
    RefineNode this st = Some (tt, st')
    /\ elementsMap (transformer st')
       = elementsMap (transformer st)
         ++ [(_output this, newOutput); (_treeOutputs this, newTrees);
             (_edgeIndicatorVector this, newIndicator)]
    /\ Evaluate (model (transformer st')) = Some env'
    /\ (forall r path step,
          r ∈ GetRootIndices (_forest this) ->
          treePath (_forest this) x r = Some path ->
          step ∈ path ->
          exists elc,
            newIndicator !! stepEdgeIndex step = Some elc
            /\ readBools env' [elc] = Some [true])
    /\ (forall i node,
          GetInteriorNodes (_forest this) !! i = Some node ->
          exists el0 el1 b0 b1,
            newIndicator !! GetFirstEdgeIndex node = Some el0
            /\ newIndicator !! (GetFirstEdgeIndex node + 1) = Some el1
            /\ readBools env' [el0] = Some [b0]
            /\ readBools env' [el1] = Some [b1]
            /\ b0 && b1 = false
            /\ (b0 || b1 = true
                <-> exists r path,
                      r ∈ GetRootIndices (_forest this)
                      /\ treePath (_forest this) x r = Some path
                      /\ i ∈ stepNode <$> path)).
Proof.
  intros Hwf Ht Hev Hx.
  destruct (RefineNode_refined True this x newPortElements st env0 Hwf Ht
              (fun _ => Hev) (fun _ => Hx))
    as (st' & env' & events & paths & indicator & si & ei & trees & total & R).
  destruct R.
  set (f := _forest this) in *.
  destruct (GetEdgeIndicatorVector_spec f x Hwf) as (ind' & Hind' & Hlen & Hspec).
  assert (ind' = indicator) as -> by congruence.
  assert (Hsingle : forall k, k < 2 * length (GetInteriorNodes f) ->
            exists e, ei !! k = Some [e]).
  { intros k Hk.
    destruct (wf_first_cover _ Hwf k Hk) as (p & c & Hp & Hc & ->).
    destruct (refined_indicates0 p c Hp Hc) as (elc & b & He & _). eauto. }
  assert (Hlookup : forall k elc, k < 2 * length (GetInteriorNodes f) ->
            ei !! k = Some [elc] -> concat ei !! k = Some elc).
  { intros k elc Hk He. apply concat_singletons_lookup; [|done].
    intros j Hj. apply Hsingle. lia. }
  exists st', env', [total], trees, (concat ei).
  split; [done|]. split; [done|]. split; [by apply refined_eval0|]. split.
  - intros r path step Hr Hpath Hstep.
    pose proof (Visit_canonical f x _ _ _ Hpath) as Hcan.
    rewrite list.Forall_forall in Hcan.
    destruct (Hcan step Hstep) as (node & Hnode & _ & Hindex).
    destruct (wf_node f Hwf _ node Hnode) as [_ Hfirst].
    pose proof (chosen_lt f x node) as Hc.
    assert (Hn : stepNode step < length (GetInteriorNodes f))
      by (by eapply lookup_lt_Some).
    destruct (refined_indicates0 (stepNode step) (chosen x node) Hn Hc)
      as (elc & b & He & Hb & Hread).
    pose proof (wf_first_lt f Hwf _ _ Hn Hc) as Hbound.
    rewrite Hindex, Hfirst. exists elc. split; [apply Hlookup; [lia|done]|].
    assert (b = true) as ->.
    { apply (Hspec _ _ Hb). exists r, path. split; [done|]. split; [done|].
      rewrite <- Hfirst, <- Hindex. by apply list_elem_of_fmap_2. }
    by apply Hread.
  - intros i node Hnode.
    assert (Hi : i < length (GetInteriorNodes f)) by (by eapply lookup_lt_Some).
    destruct (wf_node f Hwf i node Hnode) as [_ Hfirst].
    destruct (refined_indicates0 i 0 Hi) as (el0 & b0 & He0 & Hb0 & Hr0); [lia|].
    destruct (refined_indicates0 i 1 Hi) as (el1 & b1 & He1 & Hb1 & Hr1); [lia|].
    pose proof (onPath_char f x Hwf i 0 node Hnode) as H0.
    pose proof (onPath_char f x Hwf i 1 node Hnode) as H1.
    pose proof (Hspec _ _ Hb0) as Hs0. pose proof (Hspec _ _ Hb1) as Hs1.
    pose proof (chosen_lt f x node) as Hc.
    rewrite Nat.add_0_r in He0.
    assert (Hbound : firstOf f i + 1 < 2 * length (GetInteriorNodes f))
      by (apply wf_first_lt; [done..|lia]).
    exists el0, el1, b0, b1. rewrite Hfirst.
    split; [apply Hlookup; [lia|done]|]. split; [apply Hlookup; [lia|done]|].
    split; [by apply Hr0|]. split; [by apply Hr1|].
    change (exists r path, r ∈ GetRootIndices f /\ treePath f x r = Some path
                           /\ i ∈ stepNode <$> path) with (active f x i).
    split.
    + destruct b0, b1; try done.
      assert (chosen x node = 0) by (apply H0; [lia|by apply Hs0]).
      assert (chosen x node = 1) by (apply H1; [lia|by apply Hs1]). lia.
    + split.
      * intros Hor. destruct b0.
        -- apply H0; [lia|by apply Hs0].
        -- destruct b1; [|done]. apply H1; [lia|by apply Hs1].
      * intros Hact.
        assert (Hcase : chosen x node = 0 \/ chosen x node = 1) by lia.
        destruct Hcase as [Hz|Hz].
        -- assert (b0 = true) as -> by (apply Hs0, H0; [lia|done]). done.
        -- assert (b1 = true) as -> by (apply Hs1, H1; [lia|done]).
           by destruct b0.
Qed.

(** X4: the order of the additions in the refined model, with no law of
    arithmetic assumed: the output of a tree evaluates to the edge values of
    its walk added from the leaf up, and the total to the tree outputs added
    from the left to zero, the bias last. *)
Theorem refined_outputs_addition_order (this : ForestNodeObject) (st : State)
    (env0 : Env) (newPortElements : PortElements) (x : list double) :
  wf_forest (_forest this) ->
  TransformPortElements (_input this) st = Some (newPortElements, st) ->
  Evaluate (model (transformer st)) = Some env0 ->
  readDoubles env0 newPortElements = Some x ->
  exists st' env' newOutput newTrees newIndicator paths,
    RefineNode this st = Some (tt, st')
    /\ elementsMap (transformer st')
       = elementsMap (transformer st)
         ++ [(_output this, newOutput); (_treeOutputs this, newTrees);
             (_edgeIndicatorVector this, newIndicator)]
    /\ Evaluate (model (transformer st')) = Some env'
    /\ Forall2 (fun r path => treePath (_forest this) x r = Some path)
               (GetRootIndices (_forest this)) paths
    /\ readDoubles env' newTrees = Some (pathValue x <$> paths)
    /\ readDoubles env' newOutput
       = Some [fold_left dadd ((pathValue x <$> paths) ++ [GetBias (_forest this)])
                         dzero].
Proof.
  intros Hwf Ht Hev Hx.
  destruct (RefineNode_refined True this x newPortElements st env0 Hwf Ht
              (fun _ => Hev) (fun _ => Hx))
    as (st' & env' & events & paths & indicator & si & ei & trees & total & R).
  destruct R.
  exists st', env', [total], trees, (concat ei), paths.
  split; [done|]. split; [done|]. split; [by apply refined_eval0|].
  split; [done|]. split; [by apply refined_trees_value0|].
  by apply refined_total_value0.
Qed.

(** X5: on a forest that satisfies the structural invariants [Compute]
    returns for every input, and fills the three ports with 1, [NumTrees()]
    and [NumEdges()] values, the sizes the constructor gives them. *)
Theorem Compute_fills_the_ports (forest : ForestPredictor) (x : list double)
    (input : PortElements) :
  wf_forest forest ->
  exists out trees indicator,
    Compute forest x = Some (out, trees, indicator)
    /\ outputSizes (ForestNode input forest)
       = [length out; length trees; length indicator].
Proof.
  intros Hwf.
  destruct (treePaths_total forest x Hwf) as (paths & _ & Hpaths).
  destruct (GetEdgeIndicatorVector_spec forest x Hwf) as (indicator & Hind & Hlen & _).
  eexists _, _, _. split; [by apply (Compute_of_paths forest x paths indicator)|].
  cbn [outputSizes length]. rewrite length_fmap, Hlen, (wf_NumEdges forest Hwf).
  assert (Hl : length (GetRootIndices forest) = length paths)
    by (by eapply Forall2_length).
  unfold NumTrees. by rewrite Hl.
Qed.

(** X6: Copy needs no invariant of the forest: whenever its input can be
    transformed it adds exactly one node, a ForestNode over the same forest
    and the transformed input, and maps the three outputs to the three ports
    of that node, of 1, [NumTrees()] and [NumEdges()] elements. *)
Theorem Copy_adds_one_ForestNode (this : ForestNodeObject) (st : State)
    (newPortElements : PortElements) :
  TransformPortElements (_input this) st = Some (newPortElements, st) ->
  exists st',
    Copy this st = Some (tt, st')
    /\ model (transformer st')
       = model (transformer st) ++ [ForestNode newPortElements (_forest this)]
    /\ elementsMap (transformer st')
       = elementsMap (transformer st)
         ++ [(_output this, [el (length (model (transformer st))) 0 0]);
             (_treeOutputs this,
              el (length (model (transformer st))) 1
                <$> seq 0 (NumTrees (_forest this)));
             (_edgeIndicatorVector this,
              el (length (model (transformer st))) 2
                <$> seq 0 (NumEdges (_forest this)))]
    /\ accesses st' = accesses st.
Proof.
  intros Ht. unfold Copy.
  rewrite (bind_run _ _ _ _ _ Ht).
  rewrite (bind_run _ _ _ _ _ (AddNode_run _ _)).
  rewrite (bind_run _ _ _ _ _ (MapNodeOutput_run _ _ _)).
  rewrite (bind_run _ _ _ _ _ (MapNodeOutput_run _ _ _)).
  rewrite MapNodeOutput_run.
  eexists. split; [done|]. split; [done|]. split; [|done].
  cbn. by rewrite <- !app_assoc.
Qed.

(** *** An edge that leads nowhere *)

Lemma foldM_fails {A B} (I : A -> Prop) (body : A -> B -> M A) (range : list B)
    (b : B) :
  (forall a b' st a' st', I a -> body a b' st = Some (a', st') -> I a') ->
  b ∈ range ->
  (forall a st, I a -> body a b st = None) ->
  forall a st, I a -> foldM body a range st = None.
Proof.
  intros Hkeep Hin Hfail. induction range as [|b' range IH]; intros a st Ha.
  - by apply elem_of_nil in Hin.
  - cbn [foldM]. unfold bind at 1.
    destruct (body a b' st) as [[a' st']|] eqn:Hrun; [|done].
    apply elem_of_cons in Hin as [->|Hin].
    + by rewrite Hfail in Hrun.
    + apply IH; [done|]. by eapply Hkeep.
Qed.

Lemma edgeSubModel_fails (newPortElements : PortElements)
    (subModels : list PortElements) (edgeOutputs : PortElements) (edge : Edge)
    (st : State) :
  IsTargetInterior edge = true ->
  length subModels <= GetTargetNodeIndex edge ->
  edgeSubModel newPortElements subModels edgeOutputs edge st = None.
Proof.
  intros Hint Hge. unfold edgeSubModel, AddEdgePredictorToModelTransformer.
  rewrite (bind_run _ _ _ _ _ (AddNode_run _ _)), Hint.
  unfold bind at 1. unfold at_. unfold bind at 1. unfold lift.
  by rewrite (lookup_ge_None_2 subModels _ Hge).
Qed.

Lemma visitBottomUp_length (newPortElements : PortElements)
    (interiorNodes : list InteriorNode)
    (splitIndicators subModels splitIndicators' subModels' : list PortElements)
    (i : nat) (st st' : State) :
  visitBottomUp newPortElements interiorNodes (splitIndicators, subModels) i st
  = Some ((splitIndicators', subModels'), st') ->
  length subModels' = length subModels.
Proof.
  unfold visitBottomUp. intros Hrun.
  apply bind_inv in Hrun as (node & st1 & _ & Hrun).
  apply bind_inv in Hrun as (edgeOutputs & st2 & _ & Hrun).
  apply bind_inv in Hrun as (splitRuleNode & st3 & _ & Hrun).
  apply bind_inv in Hrun as (si & st4 & _ & Hrun).
  apply bind_inv in Hrun as (selectorNode & st5 & _ & Hrun).
  apply bind_inv in Hrun as (sm & st6 & Hsm & Hrun).
  injection Hrun as _ <- _.
  apply assign_inv in Hsm as (_ & -> & _). by rewrite length_insert.
Qed.

Lemma bottomUp_fails (newPortElements : PortElements)
    (interiorNodes : list InteriorNode) (i : nat) (node : InteriorNode)
    (edge : Edge) (st : State) :
  (Z.of_nat (length interiorNodes) < 2 ^ 31)%Z ->
  interiorNodes !! i = Some node ->
  edge ∈ GetOutgoingEdges node ->
  IsTargetInterior edge = true ->
  length interiorNodes <= GetTargetNodeIndex edge ->
  bottomUp newPortElements interiorNodes st = None.
Proof.
  intros Hsize Hnode Hedge Hint Hge. unfold bottomUp.
  rewrite int_of_size_t_small by done.
  destruct (Z.ltb_spec (Z.of_nat (length interiorNodes) - 1) INT_MIN) as [Hlt|_].
  { unfold INT_MIN in Hlt. lia. }
  replace (Z.to_nat (Z.of_nat (length interiorNodes) - 1 + 1))
    with (length interiorNodes) by lia.
  apply (foldM_fails
           (fun vectors : list PortElements * list PortElements =>
              length vectors.2 = length interiorNodes) _ _ i).
  - intros [si sm] k st1 [si' sm'] st1' Hlen Hrun. cbn [snd] in *.
    by rewrite (visitBottomUp_length _ _ _ _ _ _ _ _ _ Hrun).
  - apply list_elem_of_In, in_rev. rewrite rev_involutive. apply in_seq.
    apply lookup_lt_Some in Hnode. lia.
  - intros [si sm] st1 Hlen. cbn [snd] in Hlen. unfold visitBottomUp.
    rewrite Hnode. unfold bind at 1. cbn [lift]. unfold bind at 1.
    rewrite (foldM_fails (fun _ => True) _ _ edge); [done|done|done| |done].
    intros eo st2 _. apply edgeSubModel_fails; [done|lia].
  - cbn [snd]. by rewrite length_replicate.
Qed.

(** X7: RefineNode does not validate the forest: when an edge of an
    interior node claims an interior target whose index is not below the
    number of interior nodes, the bottom-up pass indexes
    [interiorNodeSubModels] outside its bounds, and the behaviour of
    RefineNode is undefined. *)
Theorem RefineNode_undefined_on_dangling_target (this : ForestNodeObject)
    (st : State) (i : nat) (node : InteriorNode) (edge : Edge) :
  (Z.of_nat (length (GetInteriorNodes (_forest this))) < 2 ^ 31)%Z ->
  GetInteriorNodes (_forest this) !! i = Some node ->
  edge ∈ GetOutgoingEdges node ->
  IsTargetInterior edge = true ->
  length (GetInteriorNodes (_forest this)) <= GetTargetNodeIndex edge ->
  RefineNode this st = None.
Proof.
  intros Hsize Hnode Hedge Hint Hge. unfold RefineNode. unfold bind at 1.
  destruct (TransformPortElements (_input this) st) as [[pe st1]|]; [|done].
  unfold bind at 1.
  by rewrite (bottomUp_fails pe _ i node edge st1 Hsize Hnode Hedge Hint Hge).
Qed.

(** *** Looking up what a pass has registered *)

Lemma find_app_first {A} (p : A -> bool) (l1 l2 : list A) :
  find p (l1 ++ l2)
  = match find p l1 with Some a => Some a | None => find p l2 end.
Proof.
  induction l1 as [|a l1 IH]; [done|]. cbn [app find]. by destruct (p a).
Qed.

Lemma GetCorrespondingOutputs_kept (t t' : ModelTransformer)
    (entries : list (OutputPort * PortElements)) (port : OutputPort)
    (elements : PortElements) :
  elementsMap t' = elementsMap t ++ entries ->
  GetCorrespondingOutputs t port = Some elements ->
  GetCorrespondingOutputs t' port = Some elements.
Proof.
  unfold GetCorrespondingOutputs. intros -> Hfound.
  rewrite find_app_first. by destruct (find _ (elementsMap t)).
Qed.

Lemma GetCorrespondingOutputs_new (t t' : ModelTransformer)
    (entries : list (OutputPort * PortElements)) (port : OutputPort) :
  elementsMap t' = elementsMap t ++ entries ->
  GetCorrespondingOutputs t port = None ->
  GetCorrespondingOutputs t' port
  = snd <$> find (fun entry => bool_decide (entry.1 = port)) entries.
Proof.
  unfold GetCorrespondingOutputs. intros -> Hfresh.
  rewrite find_app_first. by destruct (find _ (elementsMap t)).
Qed.

Lemma TransformPortElements_port (st : State) (node port : nat)
    (elements : PortElements) :
  GetCorrespondingOutputs (transformer st) (node, port) = Some elements ->
  TransformPortElements (el node port <$> seq 0 (length elements)) st
  = Some (elements, st).
Proof.
  intros Hfound. unfold TransformPortElements.
  assert (Hall : mapM (fun e : PortElement =>
                         found ← GetCorrespondingOutputs (transformer st)
                                   (referencedNode e, referencedPort e);
                         (found : PortElements) !! elementIndex e)
                      (el node port <$> seq 0 (length elements))
                 = Some elements).
  { apply mapM_Some, Forall2_fmap_l.
    apply Forall2_same_length_lookup_2; [by rewrite length_seq|].
    intros i k e Hk He. apply lookup_seq in Hk as [-> _].
    cbn. by rewrite Hfound. }
  by rewrite Hall.
Qed.

(** What either pass registers: three lists of elements, of the sizes of
    the three output ports. *)
Lemma pass_registers (pass : ForestNodeObject -> M unit) (this : ForestNodeObject)
    (st : State) (newPortElements : PortElements) :
  pass = Copy \/ (pass = RefineNode /\ wf_forest (_forest this)) ->
  TransformPortElements (_input this) st = Some (newPortElements, st) ->
  exists st' new1 new2 new3,
    pass this st = Some (tt, st')
    /\ elementsMap (transformer st')
       = elementsMap (transformer st)
         ++ [(_output this, new1); (_treeOutputs this, new2);
             (_edgeIndicatorVector this, new3)]
    /\ length new1 = 1
    /\ length new2 = NumTrees (_forest this)
    /\ length new3 = NumEdges (_forest this).
Proof.
  intros [-> | [-> Hwf]] Ht.
  - unfold Copy.
    rewrite (bind_run _ _ _ _ _ Ht).
    rewrite (bind_run _ _ _ _ _ (AddNode_run _ _)).
    rewrite (bind_run _ _ _ _ _ (MapNodeOutput_run _ _ _)).
    rewrite (bind_run _ _ _ _ _ (MapNodeOutput_run _ _ _)).
    rewrite MapNodeOutput_run.
    eexists _, _, _, _. split; [done|]. split; [cbn; by rewrite <- !app_assoc|].
    unfold output, treeOutputs, edgeIndicatorVector, portElements. cbn.
    by rewrite !length_fmap, !length_seq.
  - assert (Hev : evaluates False st []) by intros [].
    assert (Hx : doubles False [] newPortElements []) by intros [].
    destruct (RefineNode_refined False this [] newPortElements st [] Hwf Ht Hev Hx)
      as (st' & env' & events & paths & indicator & si & ei & trees & total & R).
    destruct R. by exists st', [total], trees, (concat ei).
Qed.

(** X8: Copy, or RefineNode on a forest that satisfies the structural
    invariants, returns having registered three lists of elements, one for
    each of the three outputs of the node and of the size of its port; a
    consumer that then looks up one of these output ports finds, element by
    element, the list the pass registered for it, provided no earlier pass
    had registered that output; and every output registered before is still
    found as it was. *)
Theorem registered_outputs_are_found
    (pass : ForestNodeObject -> M unit) (this : ForestNodeObject)
    (st : State) (newPortElements : PortElements) :
  pass = Copy \/ (pass = RefineNode /\ wf_forest (_forest this)) ->
  TransformPortElements (_input this) st = Some (newPortElements, st) ->
  (forall port, GetCorrespondingOutputs (transformer st) (thisNode this, port) = None) ->
  exists st' newOutput newTrees newIndicator,
    pass this st = Some (tt, st')
    /\ elementsMap (transformer st')
       = elementsMap (transformer st)
         ++ [(_output this, newOutput); (_treeOutputs this, newTrees);
             (_edgeIndicatorVector this, newIndicator)]
    /\ length newOutput = 1
    /\ length newTrees = NumTrees (_forest this)
    /\ length newIndicator = NumEdges (_forest this)
    /\ TransformPortElements (el (thisNode this) 0 <$> seq 0 1) st'
       = Some (newOutput, st')
    /\ TransformPortElements
         (el (thisNode this) 1 <$> seq 0 (NumTrees (_forest this))) st'
       = Some (newTrees, st')
    /\ TransformPortElements
         (el (thisNode this) 2 <$> seq 0 (NumEdges (_forest this))) st'
       = Some (newIndicator, st')
    /\ (forall port elements,
          GetCorrespondingOutputs (transformer st) port = Some elements ->
          GetCorrespondingOutputs (transformer st') port = Some elements).
Proof.
  intros Hpass Ht Hfresh.
  destruct (pass_registers pass this st newPortElements Hpass Ht)
    as (st' & new1 & new2 & new3 & Hrun & Hmap & Hl1 & Hl2 & Hl3).
  exists st', new1, new2, new3. split; [done|]. split; [done|].
  split; [done|]. split; [done|]. split; [done|].
  rewrite <- Hl1 at 1. rewrite <- Hl2 at 1. rewrite <- Hl3 at 1.
  split; [|split; [|split]].
  - apply TransformPortElements_port.
    rewrite (GetCorrespondingOutputs_new _ _ _ _ Hmap (Hfresh 0)).
    unfold _output. cbn [find fst]. by rewrite bool_decide_eq_true_2.
  - apply TransformPortElements_port.
    rewrite (GetCorrespondingOutputs_new _ _ _ _ Hmap (Hfresh 1)).
    unfold _output, _treeOutputs. cbn [find fst].
    rewrite bool_decide_eq_false_2 by congruence.
    by rewrite bool_decide_eq_true_2.
  - apply TransformPortElements_port.
    rewrite (GetCorrespondingOutputs_new _ _ _ _ Hmap (Hfresh 2)).
    unfold _output, _treeOutputs, _edgeIndicatorVector. cbn [find fst].
    rewrite !bool_decide_eq_false_2 by congruence.
    by rewrite bool_decide_eq_true_2.
  - intros port elements. by apply (GetCorrespondingOutputs_kept _ _ _ _ _ Hmap).
Qed.

(** *** The order of the nodes *)

Lemma mapM_is_Some {A B} (g : A -> option B) (l : list A) (k : list B) (a : A) :
  mapM g l = Some k -> a ∈ l -> is_Some (g a).
Proof.
  intros Hall Hin. apply mapM_Some in Hall.
  apply list_elem_of_lookup_1 in Hin as [i Hi].
  destruct (Forall2_lookup_l _ _ _ _ _ Hall Hi) as (b & _ & Hb).
  assert (Hg : forall o : option B, is_Some (o ≫= Some) -> is_Some o).
  { intros [b'|]; [by eexists|]. by intros [? [=]]. }
  by eexists.
Qed.

Lemma readDoubles_scoped (env : Env) (elements : PortElements) (ds : list double)
    (e : PortElement) :
  readDoubles env elements = Some ds -> e ∈ elements ->
  referencedNode e < length env.
Proof.
  intros Hread Hin. destruct (mapM_is_Some _ _ _ _ Hread Hin) as [d Hd].
  unfold readElement in Hd.
  destruct (env !! referencedNode e) as [ports|] eqn:Hports; [|done].
  by eapply lookup_lt_Some.
Qed.

Lemma readBools_scoped (env : Env) (elements : PortElements) (bs : list bool)
    (e : PortElement) :
  readBools env elements = Some bs -> e ∈ elements ->
  referencedNode e < length env.
Proof.
  intros Hread Hin. destruct (mapM_is_Some _ _ _ _ Hread Hin) as [d Hd].
  unfold readElement in Hd.
  destruct (env !! referencedNode e) as [ports|] eqn:Hports; [|done].
  by eapply lookup_lt_Some.
Qed.

(** A node that computes reads elements of the nodes computed before it. *)
Lemma ComputeNode_scoped (env : Env) (n : Node) (outs : list (list Value))
    (e : PortElement) :
  ComputeNode env n = Some outs -> e ∈ inputsOf n ->
  referencedNode e < length env.
Proof.
  intros Hc Hin. destruct n; cbn [ComputeNode inputsOf] in Hc, Hin.
  - by apply elem_of_nil in Hin.
  - destruct operation.
    destruct (readDoubles env input1) as [a|] eqn:H1; [|done]. cbn in Hc.
    destruct (readDoubles env input2) as [b|] eqn:H2; [|done].
    apply elem_of_app in Hin as [Hin|Hin].
    + exact (readDoubles_scoped _ _ _ _ H1 Hin).
    + exact (readDoubles_scoped _ _ _ _ H2 Hin).
  - destruct operation.
    destruct (readBools env input) as [a|] eqn:H1; [|done].
    exact (readBools_scoped _ _ _ _ H1 Hin).
  - destruct (readDoubles env elements) as [a|] eqn:H1; [|done]. cbn in Hc.
    destruct (readBools env selector) as [b|] eqn:H2; [|done].
    apply elem_of_app in Hin as [Hin|Hin].
    + exact (readDoubles_scoped _ _ _ _ H1 Hin).
    + exact (readBools_scoped _ _ _ _ H2 Hin).
  - destruct (readBools env elements) as [a|] eqn:H1; [|done]. cbn in Hc.
    destruct (readBools env selector) as [b|] eqn:H2; [|done].
    apply elem_of_app in Hin as [Hin|Hin].
    + exact (readBools_scoped _ _ _ _ H1 Hin).
    + exact (readBools_scoped _ _ _ _ H2 Hin).
  - destruct (readDoubles env input) as [a|] eqn:H1; [|done].
    exact (readDoubles_scoped _ _ _ _ H1 Hin).
  - destruct (readDoubles env input) as [a|] eqn:H1; [|done].
    exact (readDoubles_scoped _ _ _ _ H1 Hin).
  - destruct (readDoubles env input) as [a|] eqn:H1; [|done].
    exact (readDoubles_scoped _ _ _ _ H1 Hin).
  - destruct (readDoubles env input) as [a|] eqn:H1; [|done].
    exact (readDoubles_scoped _ _ _ _ H1 Hin).
Qed.

Lemma Evaluate_scoped (m : list Node) :
  forall env, Evaluate m = Some env ->
    forall k n e, m !! k = Some n -> e ∈ inputsOf n -> referencedNode e < k.
Proof.
  induction m as [|n' m IH] using rev_ind; intros env Hev k n e Hk Hin; [done|].
  rewrite Evaluate_snoc in Hev. unfold computeNext in Hev.
  destruct (Evaluate m) as [env0|] eqn:Hev0; [|done]. cbn in Hev.
  destruct (ComputeNode env0 n') as [outs|] eqn:Hc; [|done].
  destruct (decide (k < length m)) as [Hlt|Hge].
  - rewrite lookup_app_l in Hk by done. by eapply IH.
  - rewrite lookup_app_r in Hk by lia.
    destruct (k - length m) as [|d] eqn:Hd; [|by destruct d].
    injection Hk as ->.
    pose proof (ComputeNode_scoped _ _ _ _ Hc Hin) as Hs.
    rewrite (Evaluate_length _ _ Hev0) in Hs. lia.
Qed.

(** X9: the refined model is in topological order: every node of it, old
    or new, reads only elements of nodes that come before it, so that
    computing the nodes in the order they were added meets the precondition
    of [Compute]. *)
Theorem refined_model_topologically_ordered (this : ForestNodeObject)
    (st : State) (env0 : Env) (newPortElements : PortElements) (x : list double) :
  wf_forest (_forest this) ->
  TransformPortElements (_input this) st = Some (newPortElements, st) ->
  Evaluate (model (transformer st)) = Some env0 ->
  readDoubles env0 newPortElements = Some x ->
  exists st',
    RefineNode this st = Some (tt, st')
    /\ forall k n e,
         model (transformer st') !! k = Some n ->
         e ∈ inputsOf n ->
         referencedNode e < k.
Proof.
  intros Hwf Ht Hev Hx.
  destruct (RefineNode_refined True this x newPortElements st env0 Hwf Ht
              (fun _ => Hev) (fun _ => Hx))
    as (st' & env' & events & paths & indicator & si & ei & trees & total & R).
  destruct R. exists st'. split; [done|].
  by apply (Evaluate_scoped _ env' (refined_eval0 I)).
Qed.

End Further.

(** * A child stored before its parent *)

Section OutOfOrder.
Context `{ForestTypes}.

(** A computation that, when it returns, has appended to the log events that
    all satisfy [Q]. *)
Definition logs {A} (Q : Access -> Prop) (c : M A) : Prop :=
  forall st a st', c st = Some (a, st') ->
    exists events, accesses st' = accesses st ++ events /\ Forall Q events.

Lemma logs_ret {A} (Q : Access -> Prop) (a : A) : logs Q (ret a).
Proof. intros st a' st' [= <- <-]. exists []. by rewrite app_nil_r. Qed.

Lemma logs_fail {A} (Q : Access -> Prop) : logs Q (fail : M A).
Proof. intros st a st' [=]. Qed.

Lemma logs_lift {A} (Q : Access -> Prop) (o : option A) : logs Q (lift o).
Proof.
  intros st a st'. unfold lift. destruct o; [|done]. intros [= <- <-].
  exists []. by rewrite app_nil_r.
Qed.

Lemma logs_bind {A B} (Q : Access -> Prop) (c : M A) (k : A -> M B) :
  logs Q c -> (forall a, logs Q (k a)) -> logs Q (bind c k).
Proof.
  intros Hc Hk st b st'' Hrun.
  apply bind_inv in Hrun as (a & st' & Hrun & Hrest).
  destruct (Hc _ _ _ Hrun) as (ev1 & He1 & Hq1).
  destruct (Hk a _ _ _ Hrest) as (ev2 & He2 & Hq2).
  exists (ev1 ++ ev2). split.
  - by rewrite He2, He1, app_assoc.
  - by apply Forall_app.
Qed.

Lemma logs_foldM {A B} (Q : Access -> Prop) (body : A -> B -> M A)
    (range : list B) :
  (forall a b, b ∈ range -> logs Q (body a b)) ->
  forall a, logs Q (foldM body a range).
Proof.
  induction range as [|b range IH]; intros Hbody a; cbn [foldM].
  - apply logs_ret.
  - apply logs_bind.
    + apply Hbody. by left.
    + intros a'. apply IH. intros a'' b' Hin. apply Hbody. by right.
Qed.

Lemma logs_at {A} (Q : Access -> Prop) (name : Vector) (v : list A) (i : nat) :
  Q (Read name i) -> logs Q (at_ name v i).
Proof.
  intros HQ st a st' Hrun. apply at_inv in Hrun as [_ ->].
  exists [Read name i]. split; [done|]. by constructor.
Qed.

Lemma logs_assign {A} (Q : Access -> Prop) (name : Vector) (v : list A)
    (i : nat) (a : A) :
  Q (Write name i) -> logs Q (assign name v i a).
Proof.
  intros HQ st a' st' Hrun. apply assign_inv in Hrun as (_ & _ & ->).
  exists [Write name i]. split; [done|]. by constructor.
Qed.

Lemma logs_AddNode (Q : Access -> Prop) (n : Node) : logs Q (AddNode n).
Proof.
  intros st a st'. rewrite AddNode_run. intros [= <- <-].
  exists []. by rewrite app_nil_r.
Qed.

Lemma logs_MapNodeOutput (Q : Access -> Prop) (old : OutputPort)
    (new : PortElements) :
  logs Q (MapNodeOutput old new).
Proof.
  intros st a st'. rewrite MapNodeOutput_run. intros [= <- <-].
  exists []. by rewrite app_nil_r.
Qed.

Ltac logging side :=
  repeat first
    [ apply logs_ret | apply logs_fail | apply logs_lift
    | apply logs_AddNode | apply logs_MapNodeOutput
    | apply logs_at; side | apply logs_assign; side
    | apply logs_foldM; intros
    | apply logs_bind; [|intros]
    | match goal with
      | |- logs _ (match ?p with (_, _) => _ end) => destruct p
      | |- logs _ (if ?b then _ else _) => destruct b
      end ].

(** Whatever the forest, the passes only append to the log. *)
Definition any (event : Access) : Prop := True.

Lemma logs_edgeSubModel (newPortElements : PortElements)
    (subModels : list PortElements) (edgeOutputs : PortElements) (edge : Edge) :
  logs any (edgeSubModel newPortElements subModels edgeOutputs edge).
Proof.
  unfold edgeSubModel, AddEdgePredictorToModelTransformer. logging ltac:(done).
Qed.

Lemma logs_visitBottomUp (newPortElements : PortElements)
    (interiorNodes : list InteriorNode)
    (vectors : list PortElements * list PortElements) (k : nat) :
  logs any (visitBottomUp newPortElements interiorNodes vectors k).
Proof.
  unfold visitBottomUp, AddSplitRuleToModelTransformer. logging ltac:(done).
Qed.

Lemma logs_topDown (forest : ForestPredictor)
    (splitIndicators : list PortElements) :
  logs any (topDown forest splitIndicators).
Proof.
  unfold topDown. logging ltac:(done). unfold visitTopDown. logging ltac:(done).
  - unfold childIndicators. logging ltac:(done).
  - unfold recordParent. logging ltac:(done).
Qed.

Lemma logs_assemble (this : ForestNodeObject) (subModels : list PortElements)
    (indicators : PortElements) :
  logs any (assemble this subModels indicators).
Proof. unfold assemble. logging ltac:(done). Qed.

(** Events that assign no entry of [interiorNodeSubModels] at or below
    [i]. *)
Definition above (i : nat) (event : Access) : Prop :=
  forall j, event = Write vec_interiorNodeSubModels j -> i < j.

Lemma logs_edges_above (i : nat) (newPortElements : PortElements)
    (subModels : list PortElements) (edgeOutputs : PortElements)
    (edges : list Edge) :
  logs (above i) (foldM (edgeSubModel newPortElements subModels) edgeOutputs edges).
Proof.
  apply logs_foldM. intros eo edge _.
  unfold edgeSubModel, AddEdgePredictorToModelTransformer.
  logging ltac:(by intros j Heq).
Qed.

Lemma logs_visitBottomUp_above (i k : nat) (newPortElements : PortElements)
    (interiorNodes : list InteriorNode)
    (vectors : list PortElements * list PortElements) :
  i < k ->
  logs (above i) (visitBottomUp newPortElements interiorNodes vectors k).
Proof.
  intros Hik. unfold visitBottomUp, AddSplitRuleToModelTransformer.
  destruct vectors as [si sm].
  apply logs_bind; [apply logs_lift|]. intros node.
  apply logs_bind; [apply logs_edges_above|]. intros edgeOutputs.
  logging ltac:(intros j Heq; by simplify_eq).
Qed.

Lemma foldM_app_inv {A B} (body : A -> B -> M A) (l1 l2 : list B) :
  forall (a : A) (st : State) (r : A) (st' : State),
    foldM body a (l1 ++ l2) st = Some (r, st') ->
    exists a1 st1,
      foldM body a l1 st = Some (a1, st1) /\ foldM body a1 l2 st1 = Some (r, st').
Proof.
  induction l1 as [|b l1 IH]; intros a st r st' Hrun.
  - by exists a, st.
  - cbn [app foldM] in Hrun. apply bind_inv in Hrun as (a' & st1 & Hb & Hrest).
    destruct (IH _ _ _ _ Hrest) as (a1 & st2 & H1 & H2).
    exists a1, st2. split; [|done]. cbn [foldM]. by rewrite (bind_run _ _ _ _ _ Hb).
Qed.

(** A read of an entry that nothing logged before has assigned. *)
Lemma unassigned_read (i j : nat) (before more : list Access) :
  Forall (above i) before -> j <= i ->
  reads_initialized [] (before ++ Read vec_interiorNodeSubModels j :: more) = false.
Proof.
  intros Habove Hji. rewrite reads_initialized_app. cbn [app reads_initialized initialized].
  assert (Hno : existsb (written vec_interiorNodeSubModels j) before = false).
  { apply not_true_is_false. intros Hex.
    apply existsb_exists in Hex as (event & Hin & Hw).
    rewrite list.Forall_forall in Habove.
    apply list_elem_of_In in Hin. specialize (Habove event Hin).
    destruct event as [v k|v k]; [done|]. cbn in Hw.
    apply andb_true_iff in Hw as [Hv Hk].
    apply bool_decide_eq_true in Hv, Hk. subst.
    specialize (Habove j eq_refl). lia. }
  rewrite Hno. by rewrite andb_false_r.
Qed.

Lemma seq_split_at (i n : nat) :
  i < n -> rev (seq 0 n) = rev (seq (S i) (n - S i)) ++ i :: rev (seq 0 i).
Proof.
  intros Hin. replace n with (i + S (n - S i)) at 1 by lia.
  rewrite seq_app, rev_app_distr. cbn [seq rev Nat.add].
  by rewrite <- app_assoc.
Qed.

Lemma bottomUp_out_of_order (newPortElements : PortElements)
    (interiorNodes : list InteriorNode) (i : nat) (node : InteriorNode)
    (edge : Edge) (st st' : State) r :
  (Z.of_nat (length interiorNodes) < 2 ^ 31)%Z ->
  interiorNodes !! i = Some node ->
  edge ∈ GetOutgoingEdges node ->
  IsTargetInterior edge = true ->
  GetTargetNodeIndex edge <= i ->
  bottomUp newPortElements interiorNodes st = Some (r, st') ->
  exists events,
    accesses st' = accesses st ++ events /\ reads_initialized [] events = false.
Proof.
  intros Hsize Hnode Hedge Hint Hji. unfold bottomUp.
  rewrite int_of_size_t_small by done.
  destruct (Z.ltb_spec (Z.of_nat (length interiorNodes) - 1) INT_MIN) as [Hlt|_].
  { unfold INT_MIN in Hlt. lia. }
  replace (Z.to_nat (Z.of_nat (length interiorNodes) - 1 + 1))
    with (length interiorNodes) by lia.
  assert (Hi : i < length interiorNodes) by (by eapply lookup_lt_Some).
  rewrite (seq_split_at i _ Hi). intros Hrun.
  (* the nodes above [i] *)
  apply foldM_app_inv in Hrun as (v1 & st1 & Habove & Hrun).
  assert (L1 : logs (above i)
                 (foldM (visitBottomUp newPortElements interiorNodes)
                        (replicate (length interiorNodes) [],
                         replicate (length interiorNodes) [])
                        (rev (seq (S i) (length interiorNodes - S i))))).
  { apply logs_foldM. intros a k Hk. apply logs_visitBottomUp_above.
    apply list_elem_of_In in Hk. rewrite <- in_rev in Hk.
    apply in_seq in Hk. lia. }
  destruct (L1 _ _ _ Habove) as (ev1 & He1 & Hq1).
  (* the node [i] itself *)
  cbn [foldM] in Hrun. apply bind_inv in Hrun as (v2 & st2 & Hvisit & Hrest).
  assert (L4 : logs any (foldM (visitBottomUp newPortElements interiorNodes) v2
                               (rev (seq 0 i)))).
  { apply logs_foldM. intros. apply logs_visitBottomUp. }
  destruct (L4 _ _ _ Hrest) as (ev4 & He4 & _).
  unfold visitBottomUp in Hvisit. destruct v1 as [si sm].
  rewrite Hnode in Hvisit. apply bind_inv in Hvisit as (node' & st1' & Hl & Hvisit).
  injection Hl as <- <-.
  apply bind_inv in Hvisit as (edgeOutputs & st3 & Hedges & Hvisit).
  assert (L3 : exists ev3, accesses st2 = accesses st3 ++ ev3).
  { apply bind_inv in Hvisit as (h1 & s1 & Ha1 & Hvisit).
    apply bind_inv in Hvisit as (x1 & s2 & Ha2 & Hvisit).
    apply bind_inv in Hvisit as (h2 & s3 & Ha3 & Hvisit).
    apply bind_inv in Hvisit as (x2 & s4 & Ha4 & Hvisit).
    injection Hvisit as _ <-.
    unfold AddSplitRuleToModelTransformer in Ha1.
    rewrite AddNode_run in Ha1, Ha3. injection Ha1 as _ <-. injection Ha3 as _ <-.
    apply assign_inv in Ha2 as (_ & _ & ->). apply assign_inv in Ha4 as (_ & _ & ->).
    eexists. cbn. by rewrite <- app_assoc. }
  destruct L3 as (ev3 & He3).
  (* the edges of [i], up to the one that leads back *)
  apply list_elem_of_split in Hedge as (es1 & es2 & Hsplit).
  rewrite Hsplit in Hedges.
  apply foldM_app_inv in Hedges as (eo1 & st4 & Hes1 & Hedges).
  destruct (logs_edges_above i _ _ _ _ _ _ _ Hes1) as (ev2 & He2 & Hq2).
  cbn [foldM] in Hedges. apply bind_inv in Hedges as (eo2 & st5 & Hthe & Hes2).
  assert (L5 : logs any (foldM (edgeSubModel newPortElements sm) eo2 es2)).
  { apply logs_foldM. intros. apply logs_edgeSubModel. }
  destruct (L5 _ _ _ Hes2) as (ev5 & He5 & _).
  unfold edgeSubModel, AddEdgePredictorToModelTransformer in Hthe.
  rewrite (bind_run _ _ _ _ _ (AddNode_run _ _)), Hint in Hthe.
  apply bind_inv in Hthe as (elements & st6 & Hread & Hthe).
  apply at_inv in Hread as [_ ->].
  rewrite (bind_run _ _ _ _ _ (AddNode_run _ _)) in Hthe. injection Hthe as _ <-.
  exists (ev1 ++ ev2 ++ Read vec_interiorNodeSubModels (GetTargetNodeIndex edge)
              :: ev5 ++ ev3 ++ ev4).
  split.
  - rewrite He4, He3, He5. cbn. rewrite He2, He1.
    by rewrite <- !app_assoc.
  - rewrite app_assoc. apply (unassigned_read i); [|done].
    by apply Forall_app.
Qed.

(** X10: the order of the interior nodes matters: when an edge of the node
    [i] leads to an interior node stored at or before [i], a RefineNode that
    returns has read an entry of [interiorNodeSubModels] that nothing had
    assigned yet, the empty list of elements the vector is created with; no
    error is raised. *)
Theorem RefineNode_reads_unassigned_entry (this : ForestNodeObject)
    (st st' : State) (i : nat) (node : InteriorNode) (edge : Edge) :
  (Z.of_nat (length (GetInteriorNodes (_forest this))) < 2 ^ 31)%Z ->
  GetInteriorNodes (_forest this) !! i = Some node ->
  edge ∈ GetOutgoingEdges node ->
  IsTargetInterior edge = true ->
  GetTargetNodeIndex edge <= i ->
  RefineNode this st = Some (tt, st') ->
  exists events,
    accesses st' = accesses st ++ events
    /\ reads_initialized [] events = false.
Proof.
  intros Hsize Hnode Hedge Hint Hji Hrun.
  apply RefineNode_inv in Hrun
    as (pe & si & sm & stA & ind & stB & _ & HA & HB & HC & _).
  destruct (bottomUp_out_of_order _ _ _ _ _ _ _ _ Hsize Hnode Hedge Hint Hji HA)
    as (evA & HeA & Hbad).
  destruct (logs_topDown _ _ _ _ _ HB) as (evB & HeB & _).
  destruct (logs_assemble _ _ _ _ _ _ HC) as (evC & HeC & _).
  exists (evA ++ evB ++ evC). split.
  - by rewrite HeC, HeB, HeA, <- !app_assoc.
  - by rewrite reads_initialized_app, Hbad.
Qed.

End OutOfOrder.

(** * Concrete forests *)

(** Integers with their addition are an exact arithmetic. *)
#[global] Instance exact_integers : ExactArithmetic (H := Simple.types).
Proof. split; cbn; intros; lia. Qed.

Section Concrete.
Import Simple.

(** The forest of two trees with shuffled edge indices, refined and computed. *)
Lemma RefineNode_equivalent_to_Compute_up_to_the_order_of_additions_witness :
  (wf_forest (_forest shuffled_node))
  /\ (TransformPortElements (_input shuffled_node) grove_state = Some
      (grove_elements, grove_state))
  /\ (Evaluate (model (transformer grove_state)) = Some grove_env)
  /\ (readDoubles grove_env grove_elements = Some grove_input)
  /\ (exists (out trees : list double) (indicator : list bool)
         (paths : list (list PathStep)),
    Compute (_forest shuffled_node) grove_input = Some (out, trees, indicator)
    /\ Forall2 (fun r path => treePath (_forest shuffled_node) grove_input r
        = Some path)
               (GetRootIndices (_forest shuffled_node)) paths
    /\ out = [accumulate grove_input (GetBias (_forest shuffled_node)) (concat paths)]
    /\ trees = accumulate grove_input dzero <$> paths
    /\ (exists st' env' newOutput newTrees newIndicator,
          RefineNode shuffled_node grove_state = Some (tt, st')
          /\ elementsMap (transformer st')
             = elementsMap (transformer grove_state)
               ++ [(_output shuffled_node, newOutput);
                   (_treeOutputs shuffled_node, newTrees);
                   (_edgeIndicatorVector shuffled_node, newIndicator)]
          /\ Evaluate (model (transformer st')) = Some env'
          /\ readDoubles env' newOutput
             = Some [fold_left dadd
                       ((pathValue grove_input <$> paths) ++ [GetBias
                           (_forest shuffled_node)]) dzero]
          /\ readDoubles env' newTrees = Some (pathValue grove_input <$> paths)
          /\ readBools env' newIndicator = Some indicator
          /\ (ExactArithmetic ->
              readDoubles env' newOutput = Some out
              /\ readDoubles env' newTrees = Some trees))
    /\ (exists st' env' copyOutput copyTrees copyIndicator,
          Copy shuffled_node grove_state = Some (tt, st')
          /\ elementsMap (transformer st')
             = elementsMap (transformer grove_state)
               ++ [(_output shuffled_node, copyOutput);
                   (_treeOutputs shuffled_node, copyTrees);
                   (_edgeIndicatorVector shuffled_node, copyIndicator)]
          /\ Evaluate (model (transformer st')) = Some env'
          /\ readDoubles env' copyOutput = Some out
          /\ readDoubles env' copyTrees = Some trees
          /\ readBools env' copyIndicator = Some indicator)).
Proof.
  do 4 (split; [reflexivity|]).
  apply (RefineNode_equivalent_to_Compute_up_to_the_order_of_additions
           shuffled_node grove_state grove_env grove_elements grove_input);
    reflexivity.
Defined.


(** Node 2 of the forest of two trees, the child of node 0 along its edge 1. *)
Lemma RefineNode_child_indicators_witness :
  (wf_forest (_forest grove_node))
  /\ (TransformPortElements (_input grove_node) grove_state = Some
      (grove_elements, grove_state))
  /\ (GetInteriorNodes (_forest grove_node) !! 2 = Some grove_child)
  /\ (find (targets 2) (slots (_forest grove_node)) = Some (0, 1, (interior 2 2)))
  /\ (GetInteriorNodes (_forest grove_node) !! 0 = Some grove_root)
  /\ (Evaluate (model (transformer grove_state)) = Some grove_env)
  /\ (readDoubles grove_env grove_elements = Some grove_input)
  /\ (exists st' env' newOutput newTrees newIndicator parentEl sel mux parent,
    RefineNode grove_node grove_state = Some (tt, st')
    /\ elementsMap (transformer st')
       = elementsMap (transformer grove_state)
         ++ [(_output grove_node, newOutput); (_treeOutputs grove_node, newTrees);
             (_edgeIndicatorVector grove_node, newIndicator)]
    /\ newIndicator !! (GetFirstEdgeIndex grove_root + 1) = Some parentEl
    /\ model (transformer st') !! referencedNode sel
       = Some (SplitRuleNode grove_elements (GetSplitRule grove_child))
    /\ model (transformer st') !! mux = Some (MultiplexorNode [parentEl] [sel] 2)
    /\ newIndicator !! GetFirstEdgeIndex grove_child = Some (el mux 0 0)
    /\ newIndicator !! (GetFirstEdgeIndex grove_child + 1) = Some (el mux 0 1)
    /\ Evaluate (model (transformer st')) = Some env'
    /\ readBools env' [parentEl] = Some [parent]
    /\ readBools env' [sel] = Some [splitPredict (GetSplitRule grove_child) grove_input]
    /\ readBools env' [el mux 0 0]
       = Some [parent && negb (splitPredict (GetSplitRule grove_child) grove_input)]
    /\ readBools env' [el mux 0 1]
       = Some [parent && splitPredict (GetSplitRule grove_child) grove_input]).
Proof.
  do 7 (split; [reflexivity|]).
  apply (RefineNode_child_indicators
           grove_node grove_state grove_env grove_elements grove_input 2 0 1
           grove_child grove_root (interior 2 2));
    reflexivity.
Defined.

(** The roots and the indicator vector of the forest with shuffled edge indices. *)
Lemma RefineNode_root_indicators_and_vector_witness :
  (wf_forest (_forest shuffled_node))
  /\ (TransformPortElements (_input shuffled_node) grove_state = Some
      (grove_elements, grove_state))
  /\ (Evaluate (model (transformer grove_state)) = Some grove_env)
  /\ (readDoubles grove_env grove_elements = Some grove_input)
  /\ (exists st' env' newOutput newTrees newIndicator
         (outs : list (PortElement * PortElement)) (order : list nat),
    RefineNode shuffled_node grove_state = Some (tt, st')
    /\ elementsMap (transformer st')
       = elementsMap (transformer grove_state)
         ++ [(_output shuffled_node, newOutput); (_treeOutputs shuffled_node, newTrees);
             (_edgeIndicatorVector shuffled_node, newIndicator)]
    /\ Evaluate (model (transformer st')) = Some env'
    /\ newIndicator = flat_map (fun o => [o.1; o.2]) outs
    /\ length newIndicator = NumEdges (_forest shuffled_node)
    /\ order ≡ₚ seq 0 (length (GetInteriorNodes (_forest shuffled_node)))
    /\ length outs = length order
    /\ (forall a b i j nodeI nodeJ,
          order !! a = Some i -> order !! b = Some j -> a < b ->
          GetInteriorNodes (_forest shuffled_node) !! i = Some nodeI ->
          GetInteriorNodes (_forest shuffled_node) !! j = Some nodeJ ->
          GetFirstEdgeIndex nodeI < GetFirstEdgeIndex nodeJ)
    /\ (forall m i node o,
          order !! m = Some i ->
          GetInteriorNodes (_forest shuffled_node) !! i = Some node ->
          outs !! m = Some o ->
          GetFirstEdgeIndex node = 2 * m
          /\ newIndicator !! GetFirstEdgeIndex node = Some o.1
          /\ newIndicator !! (GetFirstEdgeIndex node + 1) = Some o.2)
    /\ (forall i node,
          i ∈ GetRootIndices (_forest shuffled_node) ->
          GetInteriorNodes (_forest shuffled_node) !! i = Some node ->
          exists sel notNode m,
            model (transformer st') !! referencedNode sel
            = Some (SplitRuleNode grove_elements (GetSplitRule node))
            /\ model (transformer st') !! notNode
               = Some (UnaryOperationNode [sel] logicalNot)
            /\ order !! m = Some i
            /\ outs !! m = Some (el notNode 0 0, sel)
            /\ readBools env' [sel] = Some [splitPredict
                (GetSplitRule node) grove_input]
            /\ readBools env' [el notNode 0 0]
               = Some [negb (splitPredict (GetSplitRule node) grove_input)])).
Proof.
  do 4 (split; [reflexivity|]).
  apply (RefineNode_root_indicators_and_vector
           shuffled_node grove_state grove_env grove_elements grove_input);
    reflexivity.
Defined.

(** The three outputs registered by RefineNode on the forest of two trees. *)
Lemma Copy_and_RefineNode_map_each_output_once_witness :
  (RefineNode = Copy \/ (RefineNode = RefineNode /\ wf_forest (_forest grove_node)))
  /\ (TransformPortElements (_input grove_node) grove_state = Some
      (grove_elements, grove_state))
  /\ (exists st' new1 new2 new3,
    RefineNode grove_node grove_state = Some (tt, st')
    /\ NoDup [_output grove_node; _treeOutputs grove_node;
        _edgeIndicatorVector grove_node]
    /\ elementsMap (transformer st')
       = elementsMap (transformer grove_state)
         ++ [(_output grove_node, new1); (_treeOutputs grove_node, new2);
             (_edgeIndicatorVector grove_node, new3)]).
Proof.
  split; [right; split; reflexivity|].
  split; [reflexivity|].
  apply (Copy_and_RefineNode_map_each_output_once
           RefineNode grove_node grove_state grove_elements);
    [right; split; reflexivity | reflexivity].
Defined.



(** The sizes of the outputs of the forest of two trees. *)
Lemma RefineNode_preserves_port_sizes_witness :
  (wf_forest (_forest grove_node))
  /\ (TransformPortElements (_input grove_node) grove_state = Some
      (grove_elements, grove_state))
  /\ (exists st' newOutput newTrees newIndicator,
    RefineNode grove_node grove_state = Some (tt, st')
    /\ elementsMap (transformer st')
       = elementsMap (transformer grove_state)
         ++ [(_output grove_node, newOutput); (_treeOutputs grove_node, newTrees);
             (_edgeIndicatorVector grove_node, newIndicator)]
    /\ outputSizes (ForestNode grove_elements (_forest grove_node))
       = [length newOutput; length newTrees; length newIndicator]
    /\ length newOutput = 1
    /\ length newTrees = NumTrees (_forest grove_node)
    /\ length newIndicator = NumEdges (_forest grove_node)).
Proof.
  do 2 (split; [reflexivity|]).
  apply (RefineNode_preserves_port_sizes
           grove_node grove_state grove_elements);
    reflexivity.
Defined.

(** The nodes added for the forest of two trees. *)
Lemma RefineNode_shape_witness :
  (wf_forest (_forest grove_node))
  /\ (TransformPortElements (_input grove_node) grove_state = Some
      (grove_elements, grove_state))
  /\ (exists st' nodes,
    RefineNode grove_node grove_state = Some (tt, st')
    /\ model (transformer st') = model (transformer grove_state) ++ nodes
    /\ kindOf <$> nodes = refinedKinds (_forest grove_node)).
Proof.
  do 2 (split; [reflexivity|]).
  apply (RefineNode_shape
           grove_node grove_state grove_elements);
    reflexivity.
Defined.

(** The number of nodes added for the forest of two trees. *)
Lemma RefineNode_node_count_witness :
  (wf_forest (_forest grove_node))
  /\ (TransformPortElements (_input grove_node) grove_state = Some
      (grove_elements, grove_state))
  /\ (exists st' nodes,
    RefineNode grove_node grove_state = Some (tt, st')
    /\ model (transformer st') = model (transformer grove_state) ++ nodes
    /\ length nodes
       = 5 * length (GetInteriorNodes (_forest grove_node))
         + interiorEdges (_forest grove_node) + 2
    /\ Forall (fun n => kindOf n <> KForest) nodes).
Proof.
  do 2 (split; [reflexivity|]).
  apply (RefineNode_node_count
           grove_node grove_state grove_elements);
    reflexivity.
Defined.

(** The indicators of the forest of two trees on its input. *)
Lemma refined_indicators_follow_the_walk_witness :
  (wf_forest (_forest grove_node))
  /\ (TransformPortElements (_input grove_node) grove_state = Some
      (grove_elements, grove_state))
  /\ (Evaluate (model (transformer grove_state)) = Some grove_env)
  /\ (readDoubles grove_env grove_elements = Some grove_input)
  /\ (exists st' env' newOutput newTrees newIndicator,
    RefineNode grove_node grove_state = Some (tt, st')
    /\ elementsMap (transformer st')
       = elementsMap (transformer grove_state)
         ++ [(_output grove_node, newOutput); (_treeOutputs grove_node, newTrees);
             (_edgeIndicatorVector grove_node, newIndicator)]
    /\ Evaluate (model (transformer st')) = Some env'
    /\ (forall r path step,
          r ∈ GetRootIndices (_forest grove_node) ->
          treePath (_forest grove_node) grove_input r = Some path ->
          step ∈ path ->
          exists elc,
            newIndicator !! stepEdgeIndex step = Some elc
            /\ readBools env' [elc] = Some [true])
    /\ (forall i node,
          GetInteriorNodes (_forest grove_node) !! i = Some node ->
          exists el0 el1 b0 b1,
            newIndicator !! GetFirstEdgeIndex node = Some el0
            /\ newIndicator !! (GetFirstEdgeIndex node + 1) = Some el1
            /\ readBools env' [el0] = Some [b0]
            /\ readBools env' [el1] = Some [b1]
            /\ b0 && b1 = false
            /\ (b0 || b1 = true
                <-> exists r path,
                      r ∈ GetRootIndices (_forest grove_node)
                      /\ treePath (_forest grove_node) grove_input r = Some path
                      /\ i ∈ stepNode <$> path))).
Proof.
  do 4 (split; [reflexivity|]).
  apply (refined_indicators_follow_the_walk
           grove_node grove_state grove_env grove_elements grove_input);
    reflexivity.
Defined.

(** The sums of the forest of two trees on its input. *)
Lemma refined_outputs_addition_order_witness :
  (wf_forest (_forest grove_node))
  /\ (TransformPortElements (_input grove_node) grove_state = Some
      (grove_elements, grove_state))
  /\ (Evaluate (model (transformer grove_state)) = Some grove_env)
  /\ (readDoubles grove_env grove_elements = Some grove_input)
  /\ (exists st' env' newOutput newTrees newIndicator paths,
    RefineNode grove_node grove_state = Some (tt, st')
    /\ elementsMap (transformer st')
       = elementsMap (transformer grove_state)
         ++ [(_output grove_node, newOutput); (_treeOutputs grove_node, newTrees);
             (_edgeIndicatorVector grove_node, newIndicator)]
    /\ Evaluate (model (transformer st')) = Some env'
    /\ Forall2 (fun r path => treePath (_forest grove_node) grove_input r = Some path)
               (GetRootIndices (_forest grove_node)) paths
    /\ readDoubles env' newTrees = Some (pathValue grove_input <$> paths)
    /\ readDoubles env' newOutput
       = Some [fold_left dadd ((pathValue grove_input <$> paths) ++ [GetBias
           (_forest grove_node)])
                         dzero]).
Proof.
  do 4 (split; [reflexivity|]).
  apply (refined_outputs_addition_order
           grove_node grove_state grove_env grove_elements grove_input);
    reflexivity.
Defined.

(** Compute on the forest of two trees. *)
Lemma Compute_fills_the_ports_witness :
  (wf_forest grove)
  /\ (exists out trees indicator,
    Compute grove grove_input = Some (out, trees, indicator)
    /\ outputSizes (ForestNode grove_elements grove)
       = [length out; length trees; length indicator]).
Proof.
  do 1 (split; [reflexivity|]).
  apply (Compute_fills_the_ports
           grove grove_input grove_elements);
    reflexivity.
Defined.

(** The copy of the node over the forest of two trees. *)
Lemma Copy_adds_one_ForestNode_witness :
  (TransformPortElements (_input grove_node) grove_state = Some
      (grove_elements, grove_state))
  /\ (exists st',
    Copy grove_node grove_state = Some (tt, st')
    /\ model (transformer st')
       = model (transformer grove_state) ++ [ForestNode grove_elements
           (_forest grove_node)]
    /\ elementsMap (transformer st')
       = elementsMap (transformer grove_state)
         ++ [(_output grove_node, [el (length (model (transformer grove_state))) 0 0]);
             (_treeOutputs grove_node,
              el (length (model (transformer grove_state))) 1
                <$> seq 0 (NumTrees (_forest grove_node)));
             (_edgeIndicatorVector grove_node,
              el (length (model (transformer grove_state))) 2
                <$> seq 0 (NumEdges (_forest grove_node)))]
    /\ accesses st' = accesses grove_state).
Proof.
  do 1 (split; [reflexivity|]).
  apply (Copy_adds_one_ForestNode
           grove_node grove_state grove_elements);
    reflexivity.
Defined.

(** The forest whose edge leads nowhere. *)
Lemma RefineNode_undefined_on_dangling_target_witness :
  ((Z.of_nat (length (GetInteriorNodes (_forest dangling_node))) < 2 ^ 31)%Z)
  /\ (GetInteriorNodes (_forest dangling_node) !! 0 = Some dangling_root)
  /\ ((interior 1 5) ∈ GetOutgoingEdges dangling_root)
  /\ (IsTargetInterior (interior 1 5) = true)
  /\ (length (GetInteriorNodes (_forest dangling_node)) <= GetTargetNodeIndex
      (interior 1 5))
  /\ (RefineNode dangling_node stump_state = None).
Proof.
  split; [reflexivity|].
  split; [reflexivity|].
  split; [constructor|].
  split; [reflexivity|].
  split; [cbn; lia|].
  apply (RefineNode_undefined_on_dangling_target
           dangling_node stump_state 0 dangling_root (interior 1 5));
    [reflexivity | reflexivity | constructor | reflexivity | cbn; lia].
Defined.

(** Looking up the outputs of the forest of two trees. *)
Lemma registered_outputs_are_found_witness :
  (RefineNode = Copy \/ (RefineNode = RefineNode /\ wf_forest (_forest grove_node)))
  /\ (TransformPortElements (_input grove_node) grove_state = Some
      (grove_elements, grove_state))
  /\ ((forall port, GetCorrespondingOutputs (transformer grove_state)
      (thisNode grove_node, port) = None))
  /\ (exists st' newOutput newTrees newIndicator,
    RefineNode grove_node grove_state = Some (tt, st')
    /\ elementsMap (transformer st')
       = elementsMap (transformer grove_state)
         ++ [(_output grove_node, newOutput); (_treeOutputs grove_node, newTrees);
             (_edgeIndicatorVector grove_node, newIndicator)]
    /\ length newOutput = 1
    /\ length newTrees = NumTrees (_forest grove_node)
    /\ length newIndicator = NumEdges (_forest grove_node)
    /\ TransformPortElements (el (thisNode grove_node) 0 <$> seq 0 1) st'
       = Some (newOutput, st')
    /\ TransformPortElements
         (el (thisNode grove_node) 1 <$> seq 0 (NumTrees (_forest grove_node))) st'
       = Some (newTrees, st')
    /\ TransformPortElements
         (el (thisNode grove_node) 2 <$> seq 0 (NumEdges (_forest grove_node))) st'
       = Some (newIndicator, st')
    /\ (forall port elements,
          GetCorrespondingOutputs (transformer grove_state) port = Some elements ->
          GetCorrespondingOutputs (transformer st') port = Some elements)).
Proof.
  split; [right; split; reflexivity|].
  split; [reflexivity|].
  split; [intros port; reflexivity|].
  apply (registered_outputs_are_found
           RefineNode grove_node grove_state grove_elements);
    [right; split; reflexivity | reflexivity | intros port; reflexivity].
Defined.

(** The order of the nodes of the refined forest of two trees. *)
Lemma refined_model_topologically_ordered_witness :
  (wf_forest (_forest grove_node))
  /\ (TransformPortElements (_input grove_node) grove_state = Some
      (grove_elements, grove_state))
  /\ (Evaluate (model (transformer grove_state)) = Some grove_env)
  /\ (readDoubles grove_env grove_elements = Some grove_input)
  /\ (exists st',
    RefineNode grove_node grove_state = Some (tt, st')
    /\ forall k n e,
         model (transformer st') !! k = Some n ->
         e ∈ inputsOf n ->
         referencedNode e < k).
Proof.
  do 4 (split; [reflexivity|]).
  apply (refined_model_topologically_ordered
           grove_node grove_state grove_env grove_elements grove_input);
    reflexivity.
Defined.

(** The forest whose edge leads back. *)
Lemma RefineNode_reads_unassigned_entry_witness :
  ((Z.of_nat (length (GetInteriorNodes (_forest tangled_node))) < 2 ^ 31)%Z)
  /\ (GetInteriorNodes (_forest tangled_node) !! 0 = Some tangled_root)
  /\ ((interior 1 0) ∈ GetOutgoingEdges tangled_root)
  /\ (IsTargetInterior (interior 1 0) = true)
  /\ (GetTargetNodeIndex (interior 1 0) <= 0)
  /\ (RefineNode tangled_node stump_state = Some (tt, tangled_result))
  /\ (exists events,
    accesses tangled_result = accesses stump_state ++ events
    /\ reads_initialized [] events = false).
Proof.
  split; [reflexivity|].
  split; [reflexivity|].
  split; [constructor|].
  split; [reflexivity|].
  split; [cbn; lia|].
  split; [vm_compute; reflexivity|].
  apply (RefineNode_reads_unassigned_entry
           tangled_node stump_state tangled_result 0 tangled_root (interior 1 0));
    [reflexivity | reflexivity | constructor | reflexivity | cbn; lia | vm_compute;
        reflexivity].
Defined.

(** The example of the specification: one tree of one interior node, on the
    input 1.0; in halves, the total is 5, the tree gives 4, and the edge
    taken is edge 1. *)
Example stump_Compute :
  Compute stump stump_input = Some ([5%Z], [4%Z], [false; true]).
Proof. reflexivity. Qed.

Example stump_refinedOutputs :
  refinedOutputs stump_node stump_state
  = Some [[VDouble 5%Z]; [VDouble 4%Z]; [VBool false; VBool true]].
Proof. reflexivity. Qed.

Example grove_refinedOutputs :
  refinedOutputs grove_node grove_state
  = Some [[VDouble 119%Z]; [VDouble 8%Z; VDouble 11%Z];
          VBool <$> [false; true; true; false; false; true; false; true]].
Proof. reflexivity. Qed.

(** The same trees with their edges numbered out of the order of the nodes:
    the indicators change places with the edge indices, both in what
    [Compute] returns and in what the refined model computes. *)
Example shuffled_Compute :
  Compute shuffled grove_input
  = Some ([119%Z], [8%Z; 11%Z],
          [true; false; false; true; false; true; false; true]).
Proof. reflexivity. Qed.

Example shuffled_refinedOutputs :
  refinedOutputs shuffled_node grove_state
  = Some [[VDouble 119%Z]; [VDouble 8%Z; VDouble 11%Z];
          VBool <$> [true; false; false; true; false; true; false; true]].
Proof. reflexivity. Qed.

End Concrete.

(** * The arithmetic of [double] *)

Section Binary64.
Import Binary64.

(** In binary64, (0.1 + 0.2) + 0.3 and 0.1 + (0.2 + 0.3) are the two
    different numbers nearest to 0.6. *)
Lemma binary64_sums :
  PrimFloat.add (PrimFloat.add tenth fifth) three_tenths = six_tenths_above
  /\ PrimFloat.add tenth (PrimFloat.add fifth three_tenths) = six_tenths_below.
Proof. split; reflexivity. Qed.

Lemma six_tenths_differ : six_tenths_above <> six_tenths_below.
Proof.
  intros Heq.
  apply (f_equal (fun v => PrimFloat.eqb v six_tenths_below)) in Heq.
  vm_compute in Heq. discriminate.
Qed.

(** Binary64 addition is not an exact arithmetic. *)
Lemma binary64_not_exact : ~ ExactArithmetic (H := types).
Proof.
  intros Hexact.
  pose proof (dadd_assoc (H := types) tenth fifth three_tenths) as Hassoc.
  apply six_tenths_differ. symmetry. exact Hassoc.
Qed.

(** C1 as the specification states it fails in binary64: the chain of
    three nodes satisfies the structural invariants, and on the input 1.0 [Compute]
    returns 0.60000000000000009 for the total and for the tree, adding 0.1,
    0.2 and 0.3 in the order of the walk, while the elements RefineNode maps
    to [output] and [treeOutputs] evaluate to 0.59999999999999998, the sum
    taken from the leaf up.  The edge indicator vectors agree. *)
Lemma RefineNode_differs_from_Compute_in_binary64 :
  wf_forest (_forest chain_node)
  /\ TransformPortElements (_input chain_node) chain_state
     = Some (chain_elements, chain_state)
  /\ Evaluate (model (transformer chain_state)) = Some chain_env
  /\ readDoubles chain_env chain_elements = Some chain_input
  /\ Compute (_forest chain_node) chain_input
     = Some ([six_tenths_above], [six_tenths_above],
             [false; true; false; true; false; true])
  /\ RefineNode chain_node chain_state = Some (tt, chain_refined)
  /\ elementsMap (transformer chain_refined)
     = elementsMap (transformer chain_state)
       ++ [(_output chain_node, [el 19 0 0]);
           (_treeOutputs chain_node, [el 14 0 0]);
           (_edgeIndicatorVector chain_node,
            [el 15 0 0; el 13 0 0; el 16 0 0; el 16 0 1; el 17 0 0; el 17 0 1])]
  /\ Evaluate (model (transformer chain_refined)) = Some chain_refined_env
  /\ readDoubles chain_refined_env [el 19 0 0] = Some [six_tenths_below]
  /\ readDoubles chain_refined_env [el 14 0 0] = Some [six_tenths_below]
  /\ readBools chain_refined_env
       [el 15 0 0; el 13 0 0; el 16 0 0; el 16 0 1; el 17 0 0; el 17 0 1]
     = Some [false; true; false; true; false; true]
  /\ six_tenths_above <> six_tenths_below.
Proof.
  do 11 (split; [vm_compute; reflexivity|]).
  apply six_tenths_differ.
Qed.

End Binary64.

End ForestNodeFacts.
